(** * lift: an HTTP client library on libcurl and libuv

    A shallow embedding of [src/src/Request.cpp], [src/inc/lift/Request.hpp]
    and [src/src/EventLoop.cpp], and the properties of the request setters and
    of the event loop's completion, timer and shutdown paths. *)

From Stdlib Require Import ZArith Lia.
From stdpp Require Import gmap strings list sorting.

Local Open Scope Z_scope.

(** ** Values shared by the request and the event loop *)

(** 64-bit unsigned wrap-around ([uint64_t], [std::atomic<uint64_t>]). *)
Definition wrap64 (z : Z) : Z := z mod 2 ^ 64.

(** Modelled from the spec: the [http::Method] enumeration of lift/Http.hpp,
    which is not among the sources; Request.cpp names [GET] and [POST]. *)
Inductive Method : Type :=
| GET | HEAD | POST | PUT | DELETE | CONNECT | OPTIONS | PATCH | TRACE.

(** Modelled from the spec: the [LiftStatus] enumeration (lift/LiftStatus.hpp
    is not among the sources); EventLoop.cpp names [TIMESUP]. *)
Inductive LiftStatus : Type :=
| BUILDING | EXECUTING | SUCCESS
| CONNECT_ERROR | CONNECT_DNS_ERROR | CONNECT_SSL_ERROR
| DOWNLOAD_ERROR | TIMEOUT | TIMESUP | REQUEST_EMPTY
| ERROR | ERROR_FAILED_TO_START.

(** [lift::MimeField] (MimeField.cpp): a name and either a value or a file
    path ([std::variant<std::string, std::filesystem::path>]). *)
Inductive MimeValue : Type :=
| MimeString (value : string)
| MimeFilepath (path : string).

Record MimeField : Type := mkMimeField {
  m_field_name : string;
  m_field_value : MimeValue
}.

(** A [std::function] is modelled by the identity of the callable it wraps;
    [nullptr] (the empty function) is [None]. *)
Definition OnCompleteHandlerType : Type := nat.
Definition TransferProgressHandlerType : Type := nat.

(** ** Request (Request.hpp, Request.cpp)

    The fields the setters of Request.cpp and the event loop read and write.
    The TLS, proxy, encoding and resolve-host fields are plain storage with
    inline setters and are left out. *)
Record Request : Type := mkRequest {
  m_on_complete_handler : option OnCompleteHandlerType;
  m_on_transfer_progress_handler : option TransferProgressHandlerType;
  m_timeout : option Z;
  m_timesup : option Z;
  m_url : string;
  m_method : Method;
  m_follow_redirects : bool;
  m_max_redirects : Z;
  m_request_headers : list (string * string);
  m_request_data_set : bool;
  m_request_data : string;
  m_mime_fields_set : bool;
  m_mime_fields : list MimeField
}.

(** [Request::Request(url, timeout, on_complete_handler)] with the member
    initialisers of Request.hpp. *)
Definition Request_new (url : string) (timeout : option Z)
    (on_complete_handler : option OnCompleteHandlerType) : Request :=
  {| m_on_complete_handler := on_complete_handler;
     m_on_transfer_progress_handler := None;
     m_timeout := timeout;
     m_timesup := None;
     m_url := url;
     m_method := GET;
     m_follow_redirects := true;
     m_max_redirects := -1;
     m_request_headers := [];
     m_request_data_set := false;
     m_request_data := "";
     m_mime_fields_set := false;
     m_mime_fields := [] |}.

(** What a setter throws. *)
Inductive Exception : Type :=
| logic_error (what : string).

Inductive Result (A : Type) : Type :=
| Ok (a : A)
| Throw (e : Exception).
Arguments Ok {A} a.
Arguments Throw {A} e.

Definition is_Throw {A} (r : Result A) : bool :=
  match r with Throw _ => true | Ok _ => false end.

Module Request.

(** A call of one of the setters, for sequences of calls on one object. *)
Inductive Call : Type :=
| CallOnCompleteHandler (h : option OnCompleteHandlerType)
| CallTransferProgressHandler (h : option (option TransferProgressHandlerType))
| CallTimesup (timesup : option Z)
| CallMethod (method : Method)
| CallFollowRedirects (enabled : bool) (max : option Z)
| CallHeader (name value : string)
| CallData (data : string)
| CallMimeField (mime_field : MimeField).

(** [Request::OnCompleteHandler(on_complete_handler)]. *)
Definition OnCompleteHandler (r : Request)
    (on_complete_handler : option OnCompleteHandlerType) : Request :=
  {| m_on_complete_handler := on_complete_handler;
     m_on_transfer_progress_handler := m_on_transfer_progress_handler r;
     m_timeout := m_timeout r; m_timesup := m_timesup r; m_url := m_url r;
     m_method := m_method r;
     m_follow_redirects := m_follow_redirects r;
     m_max_redirects := m_max_redirects r;
     m_request_headers := m_request_headers r;
     m_request_data_set := m_request_data_set r;
     m_request_data := m_request_data r;
     m_mime_fields_set := m_mime_fields_set r;
     m_mime_fields := m_mime_fields r |}.

(** [Request::TransferProgressHandler]: the argument is an optional
    function; an empty optional and an optional holding an empty function
    both clear the handler. *)
Definition TransferProgressHandler (r : Request)
    (transfer_progress_handler : option (option TransferProgressHandlerType))
    : Request :=
  {| m_on_complete_handler := m_on_complete_handler r;
     m_on_transfer_progress_handler :=
       match transfer_progress_handler with
       | Some (Some h) => Some h
       | _ => None
       end;
     m_timeout := m_timeout r; m_timesup := m_timesup r; m_url := m_url r;
     m_method := m_method r;
     m_follow_redirects := m_follow_redirects r;
     m_max_redirects := m_max_redirects r;
     m_request_headers := m_request_headers r;
     m_request_data_set := m_request_data_set r;
     m_request_data := m_request_data r;
     m_mime_fields_set := m_mime_fields_set r;
     m_mime_fields := m_mime_fields r |}.

(** Modelled from the spec: [Request::Timesup()], the accessor EventLoop.cpp
    reads the optional time's-up budget with, and its setter.  Request.hpp
    declares the member [m_timesup] and neither of the two. *)
Definition Timesup (r : Request) : option Z := m_timesup r.

Definition SetTimesup (r : Request) (timesup : option Z) : Request :=
  {| m_on_complete_handler := m_on_complete_handler r;
     m_on_transfer_progress_handler := m_on_transfer_progress_handler r;
     m_timeout := m_timeout r; m_timesup := timesup; m_url := m_url r;
     m_method := m_method r;
     m_follow_redirects := m_follow_redirects r;
     m_max_redirects := m_max_redirects r;
     m_request_headers := m_request_headers r;
     m_request_data_set := m_request_data_set r;
     m_request_data := m_request_data r;
     m_mime_fields_set := m_mime_fields_set r;
     m_mime_fields := m_mime_fields r |}.

(** [Request::Method(method)] (inline in Request.hpp). *)
Definition SetMethod (r : Request) (method : Method) : Request :=
  {| m_on_complete_handler := m_on_complete_handler r;
     m_on_transfer_progress_handler := m_on_transfer_progress_handler r;
     m_timeout := m_timeout r; m_timesup := m_timesup r; m_url := m_url r;
     m_method := method;
     m_follow_redirects := m_follow_redirects r;
     m_max_redirects := m_max_redirects r;
     m_request_headers := m_request_headers r;
     m_request_data_set := m_request_data_set r;
     m_request_data := m_request_data r;
     m_mime_fields_set := m_mime_fields_set r;
     m_mime_fields := m_mime_fields r |}.

(** The two redirect members written, every other member kept. *)
Definition with_redirects (follow : bool) (max : Z) (r : Request) : Request :=
  {| m_on_complete_handler := m_on_complete_handler r;
     m_on_transfer_progress_handler := m_on_transfer_progress_handler r;
     m_timeout := m_timeout r; m_timesup := m_timesup r; m_url := m_url r;
     m_method := m_method r;
     m_follow_redirects := follow;
     m_max_redirects := max;
     m_request_headers := m_request_headers r;
     m_request_data_set := m_request_data_set r;
     m_request_data := m_request_data r;
     m_mime_fields_set := m_mime_fields_set r;
     m_mime_fields := m_mime_fields r |}.

(** [Request::FollowRedirects(follow_redirects, max_redirects)] as
    Request.cpp defines it, on an [int64_t]. *)
Definition FollowRedirects (r : Request) (follow_redirects : bool)
    (max_redirects : Z) : Request :=
  if follow_redirects then
    if -1 <=? max_redirects then with_redirects true max_redirects r
    else with_redirects true (-1) r
  else with_redirects false (m_max_redirects r) r.

(** Modelled from the spec: the default of [max_redirects] when a caller
    leaves it out.  The declaration matching Request.cpp's [int64_t]
    definition is not among the sources; Request.hpp documents "if not
    provided then infinite" and its field comment gives -1 for infinite. *)
Definition max_redirects_default : Z := -1.

(** A call [FollowRedirects(enabled)] or [FollowRedirects(enabled, max)]. *)
Definition FollowRedirects_call (r : Request) (enabled : bool)
    (max : option Z) : Request :=
  FollowRedirects r enabled (default max_redirects_default max).

(** [Request::Header(name, value)]: appends. *)
Definition Header (r : Request) (name value : string) : Request :=
  {| m_on_complete_handler := m_on_complete_handler r;
     m_on_transfer_progress_handler := m_on_transfer_progress_handler r;
     m_timeout := m_timeout r; m_timesup := m_timesup r; m_url := m_url r;
     m_method := m_method r;
     m_follow_redirects := m_follow_redirects r;
     m_max_redirects := m_max_redirects r;
     m_request_headers := m_request_headers r ++ [(name, value)];
     m_request_data_set := m_request_data_set r;
     m_request_data := m_request_data r;
     m_mime_fields_set := m_mime_fields_set r;
     m_mime_fields := m_mime_fields r |}.

Definition data_after_mime : Exception :=
  logic_error
    "Cannot set POST request data on Request after using adding Mime Fields.".

Definition mime_after_data : Exception :=
  logic_error
    "Cannot add Mime Fields on Request after using POST request data.".

(** [Request::Data(data)]: throws before any field is written. *)
Definition Data (r : Request) (data : string) : Result Request :=
  if m_mime_fields_set r then Throw data_after_mime
  else Ok
    {| m_on_complete_handler := m_on_complete_handler r;
       m_on_transfer_progress_handler := m_on_transfer_progress_handler r;
       m_timeout := m_timeout r; m_timesup := m_timesup r;
       m_url := m_url r;
       m_method := POST;
       m_follow_redirects := m_follow_redirects r;
       m_max_redirects := m_max_redirects r;
       m_request_headers := m_request_headers r;
       m_request_data_set := true;
       m_request_data := data;
       m_mime_fields_set := m_mime_fields_set r;
       m_mime_fields := m_mime_fields r |}.

(** [Request::MimeField(mime_field)]. *)
Definition MimeField (r : Request) (mime_field : MimeField)
    : Result Request :=
  if m_request_data_set r then Throw mime_after_data
  else Ok
    {| m_on_complete_handler := m_on_complete_handler r;
       m_on_transfer_progress_handler := m_on_transfer_progress_handler r;
       m_timeout := m_timeout r; m_timesup := m_timesup r;
       m_url := m_url r;
       m_method := m_method r;
       m_follow_redirects := m_follow_redirects r;
       m_max_redirects := m_max_redirects r;
       m_request_headers := m_request_headers r;
       m_request_data_set := m_request_data_set r;
       m_request_data := m_request_data r;
       m_mime_fields_set := true;
       m_mime_fields := m_mime_fields r ++ [mime_field] |}.

Definition call (r : Request) (c : Call) : Result Request :=
  match c with
  | CallOnCompleteHandler h => Ok (OnCompleteHandler r h)
  | CallTransferProgressHandler h => Ok (TransferProgressHandler r h)
  | CallTimesup t => Ok (SetTimesup r t)
  | CallMethod m => Ok (SetMethod r m)
  | CallFollowRedirects e m => Ok (FollowRedirects_call r e m)
  | CallHeader n v => Ok (Header r n v)
  | CallData d => Data r d
  | CallMimeField f => MimeField r f
  end.

(** A caller that catches the exception goes on with the object as it
    was: each setter throws before it writes. *)
Definition call_caught (r : Request) (c : Call) : Request :=
  match call r c with Ok r' => r' | Throw _ => r end.

Definition calls (r : Request) (cs : list Call) : Request :=
  foldl call_caught r cs.

(** [c] was called during [cs], from [r0] on, and returned normally. *)
Definition returned (r0 : Request) (cs : list Call) (c : Call) : Prop :=
  ∃ pre post, cs = pre ++ c :: post ∧ is_Throw (call (calls r0 pre) c) = false.

(** What the two flags stand for on an object built by the setters. *)
Definition body_xor_mime (r : Request) : Prop :=
  (m_request_data r ≠ "" → m_request_data_set r = true)
  ∧ (m_mime_fields r ≠ [] → m_mime_fields_set r = true)
  ∧ ¬ (m_request_data_set r = true ∧ m_mime_fields_set r = true).

End Request.

(** ** Response and Executor *)

(** Modelled from the spec: the fields of [lift::Response] (Response.hpp is
    not among the sources).  EventLoop.cpp writes [m_lift_status]; the total
    transfer time is in milliseconds. *)
Record Response : Type := mkResponse {
  m_lift_status : LiftStatus;
  m_status_code : Z;
  m_total_time : Z;
  m_num_redirects : Z;
  m_response_data : string
}.

Definition Response_new : Response :=
  {| m_lift_status := BUILDING; m_status_code := 0; m_total_time := 0;
     m_num_redirects := 0; m_response_data := "" |}.

Definition set_lift_status (st : LiftStatus) (r : Response) : Response :=
  {| m_lift_status := st; m_status_code := m_status_code r;
     m_total_time := m_total_time r; m_num_redirects := m_num_redirects r;
     m_response_data := m_response_data r |}.

(** The members of [lift::Executor] that EventLoop.cpp touches.  The owning
    [m_request_async] is [None] once it has been moved into the handler; the
    raw [m_request] points at the same object and is read through it.
    [m_timesup_iterator] holds the key of the node of the timer index it
    points at; the node's value is the executor itself. *)
Record Executor : Type := mkExecutor {
  m_request_async : option Request;
  m_response : Response;
  m_on_complete_callback_called : bool;
  m_timesup_iterator : option Z;
  m_curl_handle : nat
}.

(** The static and member functions of [lift::Executor] that the event loop
    calls and whose definitions (Executor.cpp) are not among the sources:
    [Executor::convert] from a CURLcode, and [copyCurlToResponse], which fills
    the response from the easy handle. *)
Class ExecutorOps : Type := {
  convert : Z → LiftStatus;
  copyCurlToResponse : nat → Response → Response
}.

(** Modelled from the spec: [Executor::setTimesupResponse(total_time)], which
    Executor.cpp defines; the synthetic response's timing matches the
    budget. *)
Definition setTimesupResponse (total_time : Z) (r : Response) : Response :=
  {| m_lift_status := m_lift_status r; m_status_code := m_status_code r;
     m_total_time := total_time; m_num_redirects := m_num_redirects r;
     m_response_data := m_response_data r |}.

(** Modelled from the spec: [Executor::make(request_ptr, event_loop)], a
    fresh executor owning the request, nothing delivered, not in the timer
    index.  [prepare()] configures the easy handle and changes none of these
    members. *)
Definition Executor_make (request_ptr : Request) (curl_handle : nat)
    : Executor :=
  {| m_request_async := Some request_ptr;
     m_response := Response_new;
     m_on_complete_callback_called := false;
     m_timesup_iterator := None;
     m_curl_handle := curl_handle |}.

(** libcurl's codes that EventLoop.cpp names. *)
Definition CURLM_CALL_MULTI_PERFORM : Z := -1.
Definition CURLM_OK : Z := 0.
Definition CURLE_SEND_ERROR : Z := 55.

(** A [CURLMSG_DONE] message of [curl_multi_info_read]: the executor stored
    as the easy handle's private pointer, and the transfer's CURLcode. *)
Definition CurlMsg : Type := (nat * Z)%type.

(** The libuv handles the loop owns. *)
Inductive UvHandle : Type := h_async | h_timeout_timer | h_timesup_timer.

(** What the loop does to its surroundings, in the order it does it. *)
Inductive Event : Type :=
| EvAccepted (executor : nat) (request : Request)
| EvAsyncSend
| EvTimesupEmplace (executor : nat) (time_point : Z)
| EvTimesupErase (executor : nat)
| EvMultiAddHandle (executor : nat) (curl_code : Z)
| EvMultiRemoveHandle (executor : nat)
| EvOnComplete (executor : nat) (handler : OnCompleteHandlerType)
    (request : Request) (response : Response)
| EvExecutorDestroyed (executor : nat)
| EvTimerStop (handle : UvHandle)
| EvClose (handle : UvHandle)
| EvUvStop
| EvThreadJoin.

(** ** The [std::multimap<uint64_t, Executor*>] timer index *)

(** [emplace]: the node goes after every node whose key is not larger. *)
Fixpoint multimap_emplace (k : Z) (v : nat) (l : list (Z * nat))
    : list (Z * nat) :=
  match l with
  | [] => [(k, v)]
  | (k', v') :: l' =>
      if k <? k' then (k, v) :: l else (k', v') :: multimap_emplace k v l'
  end.

(** The position of the node an executor's iterator designates. *)
Fixpoint multimap_position (k : Z) (v : nat) (l : list (Z * nat))
    : option nat :=
  match l with
  | [] => None
  | (k', v') :: l' =>
      if bool_decide (k' = k ∧ v' = v) then Some 0%nat
      else S <$> multimap_position k v l'
  end.

Module EventLoop.

(** The members of [lift::EventLoop] that the submission, drain, completion
    and time's-up paths use.  Executors live on the heap and are named by
    their address; the queues, the multi handle and the timer index hold
    addresses.  [m_timesup_timer] is the libuv timer: [Some (t, d)] while
    it is active, started at loop time [t] with timeout [d].  [trace] is the
    history of what the loop did. *)
Record Loop : Type := mkLoop {
  m_is_stopping : bool;
  m_active_request_count : Z;
  m_pending_requests : list nat;
  m_grabbed_requests : list nat;
  m_timesup : list (Z * nat);
  m_timesup_timer : option (Z * Z);
  m_cmh : gset nat;
  heap : gmap nat Executor;
  next_executor : nat;
  trace : list Event
}.

(** The loop as its constructor leaves it. *)
Definition new : Loop :=
  {| m_is_stopping := false; m_active_request_count := 0;
     m_pending_requests := []; m_grabbed_requests := [];
     m_timesup := []; m_timesup_timer := None; m_cmh := ∅; heap := ∅;
     next_executor := 0; trace := [] |}.

Definition set_is_stopping (b : bool) (s : Loop) : Loop :=
  mkLoop b (m_active_request_count s) (m_pending_requests s)
    (m_grabbed_requests s) (m_timesup s) (m_timesup_timer s) (m_cmh s)
    (heap s) (next_executor s) (trace s).

Definition set_active_request_count (c : Z) (s : Loop) : Loop :=
  mkLoop (m_is_stopping s) c (m_pending_requests s)
    (m_grabbed_requests s) (m_timesup s) (m_timesup_timer s) (m_cmh s)
    (heap s) (next_executor s) (trace s).

Definition set_queues (pending grabbed : list nat) (s : Loop) : Loop :=
  mkLoop (m_is_stopping s) (m_active_request_count s) pending grabbed
    (m_timesup s) (m_timesup_timer s) (m_cmh s)
    (heap s) (next_executor s) (trace s).

Definition set_timesup (l : list (Z * nat)) (s : Loop) : Loop :=
  mkLoop (m_is_stopping s) (m_active_request_count s) (m_pending_requests s)
    (m_grabbed_requests s) l (m_timesup_timer s) (m_cmh s)
    (heap s) (next_executor s) (trace s).

Definition set_timesup_timer (t : option (Z * Z)) (s : Loop) : Loop :=
  mkLoop (m_is_stopping s) (m_active_request_count s) (m_pending_requests s)
    (m_grabbed_requests s) (m_timesup s) t (m_cmh s)
    (heap s) (next_executor s) (trace s).

Definition set_cmh (c : gset nat) (s : Loop) : Loop :=
  mkLoop (m_is_stopping s) (m_active_request_count s) (m_pending_requests s)
    (m_grabbed_requests s) (m_timesup s) (m_timesup_timer s) c
    (heap s) (next_executor s) (trace s).

Definition set_heap (h : gmap nat Executor) (s : Loop) : Loop :=
  mkLoop (m_is_stopping s) (m_active_request_count s) (m_pending_requests s)
    (m_grabbed_requests s) (m_timesup s) (m_timesup_timer s) (m_cmh s)
    h (next_executor s) (trace s).

Definition set_next_executor (n : nat) (s : Loop) : Loop :=
  mkLoop (m_is_stopping s) (m_active_request_count s) (m_pending_requests s)
    (m_grabbed_requests s) (m_timesup s) (m_timesup_timer s) (m_cmh s)
    (heap s) n (trace s).

Definition emit (evs : list Event) (s : Loop) : Loop :=
  mkLoop (m_is_stopping s) (m_active_request_count s) (m_pending_requests s)
    (m_grabbed_requests s) (m_timesup s) (m_timesup_timer s) (m_cmh s)
    (heap s) (next_executor s) (trace s ++ evs).

(** Writes to one executor on the heap. *)
Definition set_executor (id : nat) (e : Executor) (s : Loop) : Loop :=
  set_heap (<[id := e]> (heap s)) s.

Definition with_timesup_iterator (it : option Z) (e : Executor) : Executor :=
  mkExecutor (m_request_async e) (m_response e)
    (m_on_complete_callback_called e) it (m_curl_handle e).

Definition with_response (r : Response) (e : Executor) : Executor :=
  mkExecutor (m_request_async e) r
    (m_on_complete_callback_called e) (m_timesup_iterator e) (m_curl_handle e).

Definition with_callback_called (e : Executor) : Executor :=
  mkExecutor (m_request_async e) (m_response e) true
    (m_timesup_iterator e) (m_curl_handle e).

(** [std::move(executor_ptr->m_request_async)] leaves the pointer null. *)
Definition with_request_moved (e : Executor) : Executor :=
  mkExecutor None (m_response e)
    (m_on_complete_callback_called e) (m_timesup_iterator e) (m_curl_handle e).

(** [EventLoop::Stop]. *)
Definition Stop (s : Loop) : Loop := set_is_stopping true s.

Definition ActiveRequestCount (s : Loop) : Z := m_active_request_count s.

(** [EventLoop::StartRequest]: the boolean it returns and the loop after
    it.  A rejected request is dropped with its handler. *)
Definition StartRequest (request_ptr : Request) (s : Loop) : bool * Loop :=
  if m_is_stopping s then (false, s)
  else
    let id := next_executor s in
    (true,
     emit [EvAccepted id request_ptr; EvAsyncSend]
       (set_queues (m_pending_requests s ++ [id]) (m_grabbed_requests s)
          (set_next_executor (S id)
             (set_executor id (Executor_make request_ptr id)
                (set_active_request_count
                   (wrap64 (m_active_request_count s + 1)) s))))).

(** [EventLoop::updateTimesup] at loop time [now]. *)
Definition updateTimesup (now : Z) (s : Loop) : Loop :=
  match m_timesup s with
  | (first, _) :: _ =>
      let timer_value := if now <? first then first - now else 0 in
      set_timesup_timer (Some (now, timer_value)) s
  | [] => set_timesup_timer None s
  end.

(** [EventLoop::addTimesup] at loop time [now]; the key is a [uint64_t].
    [None] is a dereference of an executor or a request that is gone. *)
Definition addTimesup (now : Z) (id : nat) (s : Loop) : option Loop :=
  e ← heap s !! id;
  r ← m_request_async e;
  match Request.Timesup r, m_timesup_iterator e with
  | Some timesup, None =>
      let time_point := wrap64 (now + timesup) in
      Some (updateTimesup now
              (emit [EvTimesupEmplace id time_point]
                 (set_executor id (with_timesup_iterator (Some time_point) e)
                    (set_timesup
                       (multimap_emplace time_point id (m_timesup s)) s))))
  | _, _ => Some s
  end.

(** [EventLoop::removeTimesup]: the loop after it and the position of the
    iterator it returns ([length] of the index for [end()]). *)
Definition removeTimesup (now : Z) (id : nat) (s : Loop)
    : option (Loop * nat) :=
  e ← heap s !! id;
  match m_timesup_iterator e with
  | Some k =>
      pos ← multimap_position k id (m_timesup s);
      Some (updateTimesup now
              (emit [EvTimesupErase id]
                 (set_executor id (with_timesup_iterator None e)
                    (set_timesup (delete pos (m_timesup s)) s))),
            pos)
  | None => Some (s, length (m_timesup s))
  end.

Section WithExecutorOps.
Context `{ExecutorOps}.

(** The guarded block of [EventLoop::completeRequestNormal].  The handler
    is read only when the flag is still clear (the [&&] short-circuits);
    [None] is a read through a request pointer that was moved away.  The
    handler is called after [removeTimesup], with the request and the
    response moved out of the executor. *)
Definition deliverNormal (now : Z) (id : nat) (status : LiftStatus)
    (s : Loop) : option Loop :=
  e ← heap s !! id;
  if m_on_complete_callback_called e then Some s
  else
    r ← m_request_async e;
    match m_on_complete_handler r with
    | Some on_complete_handler =>
        let response :=
          copyCurlToResponse (m_curl_handle e)
            (set_lift_status status (m_response e)) in
        let s1 :=
          set_executor id (with_response response (with_callback_called e)) s in
        '(s2, _) ← removeTimesup now id s1;
        e2 ← heap s2 !! id;
        Some (emit [EvOnComplete id on_complete_handler r response]
                (set_executor id (with_request_moved e2) s2))
    | None => Some s
    end.

(** [EventLoop::completeRequestNormal]: the guarded delivery, the
    decrement, and the executor destroyed with its [ExecutorPtr]. *)
Definition completeRequestNormal (now : Z) (id : nat) (status : LiftStatus)
    (s : Loop) : option Loop :=
  s1 ← deliverNormal now id status s;
  Some (emit [EvExecutorDestroyed id]
          (set_heap (delete id (heap s1))
             (set_active_request_count
                (wrap64 (m_active_request_count s1 - 1)) s1))).

(** [EventLoop::completeRequestTimesup]. *)
Definition completeRequestTimesup (id : nat) (s : Loop) : option Loop :=
  e ← heap s !! id;
  if m_on_complete_callback_called e then Some s
  else
    r ← m_request_async e;
    match m_on_complete_handler r with
    | Some on_complete_handler =>
        timesup ← Request.Timesup r;
        let response :=
          setTimesupResponse timesup (set_lift_status TIMESUP (m_response e)) in
        Some (emit [EvOnComplete id on_complete_handler r response]
                (set_executor id
                   (with_request_moved
                      (with_response response (with_callback_called e))) s))
    | None => Some s
    end.

(** [EventLoop::checkActions]: the messages [curl_multi_info_read] yields
    are given; a message names a handle of the multi. *)
Fixpoint checkActions (now : Z) (msgs : list CurlMsg) (s : Loop)
    : option Loop :=
  match msgs with
  | [] => Some s
  | (id, easy_result) :: rest =>
      if bool_decide (id ∈ m_cmh s) then
        s1 ← completeRequestNormal now id (convert easy_result)
               (emit [EvMultiRemoveHandle id]
                  (set_cmh (m_cmh s ∖ {[id]}) s));
        checkActions now rest s1
      else None
  end.

(** The loop of [on_uv_requests_accept_async] over the grabbed executors.
    [add_codes] are the results of [curl_multi_add_handle], [completions]
    what each [checkActions] finds, one per executor in order. *)
Fixpoint accept_loop (now : Z) (add_codes : list Z)
    (completions : list (list CurlMsg)) (grabbed : list nat) (s : Loop)
    : option Loop :=
  match grabbed with
  | [] => Some s
  | id :: rest =>
      s1 ← addTimesup now id s;
      let curl_code := hd CURLM_OK add_codes in
      let s2 := emit [EvMultiAddHandle id curl_code] s1 in
      s3 ← (if bool_decide (curl_code ≠ CURLM_OK
                             ∧ curl_code ≠ CURLM_CALL_MULTI_PERFORM)
            then completeRequestNormal now id (convert CURLE_SEND_ERROR) s2
            else checkActions now (hd [] completions)
                   (set_cmh ({[id]} ∪ m_cmh s2) s2));
      accept_loop now (tl add_codes) (tl completions) rest s3
  end.

(** [on_uv_requests_accept_async]. *)
Definition on_uv_requests_accept_async (now : Z) (add_codes : list Z)
    (completions : list (list CurlMsg)) (s : Loop) : option Loop :=
  let s1 := set_queues (m_grabbed_requests s) (m_pending_requests s) s in
  s2 ← accept_loop now add_codes completions (m_grabbed_requests s1) s1;
  Some (set_queues (m_pending_requests s2) [] s2).

(** The [while] of [on_uv_timesup_callback], [iter] at position [pos]. *)
Fixpoint timesup_loop (fuel : nat) (now : Z) (pos : nat) (s : Loop)
    : option Loop :=
  match fuel with
  | O => None
  | S fuel' =>
      match m_timesup s !! pos with
      | None => Some s
      | Some (first, executor) =>
          if now <? first then Some s
          else
            s1 ← completeRequestTimesup executor s;
            '(s2, next) ← removeTimesup now executor s1;
            timesup_loop fuel' now next s2
      end
  end.

(** [on_uv_timesup_callback].  Every turn of the loop that goes on erases a
    node or moves to [end()], so one more than the size of the index is
    enough fuel. *)
Definition on_uv_timesup_callback (now : Z) (s : Loop) : option Loop :=
  match m_timesup s with
  | [] => Some s
  | _ => timesup_loop (S (length (m_timesup s))) now 0 s
  end.

(** What libuv runs on the I/O thread: the async callback with what
    libcurl answers to each [curl_multi_add_handle] and each [checkActions];
    a [checkActions] from the poll callback, the transport-timeout timer or
    [curl_start_timeout], with the messages libcurl has; and the time's-up
    timer, with the loop time. *)
Inductive IoEvent : Type :=
| RequestsAccept (now : Z) (add_codes : list Z)
    (completions : list (list CurlMsg))
| CurlPerform (now : Z) (msgs : list CurlMsg)
| TimesupFired (now : Z).

(** One callback on the I/O thread.  The time's-up timer fires only when it
    is active and due; libuv stops a timer that does not repeat before it
    calls the callback. *)
Definition io_step (ev : IoEvent) (s : Loop) : option Loop :=
  match ev with
  | RequestsAccept now add_codes completions =>
      on_uv_requests_accept_async now add_codes completions s
  | CurlPerform now msgs => checkActions now msgs s
  | TimesupFired now =>
      match m_timesup_timer s with
      | Some (started, timeout) =>
          if started + timeout <=? now then
            on_uv_timesup_callback now (set_timesup_timer None s)
          else None
      | None => None
      end
  end.

(** What happens to a loop: a producer submits or stops it, or the I/O
    thread runs a callback. *)
Inductive Action : Type :=
| Submit (request_ptr : Request)
| CallStop
| Io (ev : IoEvent).

Definition step (a : Action) (s : Loop) : option Loop :=
  match a with
  | Submit request_ptr => Some (StartRequest request_ptr s).2
  | CallStop => Some (Stop s)
  | Io ev => io_step ev s
  end.

Fixpoint run (actions : list Action) (s : Loop) : option Loop :=
  match actions with
  | [] => Some s
  | a :: rest => s' ← step a s; run rest s'
  end.

(** The first loop of [EventLoop::~EventLoop]: the destructor sleeps while
    the count is positive and the I/O thread runs [schedule] meanwhile.
    [None]: the count has not reached zero and the destructor is still
    waiting. *)
Fixpoint wait_active_requests (schedule : list IoEvent) (s : Loop)
    : option Loop :=
  if 0 <? ActiveRequestCount s then
    match schedule with
    | [] => None
    | ev :: rest => s' ← io_step ev s; wait_active_requests rest s'
    end
  else Some s.

(** The libuv calls of the destructor after the wait, in order. *)
Definition shutdown_calls : list Event :=
  [EvTimerStop h_timeout_timer; EvTimerStop h_timesup_timer;
   EvClose h_timeout_timer; EvClose h_timesup_timer; EvClose h_async;
   EvAsyncSend; EvUvStop; EvThreadJoin].

(** [EventLoop::~EventLoop] up to the join of the I/O thread.  A
    [StartRequest] during the wait is rejected and changes nothing, so the
    schedule holds the callbacks of the I/O thread only; the wait for the
    three close callbacks, between [uv_stop] and the join, touches none of
    the members kept here. *)
Definition destructor (schedule : list IoEvent) (s : Loop) : option Loop :=
  s1 ← wait_active_requests schedule (set_is_stopping true s);
  Some (emit shutdown_calls (set_timesup_timer None s1)).

End WithExecutorOps.

(** How often the handler of executor [id] was invoked in a trace. *)
Definition is_delivery (id : nat) (ev : Event) : bool :=
  match ev with
  | EvOnComplete id' _ _ _ => bool_decide (id' = id)
  | _ => false
  end.

Definition deliveries (id : nat) (tr : list Event) : nat :=
  length (filter (λ ev, is_delivery id ev = true) tr).

End EventLoop.

(** ** Delivery accounting

    The part of the loop that delivery and the active count depend on: the
    count, the allocator, for each live executor whether it still owns its
    request and whether its callback was called, and the accepted and
    delivered events of the trace.  Every function of the loop either
    leaves this view alone or takes one of three steps on it. *)

Module Delivery.
Import EventLoop.

Definition exec_core (e : Executor) : option Request * bool :=
  (m_request_async e, m_on_complete_callback_called e).

Definition core_event (ev : Event) : bool :=
  match ev with
  | EvAccepted _ _ | EvOnComplete _ _ _ _ => true
  | _ => false
  end.

Record View : Type := mkView {
  v_count : Z;
  v_next : nat;
  v_heap : gmap nat (option Request * bool);
  v_trace : list Event
}.

Definition view (s : Loop) : View :=
  mkView (m_active_request_count s) (next_executor s)
    (exec_core <$> heap s)
    (filter (λ ev, core_event ev = true) (trace s)).

Inductive vstep : View → View → Prop :=
| vs_accept v request :
    vstep v
      (mkView (wrap64 (v_count v + 1)) (S (v_next v))
         (<[v_next v := (Some request, false)]> (v_heap v))
         (v_trace v ++ [EvAccepted (v_next v) request]))
| vs_deliver v id request handler response :
    v_heap v !! id = Some (Some request, false) →
    m_on_complete_handler request = Some handler →
    vstep v
      (mkView (v_count v) (v_next v)
         (<[id := (None, true)]> (v_heap v))
         (v_trace v ++ [EvOnComplete id handler request response]))
| vs_destroy v id c :
    v_heap v !! id = Some c →
    c.2 = true
    ∨ (∃ request, c = (Some request, false)
                  ∧ m_on_complete_handler request = None) →
    vstep v
      (mkView (wrap64 (v_count v - 1)) (v_next v)
         (delete id (v_heap v)) (v_trace v)).

(** What holds of the view of every loop that was run from a new one. *)
Record Inv (v : View) : Prop := mkInv {
  inv_count : v_count v = wrap64 (Z.of_nat (size (v_heap v)));
  inv_size : (size (v_heap v) ≤ v_next v)%nat;
  inv_fresh : ∀ id, is_Some (v_heap v !! id) → (id < v_next v)%nat;
  inv_accepted_fresh :
    ∀ id r, EvAccepted id r ∈ v_trace v → (id < v_next v)%nat;
  inv_delivered_fresh :
    ∀ id, (0 < deliveries id (v_trace v))%nat → (id < v_next v)%nat;
  inv_live :
    ∀ id c, v_heap v !! id = Some c → ∃ r, EvAccepted id r ∈ v_trace v;
  inv_delivered :
    ∀ id r, EvAccepted id r ∈ v_trace v →
      match v_heap v !! id with
      | Some (Some r', false) => r' = r ∧ deliveries id (v_trace v) = 0%nat
      | Some (None, false) => False
      | Some (_, true) =>
          deliveries id (v_trace v) = 1%nat ∧ m_on_complete_handler r ≠ None
      | None =>
          deliveries id (v_trace v)
          = match m_on_complete_handler r with
            | Some _ => 1%nat
            | None => 0%nat
            end
      end
}.

(** What may be destroyed: an executor whose callback was called, or one
    whose request has no handler. *)
Definition done_with (c : option Request * bool) : Prop :=
  c.2 = true
  ∨ ∃ request, c = (Some request, false)
               ∧ m_on_complete_handler request = None.

(** What no callback of the I/O thread changes: the stopping flag and the
    allocator; and the trace only grows. *)
Definition io_frame (s s' : Loop) : Prop :=
  m_is_stopping s' = m_is_stopping s
  ∧ next_executor s' = next_executor s
  ∧ trace s `prefix_of` trace s'.

(** What the time's-up path leaves alone: the active count, the multi
    handle, and which executors are alive. *)
Definition timesup_frame (s s' : Loop) : Prop :=
  m_active_request_count s' = m_active_request_count s
  ∧ m_cmh s' = m_cmh s
  ∧ ∀ id, is_Some (heap s' !! id) ↔ is_Some (heap s !! id).

End Delivery.

(** ** Footprints

    What a completion or a time's-up turn for the executors [ids] may
    change. *)

Module Footprint.
Import EventLoop.

(** Events that neither accept a request nor add to the timer index or the
    multi handle. *)
Definition quiet (ev : Event) : bool :=
  match ev with
  | EvAccepted _ _ | EvTimesupEmplace _ _ | EvMultiAddHandle _ _ => false
  | _ => true
  end.

Record touches (ids : gset nat) (s s' : Loop) : Prop := mkTouches {
  t_pending : m_pending_requests s' = m_pending_requests s;
  t_grabbed : m_grabbed_requests s' = m_grabbed_requests s;
  t_next : next_executor s' = next_executor s;
  t_heap : ∀ id, id ∉ ids → heap s' !! id = heap s !! id;
  t_trace : ∃ evs, trace s' = trace s ++ evs
                   ∧ Forall (λ ev, quiet ev = true) evs;
  t_cmh : m_cmh s' ⊆ m_cmh s;
  t_index : m_timesup s' ⊆ m_timesup s
}.

(** Events that accept nothing. *)
Definition accepts_nothing (ev : Event) : Prop :=
  match ev with EvAccepted _ _ => False | _ => True end.

(** The executors of the timer index and the accepted executors of a
    trace, in order. *)
Definition index_ids (s : Loop) : gset nat := list_to_set (m_timesup s).*2.

Definition accepted_ids (tr : list Event) : list nat :=
  omap (λ ev, match ev with EvAccepted id _ => Some id | _ => None end) tr.

(** An executor as [StartRequest] queued it. *)
Definition fresh_executor (s : Loop) (id : nat) : Prop :=
  ∃ request, heap s !! id = Some (Executor_make request id).

(** What holds of the queues of every loop that was run from a new one:
    the pending queue is the tail of the accepted executors, in the order
    of acceptance; the executors before it have been drained, and only
    those are in the multi handle or the timer index. *)
Record queues_ok (s : Loop) : Prop := mkQueuesOk {
  q_grabbed : m_grabbed_requests s = [];
  q_fifo : ∃ drained,
      accepted_ids (trace s) = drained ++ m_pending_requests s
      ∧ (∀ id, id ∈ m_cmh s → id ∈ drained)
      ∧ (∀ entry, entry ∈ m_timesup s → entry.2 ∈ drained);
  q_nodup : NoDup (accepted_ids (trace s));
  q_fresh : ∀ id, id ∈ m_pending_requests s → fresh_executor s id;
  q_below : ∀ id, id ∈ accepted_ids (trace s) → (id < next_executor s)%nat
}.

(** The events with which the drain adds to the timer index and to the
    multi handle. *)
Definition is_add (ev : Event) : bool :=
  match ev with
  | EvTimesupEmplace _ _ | EvMultiAddHandle _ _ => true
  | _ => false
  end.

(** What the drain does for one executor, as far as [is_add] shows: the
    timer index first, when the request has a budget, then the multi
    handle. *)
Definition drain_adds (s : Loop) (now : Z) (id : nat) (curl_code : Z)
    : list Event :=
  match e ← heap s !! id; r ← m_request_async e; Request.Timesup r with
  | Some timesup => [EvTimesupEmplace id (wrap64 (now + timesup))]
  | None => []
  end ++ [EvMultiAddHandle id curl_code].

End Footprint.

(** ** The timer index of a running loop *)

Module TimerIndex.
Import EventLoop.

(** The executor of an entry is alive and its iterator designates the
    entry. *)
Definition entry_linked (s : Loop) (entry : Z * nat) : Prop :=
  ∃ e, heap s !! entry.2 = Some e ∧ m_timesup_iterator e = Some entry.1.

(** The executor of an entry has not delivered yet, and its request has a
    handler and a budget. *)
Definition entry_ready (s : Loop) (entry : Z * nat) : Prop :=
  ∃ e request handler budget,
    heap s !! entry.2 = Some e
    ∧ m_on_complete_callback_called e = false
    ∧ m_request_async e = Some request
    ∧ m_on_complete_handler request = Some handler
    ∧ Request.Timesup request = Some budget.

(** The index between two callbacks ([busy = None]) and while the
    completion of executor [id] is under way ([busy = Some id]): keys in
    order, one entry per executor, every entry linked, and every entry but
    the busy executor's ready.  A request with a budget has a handler. *)
Record index_ok (busy : option nat) (s : Loop) : Prop := mkIndexOk {
  idx_sorted : StronglySorted (λ x y : Z * nat, x.1 ≤ y.1) (m_timesup s);
  idx_nodup : NoDup (m_timesup s).*2;
  idx_linked : Forall (entry_linked s) (m_timesup s);
  idx_ready :
    Forall (λ entry, Some entry.2 = busy ∨ entry_ready s entry) (m_timesup s);
  idx_handlers :
    ∀ id e request,
      heap s !! id = Some e → m_request_async e = Some request →
      is_Some (Request.Timesup request) →
      is_Some (m_on_complete_handler request)
}.

(** The time's-up timer is stopped while the index is empty and otherwise
    due no earlier than the first key. *)
Definition timer_armed (s : Loop) : Prop :=
  match m_timesup s with
  | [] => m_timesup_timer s = None
  | (first, _) :: _ =>
      ∃ started timeout,
        m_timesup_timer s = Some (started, timeout)
        ∧ first ≤ started + timeout
  end.

(** No request is submitted with a budget and without a handler. *)
Definition budget_has_handler (a : Action) : bool :=
  match a with
  | Submit request =>
      match Request.Timesup request, m_on_complete_handler request with
      | Some _, None => false
      | _, _ => true
      end
  | _ => true
  end.

(** What the time's-up callback does for one entry, in loop [s]: it calls
    the handler with the request and a response whose status is TIMESUP
    and whose total time is the budget, then erases the entry. *)
Definition timesup_delivery (s : Loop) (entry : Z * nat)
    (evs : list Event) : Prop :=
  ∃ e request handler budget response,
    heap s !! entry.2 = Some e
    ∧ m_request_async e = Some request
    ∧ m_on_complete_handler request = Some handler
    ∧ Request.Timesup request = Some budget
    ∧ response = setTimesupResponse budget
                   (set_lift_status TIMESUP (m_response e))
    ∧ m_lift_status response = TIMESUP
    ∧ m_total_time response = budget
    ∧ evs = [EvOnComplete entry.2 handler request response;
             EvTimesupErase entry.2].

(** The timer as [updateTimesup] leaves it at loop time [now]. *)
Definition timer_for (now : Z) (l : list (Z * nat)) : option (Z * Z) :=
  match l with
  | [] => None
  | (first, _) :: _ => Some (now, if now <? first then first - now else 0)
  end.

(** The index and the timer are as they were, or the timer was set again
    from the index. *)
Definition rearmed (s s' : Loop) : Prop :=
  (m_timesup s' = m_timesup s ∧ m_timesup_timer s' = m_timesup_timer s)
  ∨ timer_armed s'.

(** The index and its timer between two callbacks. *)
Definition index_inv (s : Loop) : Prop := index_ok None s ∧ timer_armed s.

End TimerIndex.

(** ** The timer index when requests may lack a handler *)

Module Expiry.
Import EventLoop TimerIndex.

(** The executor of an entry, while it is alive, has its iterator at the
    entry. *)
Definition entry_kept (s : Loop) (entry : Z * nat) : Prop :=
  ∀ e, heap s !! entry.2 = Some e → m_timesup_iterator e = Some entry.1.

(** The executor of an entry, while it is alive, has not delivered and owns
    its request, which has a budget. *)
Definition entry_waiting (s : Loop) (entry : Z * nat) : Prop :=
  ∀ e, heap s !! entry.2 = Some e →
    m_on_complete_callback_called e = false
    ∧ ∃ request budget,
        m_request_async e = Some request
        ∧ Request.Timesup request = Some budget.

(** The index of any loop, between two callbacks ([busy = None]) and while
    the completion of executor [id] is under way ([busy = Some id]): keys
    in order, one entry per executor, and the entries of live executors
    kept and, but for the busy executor's, waiting.  Nothing is said of an
    entry whose executor is gone. *)
Record index_kept (busy : option nat) (s : Loop) : Prop := mkIndexKept {
  kept_sorted : StronglySorted (λ x y : Z * nat, x.1 ≤ y.1) (m_timesup s);
  kept_nodup : NoDup (m_timesup s).*2;
  kept_linked : Forall (entry_kept s) (m_timesup s);
  kept_waiting :
    Forall (λ entry, Some entry.2 = busy ∨ entry_waiting s entry)
      (m_timesup s)
}.

Definition kept_inv (s : Loop) : Prop := index_kept None s ∧ timer_armed s.

(** What the time's-up callback does for one entry, in loop [s]: when the
    request has a handler it calls it with the request and a response whose
    status is TIMESUP and whose total time is the budget; then it erases
    the entry. *)
Definition timesup_outcome (s : Loop) (entry : Z * nat)
    (evs : list Event) : Prop :=
  ∃ e request budget,
    heap s !! entry.2 = Some e
    ∧ m_request_async e = Some request
    ∧ Request.Timesup request = Some budget
    ∧ match m_on_complete_handler request with
      | Some handler =>
          ∃ response,
            response = setTimesupResponse budget
                         (set_lift_status TIMESUP (m_response e))
            ∧ m_lift_status response = TIMESUP
            ∧ m_total_time response = budget
            ∧ evs = [EvOnComplete entry.2 handler request response;
                     EvTimesupErase entry.2]
      | None => evs = [EvTimesupErase entry.2]
      end.

End Expiry.

(** ** Scenarios used to exercise the statements below *)

Module Scenario.

Definition ops : ExecutorOps :=
  {| convert := λ code, if code =? 0 then SUCCESS else ERROR;
     copyCurlToResponse := λ _ r, r |}.

(** A request with a handler and a budget of 50 ms, and one with a handler
    and no budget. *)
Definition with_budget : Request :=
  Request.SetTimesup (Request_new "http://a.test/" None (Some 7%nat)) (Some 50).

Definition plain : Request := Request_new "http://b.test/" None (Some 8%nat).

(** The same budget and no on-complete handler. *)
Definition no_handler : Request :=
  Request.SetTimesup (Request_new "http://c.test/" None None) (Some 50).

Definition form_field : MimeField :=
  {| m_field_name := "k"; m_field_value := MimeString "v" |}.

Import EventLoop.

(** One request with a budget is accepted and drained at loop time 100. *)
Definition accept_run : list Action :=
  [Submit with_budget; Io (RequestsAccept 100 [] [])].

Definition after_accept : Loop := default new (run (H := ops) accept_run new).

(** Then its time is up at 150, before the transport is done with it. *)
Definition timesup_run : list Action := accept_run ++ [Io (TimesupFired 150)].

Definition after_timesup : Loop :=
  default new (run (H := ops) timesup_run new).

Definition timed_up_executor : Executor :=
  default (Executor_make with_budget 0) (heap after_timesup !! 0%nat).

(** The destructor runs while the transport finishes the request. *)
Definition shutdown_schedule : list IoEvent := [CurlPerform 120 [(0%nat, 0)]].

Definition after_destructor : Loop :=
  default new (destructor (H := ops) shutdown_schedule after_accept).

(** Two requests are submitted and then drained together. *)
Definition submit_run : list Action := [Submit with_budget; Submit plain].

Definition after_submits : Loop := default new (run (H := ops) submit_run new).


(** A request with a budget and no handler completes before its time is
    up. *)
Definition no_handler_run : list Action :=
  [Submit no_handler; Io (RequestsAccept 100 [] []);
   Io (CurlPerform 120 [(0%nat, 0)])].
End Scenario.

(** ** Sequences of setter calls (Request.cpp, Request.hpp) *)

Module RequestCalls.

(** [Request::Headers()], [Request::RemoveHeader(name)] and
    [Request::ClearHeaders()] (inline in Request.hpp). *)
Definition Headers (r : Request) : list (string * string) :=
  m_request_headers r.

Definition RemoveHeader (r : Request) (name : string) : Request :=
  Request.Header r name "".

Definition ClearHeaders (r : Request) : Request :=
  {| m_on_complete_handler := m_on_complete_handler r;
     m_on_transfer_progress_handler := m_on_transfer_progress_handler r;
     m_timeout := m_timeout r; m_timesup := m_timesup r; m_url := m_url r;
     m_method := m_method r;
     m_follow_redirects := m_follow_redirects r;
     m_max_redirects := m_max_redirects r;
     m_request_headers := [];
     m_request_data_set := m_request_data_set r;
     m_request_data := m_request_data r;
     m_mime_fields_set := m_mime_fields_set r;
     m_mime_fields := m_mime_fields r |}.

(** The arguments of the calls of a sequence, by setter. *)
Definition header_args (cs : list Request.Call) : list (string * string) :=
  omap (λ c, match c with
             | Request.CallHeader n v => Some (n, v)
             | _ => None
             end) cs.

Definition data_args (cs : list Request.Call) : list string :=
  omap (λ c, match c with
             | Request.CallData d => Some d
             | _ => None
             end) cs.

Definition mime_args (cs : list Request.Call) : list MimeField :=
  omap (λ c, match c with
             | Request.CallMimeField f => Some f
             | _ => None
             end) cs.

(** Which of the two body setters a call is: [true] for [Data], [false]
    for [MimeField]. *)
Definition body_kind (c : Request.Call) : option bool :=
  match c with
  | Request.CallData _ => Some true
  | Request.CallMimeField _ => Some false
  | _ => None
  end.

Definition first_body (cs : list Request.Call) : option bool :=
  head (omap body_kind cs).

(** The calls that name [m_method] in their body. *)
Definition names_method (c : Request.Call) : bool :=
  match c with
  | Request.CallMethod _ | Request.CallData _ => true
  | _ => false
  end.

End RequestCalls.

(** ** Calls that write the headers (Request.hpp) *)

Module HeaderCalls.

(** A call on a request: one of the setters, or one of the two inline
    header functions of Request.hpp. *)
Inductive HeaderCall : Type :=
| Setter (c : Request.Call)
| CallRemoveHeader (name : string)
| CallClearHeaders.

(** The object after the call; a setter that throws leaves it as it was. *)
Definition header_call (r : Request) (c : HeaderCall) : Request :=
  match c with
  | Setter c => Request.call_caught r c
  | CallRemoveHeader name => RequestCalls.RemoveHeader r name
  | CallClearHeaders => RequestCalls.ClearHeaders r
  end.

Definition header_calls (r : Request) (cs : list HeaderCall) : Request :=
  foldl header_call r cs.

(** The entry a call puts at the back of the headers. *)
Definition appended (c : HeaderCall) : option (string * string) :=
  match c with
  | Setter (Request.CallHeader name value) => Some (name, value)
  | CallRemoveHeader name => Some (name, "")
  | _ => None
  end.

Definition is_clear (c : HeaderCall) : bool :=
  match c with CallClearHeaders => true | _ => false end.

End HeaderCalls.

(** ** Socket contexts (EventLoop.cpp: CurlContext, curl_handle_socket_actions,
    on_uv_curl_perform_callback) *)

(** libuv's poll events (uv.h); libcurl's poll actions, select bits and bad
    socket (curl/multi.h, curl/curl.h). *)
Definition UV_READABLE : Z := 1.
Definition UV_WRITABLE : Z := 2.
Definition CURL_POLL_IN : Z := 1.
Definition CURL_POLL_OUT : Z := 2.
Definition CURL_POLL_INOUT : Z := 3.
Definition CURL_POLL_REMOVE : Z := 4.
Definition CURL_CSELECT_IN : Z := 1.
Definition CURL_CSELECT_OUT : Z := 2.
Definition CURL_CSELECT_ERR : Z := 4.
Definition CURL_SOCKET_BAD : Z := -1.

(** A [uv_poll_t] as libuv keeps it: not handed to libuv (zero-initialised,
    or given back by the close callback), initialised on a descriptor and
    stopped, started for some events, or closing. *)
Inductive PollHandle : Type :=
| poll_blank
| poll_stopped (fd : Z)
| poll_started (fd : Z) (events : Z)
| poll_closing.

Record CurlContext : Type := mkCurlContext {
  m_poll_handle : PollHandle;
  m_sock_fd : Z
}.

(** [CurlContext::CurlContext(event_loop)]. *)
Definition CurlContext_new : CurlContext :=
  {| m_poll_handle := poll_blank; m_sock_fd := CURL_SOCKET_BAD |}.

Module SocketContexts.

(** The contexts on the heap, by address; [m_curl_context_ready], the deque
    of contexts the loop owns again; and [socketp], the pointer libcurl keeps
    for each socket, which [curl_multi_assign] writes. *)
Record Sockets : Type := mkSockets {
  contexts : gmap nat CurlContext;
  next_context : nat;
  m_curl_context_ready : list nat;
  socketp : gmap Z nat
}.

Definition new : Sockets :=
  {| contexts := ∅; next_context := 0; m_curl_context_ready := [];
     socketp := ∅ |}.

Definition set_context (c : nat) (ctx : CurlContext) (s : Sockets) : Sockets :=
  mkSockets (<[c := ctx]> (contexts s)) (next_context s)
    (m_curl_context_ready s) (socketp s).

Definition set_ready (ready : list nat) (s : Sockets) : Sockets :=
  mkSockets (contexts s) (next_context s) ready (socketp s).

(** [std::make_unique<CurlContext>] and [release()]: a new context. *)
Definition make_context (s : Sockets) : nat * Sockets :=
  (next_context s,
   mkSockets (<[next_context s := CurlContext_new]> (contexts s))
     (S (next_context s)) (m_curl_context_ready s) (socketp s)).

(** [curl_multi_assign(cmh, socket, pointer)]. *)
Definition curl_multi_assign (socket : Z) (pointer : option nat) (s : Sockets)
    : Sockets :=
  mkSockets (contexts s) (next_context s) (m_curl_context_ready s)
    (match pointer with
     | Some c => <[socket := c]> (socketp s)
     | None => delete socket (socketp s)
     end).

(** What libuv does with a poll handle.  [None]: a call libuv does not
    allow, on a handle that was not initialised, is still in use, or is
    closing. *)
Definition uv_poll_init (c : nat) (fd : Z) (s : Sockets) : option Sockets :=
  ctx ← contexts s !! c;
  match m_poll_handle ctx with
  | poll_blank =>
      Some (set_context c (mkCurlContext (poll_stopped fd) (m_sock_fd ctx)) s)
  | _ => None
  end.

Definition uv_poll_start (c : nat) (events : Z) (s : Sockets)
    : option Sockets :=
  ctx ← contexts s !! c;
  match m_poll_handle ctx with
  | poll_stopped fd | poll_started fd _ =>
      Some (set_context c
              (mkCurlContext (poll_started fd events) (m_sock_fd ctx)) s)
  | _ => None
  end.

Definition uv_poll_stop (c : nat) (s : Sockets) : option Sockets :=
  ctx ← contexts s !! c;
  match m_poll_handle ctx with
  | poll_stopped fd | poll_started fd _ =>
      Some (set_context c (mkCurlContext (poll_stopped fd) (m_sock_fd ctx)) s)
  | _ => None
  end.

Definition uv_close (c : nat) (s : Sockets) : option Sockets :=
  ctx ← contexts s !! c;
  match m_poll_handle ctx with
  | poll_stopped _ | poll_started _ _ =>
      Some (set_context c (mkCurlContext poll_closing (m_sock_fd ctx)) s)
  | _ => None
  end.

(** [CurlContext::Init(uv_loop, sock_fd)]. *)
Definition Init (c : nat) (sock_fd : Z) (s : Sockets) : option Sockets :=
  ctx ← contexts s !! c;
  uv_poll_init c sock_fd
    (set_context c (mkCurlContext (m_poll_handle ctx) sock_fd) s).

(** [CurlContext::Close()]. *)
Definition Close (c : nat) (s : Sockets) : option Sockets :=
  s1 ← uv_poll_stop c s;
  uv_close c s1.

(** [CurlContext::on_close(handle)]; the context is [handle->data]. *)
Definition on_close (c : nat) (s : Sockets) : Sockets :=
  set_ready (m_curl_context_ready s ++ [c]) s.

(** [curl_handle_socket_actions(curl, socket, action, user_data, socketp)];
    it returns 0 on every path. *)
Definition curl_handle_socket_actions (socket action : Z)
    (socketp : option nat) (s : Sockets) : option Sockets :=
  '(curl_context, s1) ←
    (if bool_decide (action = CURL_POLL_IN ∨ action = CURL_POLL_OUT
                     ∨ action = CURL_POLL_INOUT) then
       match socketp with
       | Some c => Some (Some c, s)
       | None =>
           let '(c, s0) :=
             match m_curl_context_ready s with
             | [] => make_context s
             | c :: ready => (c, set_ready ready s)
             end in
           s1 ← Init c socket s0;
           Some (Some c, curl_multi_assign socket (Some c) s1)
       end
     else Some (None, s));
  if action =? CURL_POLL_IN then
    c ← curl_context; uv_poll_start c UV_READABLE s1
  else if action =? CURL_POLL_OUT then
    c ← curl_context; uv_poll_start c UV_WRITABLE s1
  else if action =? CURL_POLL_INOUT then
    c ← curl_context; uv_poll_start c (Z.lor UV_READABLE UV_WRITABLE) s1
  else if action =? CURL_POLL_REMOVE then
    match socketp with
    | Some c =>
        s2 ← Close c s1;
        Some (curl_multi_assign socket None s2)
    | None => Some s1
    end
  else Some s1.

(** [on_uv_curl_perform_callback(req, status, events)]: the socket and the
    bitmask it calls [checkActions] with; the context is [req->data]. *)
Definition on_uv_curl_perform_callback (c : nat) (status events : Z)
    (s : Sockets) : option (Z * Z) :=
  ctx ← contexts s !! c;
  let action := 0 in
  let action := if status <? 0 then CURL_CSELECT_ERR else action in
  let action :=
    if status =? 0 then
      let action :=
        if Z.land events UV_READABLE =? 0 then action
        else Z.lor action CURL_CSELECT_IN in
      if Z.land events UV_WRITABLE =? 0 then action
      else Z.lor action CURL_CSELECT_OUT
    else action in
  Some (m_sock_fd ctx, action).

(** What libcurl and libuv do to the loop's sockets: libcurl calls the
    socket callback with the pointer it keeps for the socket; libuv ends the
    close of a handle that is closing, hands the memory back and calls the
    close callback. *)
Inductive SocketEvent : Type :=
| SocketAction (socket action : Z)
| CloseDone (c : nat).

Definition step (ev : SocketEvent) (s : Sockets) : option Sockets :=
  match ev with
  | SocketAction socket action =>
      curl_handle_socket_actions socket action (socketp s !! socket) s
  | CloseDone c =>
      ctx ← contexts s !! c;
      match m_poll_handle ctx with
      | poll_closing =>
          Some (on_close c
                  (set_context c (mkCurlContext poll_blank (m_sock_fd ctx)) s))
      | _ => None
      end
  end.

Fixpoint run (evs : list SocketEvent) (s : Sockets) : option Sockets :=
  match evs with
  | [] => Some s
  | ev :: rest => s' ← step ev s; run rest s'
  end.

(** The events libuv polls for after a poll action of libcurl, and the
    select bits that stand for the same directions. *)
Definition poll_events (action : Z) : Z :=
  if action =? CURL_POLL_IN then UV_READABLE
  else if action =? CURL_POLL_OUT then UV_WRITABLE
  else Z.lor UV_READABLE UV_WRITABLE.

Definition select_bits (action : Z) : Z :=
  if action =? CURL_POLL_IN then CURL_CSELECT_IN
  else if action =? CURL_POLL_OUT then CURL_CSELECT_OUT
  else Z.lor CURL_CSELECT_IN CURL_CSELECT_OUT.

(** Where a context is, by its handle: in the ready deque, polling for the
    socket it is assigned to, or closing. *)
Definition placed (s : Sockets) (c : nat) (ctx : CurlContext) : Prop :=
  match m_poll_handle ctx with
  | poll_blank => c ∈ m_curl_context_ready s
  | poll_started fd events =>
      socketp s !! fd = Some c ∧ m_sock_fd ctx = fd
      ∧ (events = UV_READABLE ∨ events = UV_WRITABLE
         ∨ events = Z.lor UV_READABLE UV_WRITABLE)
  | poll_closing => True
  | poll_stopped _ => False
  end.

Record sockets_ok (s : Sockets) : Prop := mkSocketsOk {
  so_alloc : ∀ c, is_Some (contexts s !! c) ↔ (c < next_context s)%nat;
  so_placed : ∀ c ctx, contexts s !! c = Some ctx → placed s c ctx;
  so_ready_nodup : NoDup (m_curl_context_ready s);
  so_ready :
    ∀ c, c ∈ m_curl_context_ready s →
      ∃ ctx, contexts s !! c = Some ctx ∧ m_poll_handle ctx = poll_blank;
  so_assigned :
    ∀ socket c, socketp s !! socket = Some c →
      ∃ ctx events,
        contexts s !! c = Some ctx
        ∧ m_poll_handle ctx = poll_started socket events
}.

End SocketContexts.

(** ** The close callbacks (EventLoop.cpp: uv_close_callback and the
    destructor's second wait) *)

Module Closing.

#[global] Instance UvHandle_eq_dec : EqDecision UvHandle.
Proof. solve_decision. Defined.

(** The three flags [uv_close_callback] sets. *)
Record CloseFlags : Type := mkCloseFlags {
  m_async_closed : bool;
  m_timeout_timer_closed : bool;
  m_timesup_timer_closed : bool
}.

(** [uv_close_callback(handle)]: the flag of the handle that was closed. *)
Definition uv_close_callback (handle : UvHandle) (f : CloseFlags)
    : CloseFlags :=
  match handle with
  | h_async =>
      mkCloseFlags true (m_timeout_timer_closed f) (m_timesup_timer_closed f)
  | h_timeout_timer =>
      mkCloseFlags (m_async_closed f) true (m_timesup_timer_closed f)
  | h_timesup_timer =>
      mkCloseFlags (m_async_closed f) (m_timeout_timer_closed f) true
  end.

(** The second loop of [EventLoop::~EventLoop]: the destructor sleeps while
    its condition holds, and the I/O thread runs the close callbacks of one
    element of [schedule] during each sleep.  [None]: the destructor is
    still waiting. *)
Fixpoint wait_closed (schedule : list (list UvHandle)) (f : CloseFlags)
    : option CloseFlags :=
  if negb (m_timeout_timer_closed f) && negb (m_timesup_timer_closed f)
     && negb (m_async_closed f)
  then
    match schedule with
    | [] => None
    | callbacks :: rest =>
        wait_closed rest (foldl (λ f h, uv_close_callback h f) f callbacks)
    end
  else Some f.

Definition closed (handle : UvHandle) (f : CloseFlags) : bool :=
  match handle with
  | h_async => m_async_closed f
  | h_timeout_timer => m_timeout_timer_closed f
  | h_timesup_timer => m_timesup_timer_closed f
  end.

End Closing.

(** ** Deliveries and the requests they hand back *)

Module Handback.
Import EventLoop Delivery.

(** Every delivery in a trace hands back a request that was accepted
    earlier under the same executor, to that request's own handler. *)
Definition handed_back (tr : list Event) : Prop :=
  ∀ pre id handler request response post,
    tr = pre ++ EvOnComplete id handler request response :: post →
    EvAccepted id request ∈ pre
    ∧ m_on_complete_handler request = Some handler.

End Handback.

(** ** The executors of a running loop and where they are *)

Module Liveness.
Import EventLoop Footprint.

(** Where the executors are, between two callbacks ([busy = None],
    [rest = []]) and inside one: [rest] are the grabbed executors the drain
    has not come to yet, [busy] the executor a completion is under way for.
    An executor is alive exactly when it is queued, in the multi handle or
    busy, and it is only one of these; queued executors are as
    [StartRequest] made them and not in the timer index; an executor's
    iterator designates a node of the index; an executor that has not
    delivered still owns its request; and an executor in the multi handle
    that has not delivered has its iterator when its request has a handler
    and a budget. *)
Record linked (busy : option nat) (rest : list nat) (s : Loop) : Prop :=
  mkLinked {
  lk_live :
    ∀ id, is_Some (heap s !! id)
          ↔ id ∈ m_pending_requests s ∨ id ∈ rest ∨ id ∈ m_cmh s
            ∨ busy = Some id;
  lk_below : ∀ id, is_Some (heap s !! id) → (id < next_executor s)%nat;
  lk_nodup : NoDup (m_pending_requests s ++ rest);
  lk_apart :
    ∀ id, id ∈ m_pending_requests s ∨ id ∈ rest →
          (id ∉ m_cmh s) ∧ busy ≠ Some id;
  lk_busy : ∀ id, busy = Some id → id ∉ m_cmh s;
  lk_queued :
    ∀ id, id ∈ m_pending_requests s ∨ id ∈ rest → fresh_executor s id;
  lk_index :
    ∀ entry, entry ∈ m_timesup s →
      (entry.2 < next_executor s)%nat
      ∧ (entry.2 ∉ m_pending_requests s) ∧ (entry.2 ∉ rest);
  lk_iterator :
    ∀ id e k, heap s !! id = Some e → m_timesup_iterator e = Some k →
              (k, id) ∈ m_timesup s;
  lk_request :
    ∀ id e, heap s !! id = Some e →
            m_on_complete_callback_called e = false →
            is_Some (m_request_async e);
  lk_armed :
    ∀ id e request,
      id ∈ m_cmh s → heap s !! id = Some e →
      m_on_complete_callback_called e = false →
      m_request_async e = Some request →
      is_Some (m_on_complete_handler request) →
      is_Some (Request.Timesup request) →
      is_Some (m_timesup_iterator e)
}.

(** The messages of one [curl_multi_info_read] round name handles of the
    multi handle, each once. *)
Definition done_messages (msgs : list CurlMsg) (s : Loop) : Prop :=
  NoDup msgs.*1 ∧ ∀ id, id ∈ msgs.*1 → id ∈ m_cmh s.

End Liveness.

(** ** The order of the timer index *)

Module DrainOrder.
Import EventLoop.

(** The order of the timer index: by key, and for equal keys by executor;
    executors are numbered in the order in which they were accepted. *)
Definition index_before (x y : Z * nat) : Prop :=
  x.1 < y.1 ∨ (x.1 = y.1 ∧ (x.2 < y.2)%nat).

(** The index is in that order; the executors still to be drained ([rest],
    then the pending queue) are in the order of their numbers, and every
    executor of the index comes before them. *)
Record drain_order (rest : list nat) (s : Loop) : Prop := mkDrainOrder {
  do_sorted : StronglySorted index_before (m_timesup s);
  do_queue :
    StronglySorted (λ x y : nat, (x < y)%nat) (rest ++ m_pending_requests s);
  do_index :
    ∀ entry id, entry ∈ m_timesup s → id ∈ rest ++ m_pending_requests s →
                (entry.2 < id)%nat;
  do_below :
    ∀ id, id ∈ rest ++ m_pending_requests s → (id < next_executor s)%nat;
  do_index_below :
    ∀ entry, entry ∈ m_timesup s → (entry.2 < next_executor s)%nat
}.

End DrainOrder.

(** ** More scenarios *)

Module Runs.
Import Scenario.

(** A socket is polled for reading and removed; libuv ends the close of its
    handle; a second socket is polled for writing. *)
Definition poll_run : list SocketContexts.SocketEvent :=
  [SocketContexts.SocketAction 5 CURL_POLL_IN].

Definition after_poll : SocketContexts.Sockets :=
  default SocketContexts.new
    (SocketContexts.run poll_run SocketContexts.new).

Definition socket_run : list SocketContexts.SocketEvent :=
  poll_run
  ++ [SocketContexts.SocketAction 5 CURL_POLL_REMOVE;
      SocketContexts.CloseDone 0;
      SocketContexts.SocketAction 6 CURL_POLL_OUT].

Definition after_socket_run : SocketContexts.Sockets :=
  default SocketContexts.new
    (SocketContexts.run socket_run SocketContexts.new).

(** No handle of the loop is closed. *)
Definition all_open : Closing.CloseFlags :=
  Closing.mkCloseFlags false false false.

Import EventLoop.

(** [Stop] is called with one request in the multi handle; then a request
    is submitted and the transport finishes the first one. *)
Definition stop_run : list Action := accept_run ++ [CallStop].

Definition after_stop : Loop := default new (run (H := ops) stop_run new).

Definition late_run : list Action :=
  [Submit plain; Io (CurlPerform 120 [(0%nat, 0)])].

Definition after_late : Loop :=
  default new (run (H := ops) late_run after_stop).

(** Two requests with the same budget are drained at the same time. *)
Definition tie_run : list Action :=
  [Submit with_budget; Submit with_budget; Io (RequestsAccept 100 [] [])].

Definition after_tie : Loop := default new (run (H := ops) tie_run new).

(** The response the handler of [timesup_run] is called with. *)
Definition timesup_response : Response :=
  {| m_lift_status := TIMESUP; m_status_code := 0; m_total_time := 50;
     m_num_redirects := 0; m_response_data := "" |}.

(** A request with a budget and no handler is accepted and drained at loop
    time 100. *)
Definition no_handler_accept_run : list Action :=
  [Submit no_handler; Io (RequestsAccept 100 [] [])].

Definition after_no_handler_accept : Loop :=
  default new (run (H := ops) no_handler_accept_run new).

(** A request with a handler and a budget of 200 ms. *)
Definition long_budget : Request :=
  Request.SetTimesup (Request_new "http://d.test/" None (Some 9%nat))
    (Some 200).

(** Three requests with budgets, the second one without a handler, are
    drained at loop time 100, and the time's-up timer fires at 160. *)
Definition mixed_run : list Action :=
  [Submit with_budget; Submit no_handler; Submit long_budget;
   Io (RequestsAccept 100 [] [])].

Definition after_mixed : Loop := default new (run (H := ops) mixed_run new).

Definition after_mixed_fired : Loop :=
  default new (io_step (H := ops) (TimesupFired 160) after_mixed).

End Runs.

(** ** Tactics *)

(** [FollowRedirects] writes the two redirect members only. *)
Ltac redirects_frame :=
  unfold Request.FollowRedirects_call, Request.FollowRedirects;
  repeat case_match; simpl; done.

(** Destructs the computation a hypothesis [_ = Some _] runs, one bind or
    branch at a time. *)
Ltac run_in H :=
  repeat match type of H with
  | (?m ≫= _) = Some _ =>
      let E := fresh "E" in
      destruct m eqn:E; simpl in H; [|discriminate H]
  | (let '(_, _) := ?p in _) = Some _ => destruct p
  | (match ?m with Some _ => _ | None => _ end) = Some _ =>
      let E := fresh "E" in destruct m eqn:E; simpl in H; try discriminate H
  | (if ?b then _ else _) = Some _ =>
      let E := fresh "E" in destruct b eqn:E; simpl in H; try discriminate H
  end.

(** * Properties of Request *)

Section RequestProps.

Implicit Types (r : Request) (c : Request.Call) (cs : list Request.Call).

Lemma calls_snoc r cs c :
  Request.calls r (cs ++ [c]) = Request.call_caught (Request.calls r cs) c.
Proof. unfold Request.calls. by rewrite foldl_app. Qed.

Lemma calls_app r cs1 cs2 :
  Request.calls r (cs1 ++ cs2) = Request.calls (Request.calls r cs1) cs2.
Proof. unfold Request.calls. by rewrite foldl_app. Qed.

(** No setter clears either flag. *)
Lemma call_caught_data_set r c :
  m_request_data_set r = true →
  m_request_data_set (Request.call_caught r c) = true.
Proof.
  intros Hset. unfold Request.call_caught.
  destruct c; simpl; try done.
  - redirects_frame.
  - unfold Request.Data. by destruct (m_mime_fields_set r).
  - unfold Request.MimeField. by rewrite Hset.
Qed.

Lemma call_caught_mime_set r c :
  m_mime_fields_set r = true →
  m_mime_fields_set (Request.call_caught r c) = true.
Proof.
  intros Hset. unfold Request.call_caught.
  destruct c; simpl; try done.
  - redirects_frame.
  - unfold Request.Data. by rewrite Hset.
  - unfold Request.MimeField. by destruct (m_request_data_set r).
Qed.

Lemma calls_data_set r cs :
  m_request_data_set r = true →
  m_request_data_set (Request.calls r cs) = true.
Proof.
  revert r. induction cs as [|c cs IH]; intros r Hset; [done|].
  apply IH. by apply call_caught_data_set.
Qed.

Lemma calls_mime_set r cs :
  m_mime_fields_set r = true →
  m_mime_fields_set (Request.calls r cs) = true.
Proof.
  revert r. induction cs as [|c cs IH]; intros r Hset; [done|].
  apply IH. by apply call_caught_mime_set.
Qed.

(** A call of [Data] or [MimeField] that returned has left its flag set. *)
Lemma returned_data_set r0 cs d :
  Request.returned r0 cs (Request.CallData d) →
  m_request_data_set (Request.calls r0 cs) = true.
Proof.
  intros (pre & post & -> & Hok).
  rewrite calls_app. simpl. apply calls_data_set.
  unfold Request.call_caught. simpl in *.
  unfold Request.Data in *. by destruct (m_mime_fields_set _).
Qed.

Lemma returned_mime_set r0 cs f :
  Request.returned r0 cs (Request.CallMimeField f) →
  m_mime_fields_set (Request.calls r0 cs) = true.
Proof.
  intros (pre & post & -> & Hok).
  rewrite calls_app. simpl. apply calls_mime_set.
  unfold Request.call_caught. simpl in *.
  unfold Request.MimeField in *. by destruct (m_request_data_set _).
Qed.

Lemma body_xor_mime_new url timeout h :
  Request.body_xor_mime (Request_new url timeout h).
Proof. repeat split; simpl; try done. by intros []. Qed.

Lemma body_xor_mime_call r c :
  Request.body_xor_mime r → Request.body_xor_mime (Request.call_caught r c).
Proof.
  intros Hr. pose proof Hr as (Hd & Hm & Hx). unfold Request.call_caught.
  destruct c; simpl; try exact Hr.
  - unfold Request.FollowRedirects_call, Request.FollowRedirects.
    repeat case_match; exact Hr.
  - unfold Request.Data. destruct (m_mime_fields_set r) eqn:E.
    + exact Hr.
    + repeat split; simpl; try done. by intros [].
  - unfold Request.MimeField. destruct (m_request_data_set r) eqn:E.
    + exact Hr.
    + repeat split; simpl; try done. by intros [].
Qed.

Lemma body_xor_mime_calls r cs :
  Request.body_xor_mime r → Request.body_xor_mime (Request.calls r cs).
Proof.
  revert r. induction cs as [|c cs IH]; intros r Hr; [done|].
  apply IH. by apply body_xor_mime_call.
Qed.

(** C2: on a request built by any sequence of setter calls, [Data] throws
    [std::logic_error] once a [MimeField] call has returned (equally, once
    the list of MIME fields is not empty), [MimeField] throws once a [Data]
    call has returned (so also whenever the body is not empty), and the body
    and the MIME fields are never both non-empty. *)
Theorem body_and_mime_fields_exclusive
    (url : string) (timeout : option Z) (h : option OnCompleteHandlerType)
    (cs : list Request.Call) (d : string) (f : MimeField) :
  let r0 := Request_new url timeout h in
  let r := Request.calls r0 cs in
  ((∃ f', Request.returned r0 cs (Request.CallMimeField f')) →
     Request.Data r d = Throw Request.data_after_mime)
  ∧ (m_mime_fields r ≠ [] → Request.Data r d = Throw Request.data_after_mime)
  ∧ ((∃ d', Request.returned r0 cs (Request.CallData d')) →
     Request.MimeField r f = Throw Request.mime_after_data)
  ∧ (m_request_data r ≠ "" →
     Request.MimeField r f = Throw Request.mime_after_data)
  ∧ ¬ (m_request_data r ≠ "" ∧ m_mime_fields r ≠ []).
Proof.
  intros r0 r.
  destruct (body_xor_mime_calls r0 cs (body_xor_mime_new url timeout h))
    as (Hd & Hm & Hx).
  fold r in Hd, Hm, Hx.
  assert (Hdata : m_mime_fields_set r = true →
                  Request.Data r d = Throw Request.data_after_mime).
  { intros E. unfold Request.Data. by rewrite E. }
  assert (Hmime : m_request_data_set r = true →
                  Request.MimeField r f = Throw Request.mime_after_data).
  { intros E. unfold Request.MimeField. by rewrite E. }
  repeat split.
  - intros [f' Hret]. apply Hdata. by eapply returned_mime_set.
  - intros Hne. by apply Hdata, Hm.
  - intros [d' Hret]. apply Hmime. by eapply returned_data_set.
  - intros Hne. by apply Hmime, Hd.
  - intros [Hb Hf]. apply Hx. split; [by apply Hd | by apply Hm].
Qed.

(** C8: [FollowRedirects(true, max)] sets the follow flag and records -1 for
    an absent or negative [max], 0 for 0 and [max] itself when positive;
    [FollowRedirects(false, max)] sets the follow flag to false and leaves
    the recorded count as it was: it does not reset it.  No other member
    changes. *)
Theorem FollowRedirects_records (r : Request) (max : option Z) :
  let recorded :=
    match max with
    | None => -1
    | Some m => if m <? 0 then -1 else if m =? 0 then 0 else m
    end in
  let on := Request.FollowRedirects_call r true max in
  let off := Request.FollowRedirects_call r false max in
  m_follow_redirects on = true
  ∧ m_max_redirects on = recorded
  ∧ on = Request.with_redirects true recorded r
  ∧ m_follow_redirects off = false
  ∧ off = Request.with_redirects false (m_max_redirects r) r.
Proof.
  assert (Hon : Request.FollowRedirects_call r true max
                = Request.with_redirects true
                    match max with
                    | None => -1
                    | Some m => if m <? 0 then -1 else if m =? 0 then 0 else m
                    end r).
  { unfold Request.FollowRedirects_call, Request.FollowRedirects.
    destruct max as [m|]; simpl; [|done].
    destruct (Z.leb_spec (-1) m), (Z.ltb_spec m 0), (Z.eqb_spec m 0);
      try lia; try done.
    - by replace m with (-1) by lia.
    - by subst. }
  intros recorded on off. unfold on, off, recorded. rewrite Hon.
  by repeat split.
Qed.

(** C9: [Data] marks the body as set whatever the bytes are: after
    [Data(d)] on a request without MIME fields, with any calls in between,
    every [MimeField] call throws; and after [Data("")] the stored body is
    empty, the MIME list is unchanged, and [MimeField] still throws. *)
Theorem Data_marks_body_set
    (r : Request) (d : string) (cs : list Request.Call) (f : MimeField) :
  m_mime_fields_set r = false →
  (∃ r', Request.Data r d = Ok r'
         ∧ m_request_data_set r' = true
         ∧ m_request_data r' = d
         ∧ Request.MimeField (Request.calls r' cs) f
           = Throw Request.mime_after_data)
  ∧ (∃ r0, Request.Data r "" = Ok r0
           ∧ m_request_data r0 = ""
           ∧ m_mime_fields r0 = m_mime_fields r
           ∧ Request.MimeField (Request.calls r0 cs) f
             = Throw Request.mime_after_data).
Proof.
  intros Hno.
  assert (Hgen : ∀ d0, ∃ r', Request.Data r d0 = Ok r'
         ∧ m_request_data_set r' = true
         ∧ m_request_data r' = d0
         ∧ m_mime_fields r' = m_mime_fields r
         ∧ Request.MimeField (Request.calls r' cs) f
           = Throw Request.mime_after_data).
  { intros d0. unfold Request.Data. rewrite Hno.
    eexists. split; [reflexivity|]. simpl. repeat split.
    unfold Request.MimeField. by rewrite calls_data_set. }
  split.
  - destruct (Hgen d) as (r' & ? & ? & ? & ? & ?). by exists r'.
  - destruct (Hgen "") as (r' & ? & ? & ? & ? & ?). by exists r'.
Qed.

Lemma Data_marks_body_set_witness :
  (∃ r', Request.Data Scenario.plain "" = Ok r'
         ∧ m_request_data_set r' = true
         ∧ m_request_data r' = ""
         ∧ Request.MimeField
             (Request.calls r' [Request.CallHeader "Expect" ""])
             Scenario.form_field
           = Throw Request.mime_after_data)
  ∧ (∃ r0, Request.Data Scenario.plain "" = Ok r0
           ∧ m_request_data r0 = ""
           ∧ m_mime_fields r0 = m_mime_fields Scenario.plain
           ∧ Request.MimeField
               (Request.calls r0 [Request.CallHeader "Expect" ""])
               Scenario.form_field
             = Throw Request.mime_after_data).
Proof.
  apply (Data_marks_body_set Scenario.plain ""
           [Request.CallHeader "Expect" ""] Scenario.form_field).
  reflexivity.
Defined.

End RequestProps.

(** * Properties of the event loop *)

Section LoopProps.
Context `{ExecutorOps}.
Import EventLoop Delivery.
Implicit Types (s : Loop) (id : nat) (now : Z).

(** ** The view and its steps *)

Lemma filter_core_emit evs s :
  Forall (λ ev, core_event ev = false) evs →
  view (emit evs s) = view s.
Proof.
  intros Hevs. unfold view, emit; simpl. f_equal.
  rewrite filter_app.
  assert (filter (λ ev, core_event ev = true) evs = []) as ->.
  { induction Hevs as [|ev evs Hev _ IH]; [done|].
    rewrite filter_cons_False; [done | congruence]. }
  by rewrite app_nil_r.
Qed.

Lemma view_set_executor_same id e e' s :
  heap s !! id = Some e → exec_core e' = exec_core e →
  view (set_executor id e' s) = view s.
Proof.
  intros Hid Hcore. unfold view, set_executor; simpl. f_equal.
  rewrite fmap_insert, Hcore. apply insert_id. by rewrite lookup_fmap, Hid.
Qed.

Lemma view_updateTimesup now s : view (updateTimesup now s) = view s.
Proof. unfold updateTimesup. by repeat case_match. Qed.

Lemma view_addTimesup now id s s' :
  addTimesup now id s = Some s' → view s' = view s.
Proof.
  unfold addTimesup. intros Hadd.
  destruct (heap s !! id) as [e|] eqn:He; simpl in Hadd; [|done].
  destruct (m_request_async e) as [r|]; simpl in Hadd; [|done].
  destruct (Request.Timesup r), (m_timesup_iterator e); simplify_eq; try done.
  rewrite view_updateTimesup, filter_core_emit by (by repeat constructor).
  by erewrite (view_set_executor_same id e).
Qed.

Lemma view_removeTimesup now id s s' pos :
  removeTimesup now id s = Some (s', pos) → view s' = view s.
Proof.
  unfold removeTimesup. intros Hrm.
  destruct (heap s !! id) as [e|] eqn:He; simpl in Hrm; [|done].
  destruct (m_timesup_iterator e) as [k|]; [|by simplify_eq].
  destruct (multimap_position k id (m_timesup s)); simpl in Hrm; [|done].
  simplify_eq.
  rewrite view_updateTimesup, filter_core_emit by (by repeat constructor).
  by erewrite (view_set_executor_same id e).
Qed.

Lemma view_set_executor id e' s :
  view (set_executor id e' s)
  = mkView (v_count (view s)) (v_next (view s))
      (<[id := exec_core e']> (v_heap (view s))) (v_trace (view s)).
Proof. unfold view, set_executor; simpl. by rewrite fmap_insert. Qed.

Lemma view_emit_delivery id h r resp s :
  view (emit [EvOnComplete id h r resp] s)
  = mkView (v_count (view s)) (v_next (view s)) (v_heap (view s))
      (v_trace (view s) ++ [EvOnComplete id h r resp]).
Proof. unfold view, emit; simpl. by rewrite filter_app. Qed.

Lemma view_lookup s id :
  v_heap (view s) !! id = exec_core <$> heap s !! id.
Proof. unfold view; simpl. by rewrite lookup_fmap. Qed.

Lemma vstep_completeRequestTimesup id s s' :
  completeRequestTimesup id s = Some s' →
  view s' = view s ∨ vstep (view s) (view s').
Proof.
  unfold completeRequestTimesup. intros Hc.
  destruct (heap s !! id) as [e|] eqn:He; simpl in Hc; [|done].
  destruct (m_on_complete_callback_called e) eqn:Hflag; [left; by simplify_eq|].
  destruct (m_request_async e) as [r|] eqn:Hr; simpl in Hc; [|done].
  destruct (m_on_complete_handler r) as [h|] eqn:Hh; [|left; by simplify_eq].
  destruct (Request.Timesup r) as [b|]; simpl in Hc; [|done].
  simplify_eq. right.
  rewrite view_emit_delivery, view_set_executor; simpl.
  eapply (vs_deliver (view s)); [|done].
  rewrite view_lookup, He. simpl. unfold exec_core. by rewrite Hr, Hflag.
Qed.

Lemma vstep_deliverNormal now id status s s' :
  deliverNormal now id status s = Some s' →
  (view s' = view s ∨ vstep (view s) (view s'))
  ∧ ∃ c, v_heap (view s') !! id = Some c ∧ done_with c.
Proof.
  unfold deliverNormal. intros Hc.
  destruct (heap s !! id) as [e|] eqn:He; simpl in Hc; [|done].
  destruct (m_on_complete_callback_called e) eqn:Hflag.
  { simplify_eq. split; [by left|]. exists (exec_core e).
    rewrite view_lookup, He. split; [done|]. by left. }
  destruct (m_request_async e) as [r|] eqn:Hr; simpl in Hc; [|done].
  destruct (m_on_complete_handler r) as [h|] eqn:Hh.
  2:{ simplify_eq. split; [by left|]. exists (exec_core e).
      rewrite view_lookup, He. split; [done|]. right. exists r.
      unfold exec_core. by rewrite Hr, Hflag. }
  match type of Hc with
  | context [removeTimesup now id ?s1] =>
      destruct (removeTimesup now id s1) as [[s2 pos]|] eqn:Hrm
  end; simpl in Hc; [|done].
  destruct (heap s2 !! id) as [e2|] eqn:He2; simpl in Hc; [|done].
  simplify_eq.
  apply view_removeTimesup in Hrm. rewrite view_set_executor in Hrm.
  assert (exec_core (with_request_moved e2) = (None, true)) as Hmoved.
  { pose proof (view_lookup s2 id) as Hl.
    rewrite Hrm, He2 in Hl; simpl in Hl. rewrite lookup_insert_eq in Hl.
    unfold exec_core in *; simpl in *.
    injection Hl as _ Hcalled. by rewrite <- Hcalled. }
  rewrite view_emit_delivery, view_set_executor, Hrm, Hmoved; simpl.
  rewrite insert_insert_eq. split.
  - right. eapply (vs_deliver (view s)); [|done].
    rewrite view_lookup, He. simpl. unfold exec_core. by rewrite Hr, Hflag.
  - eexists. rewrite lookup_insert_eq. split; [done|]. by left.
Qed.

Lemma vstep_completeRequestNormal now id status s s' :
  completeRequestNormal now id status s = Some s' →
  rtc vstep (view s) (view s').
Proof.
  unfold completeRequestNormal. intros Hc.
  destruct (deliverNormal now id status s) as [s1|] eqn:Hd; simpl in Hc;
    [|done].
  simplify_eq.
  apply vstep_deliverNormal in Hd as [Hstep (c & Hc & Hdone)].
  assert (rtc vstep (view s) (view s1)) as Hrtc.
  { destruct Hstep as [->|Hstep]; [done | by apply rtc_once]. }
  eapply rtc_r; [exact Hrtc|].
  assert (view (emit [EvExecutorDestroyed id]
             (set_heap (delete id (heap s1))
                (set_active_request_count
                   (wrap64 (m_active_request_count s1 - 1)) s1)))
          = mkView (wrap64 (v_count (view s1) - 1)) (v_next (view s1))
              (delete id (v_heap (view s1))) (v_trace (view s1))) as ->.
  { unfold view, emit, set_heap, set_active_request_count; simpl.
    rewrite fmap_delete, filter_app. simpl. by rewrite app_nil_r. }
  by eapply vs_destroy.
Qed.

Lemma vstep_checkActions now msgs s s' :
  checkActions now msgs s = Some s' → rtc vstep (view s) (view s').
Proof.
  revert s. induction msgs as [|[id code] msgs IH]; intros s Hc; simpl in Hc.
  { by simplify_eq. }
  case_bool_decide; [|done].
  match type of Hc with
  | context [completeRequestNormal now id ?st ?s1] =>
      destruct (completeRequestNormal now id st s1) as [s2|] eqn:Hn
  end; simpl in Hc; [|done].
  apply vstep_completeRequestNormal in Hn.
  etrans; [|by apply IH].
  rewrite filter_core_emit in Hn by (by repeat constructor).
  by change (view (set_cmh ?c ?s0)) with (view s0) in Hn.
Qed.

Lemma vstep_accept_loop now codes completions grabbed s s' :
  accept_loop now codes completions grabbed s = Some s' →
  rtc vstep (view s) (view s').
Proof.
  revert codes completions s.
  induction grabbed as [|id grabbed IH]; intros codes completions s Hc;
    simpl in Hc.
  { by simplify_eq. }
  destruct (addTimesup now id s) as [s1|] eqn:Ha; simpl in Hc; [|done].
  apply view_addTimesup in Ha.
  match type of Hc with
  | (?m ≫= _) = _ => destruct m as [s3|] eqn:Hm
  end; simpl in Hc; [|done].
  etrans; [|by eapply IH]. rewrite <- Ha.
  case_bool_decide.
  - apply vstep_completeRequestNormal in Hm.
    by rewrite filter_core_emit in Hm by (by repeat constructor).
  - apply vstep_checkActions in Hm.
    change (view (set_cmh ?c ?s0)) with (view s0) in Hm.
    by rewrite filter_core_emit in Hm by (by repeat constructor).
Qed.

Lemma vstep_timesup_loop fuel now pos s s' :
  timesup_loop fuel now pos s = Some s' → rtc vstep (view s) (view s').
Proof.
  revert pos s. induction fuel as [|fuel IH]; intros pos s Hc; simpl in Hc.
  { done. }
  destruct (m_timesup s !! pos) as [[first id]|]; [|by simplify_eq].
  destruct (now <? first); [by simplify_eq|].
  destruct (completeRequestTimesup id s) as [s1|] eqn:Ht; simpl in Hc;
    [|done].
  destruct (removeTimesup now id s1) as [[s2 next]|] eqn:Hr; simpl in Hc;
    [|done].
  apply vstep_completeRequestTimesup in Ht.
  apply view_removeTimesup in Hr.
  etrans; [|by eapply IH]. rewrite Hr.
  destruct Ht as [->|Ht]; [done | by apply rtc_once].
Qed.

Lemma vstep_on_uv_timesup_callback now s s' :
  on_uv_timesup_callback now s = Some s' → rtc vstep (view s) (view s').
Proof.
  unfold on_uv_timesup_callback. intros Hc.
  destruct (m_timesup s); [by simplify_eq|].
  by apply vstep_timesup_loop in Hc.
Qed.

Lemma vstep_io_step ev s s' :
  io_step ev s = Some s' → rtc vstep (view s) (view s').
Proof.
  destruct ev as [now codes completions|now msgs|now]; simpl; intros Hc.
  - unfold on_uv_requests_accept_async in Hc.
    match type of Hc with
    | (?m ≫= _) = _ => destruct m as [s2|] eqn:Hm
    end; simpl in Hc; [|done].
    simplify_eq. by apply vstep_accept_loop in Hm.
  - by eapply vstep_checkActions.
  - destruct (m_timesup_timer s) as [[started timeout]|]; [|done].
    destruct (started + timeout <=? now); [|done].
    by apply vstep_on_uv_timesup_callback in Hc.
Qed.

Lemma vstep_step a s s' :
  step a s = Some s' → rtc vstep (view s) (view s').
Proof.
  destruct a as [request| |ev]; simpl; intros Hc.
  - simplify_eq. unfold StartRequest.
    destruct (m_is_stopping s); simpl; [done|].
    apply rtc_once.
    assert (view (emit [EvAccepted (next_executor s) request; EvAsyncSend]
       (set_queues (m_pending_requests s ++ [next_executor s]) (m_grabbed_requests s)
          (set_next_executor (S (next_executor s))
             (set_executor (next_executor s) (Executor_make request (next_executor s))
                (set_active_request_count
                   (wrap64 (m_active_request_count s + 1)) s)))))
       = mkView (wrap64 (v_count (view s) + 1)) (S (v_next (view s)))
         (<[v_next (view s) := (Some request, false)]> (v_heap (view s)))
         (v_trace (view s) ++ [EvAccepted (v_next (view s)) request])) as ->.
    { unfold view, emit, set_queues, set_next_executor, set_executor,
        set_heap, set_active_request_count; simpl.
      by rewrite fmap_insert, filter_app. }
    apply vs_accept.
  - by simplify_eq.
  - by eapply vstep_io_step.
Qed.

Lemma vstep_run actions s s' :
  run actions s = Some s' → rtc vstep (view s) (view s').
Proof.
  revert s. induction actions as [|a actions IH]; intros s Hc; simpl in Hc.
  { by simplify_eq. }
  destruct (step a s) as [s1|] eqn:Hs; simpl in Hc; [|done].
  etrans; [by eapply vstep_step | by apply IH].
Qed.


Lemma deliveries_app id tr1 tr2 :
  deliveries id (tr1 ++ tr2) = (deliveries id tr1 + deliveries id tr2)%nat.
Proof. unfold deliveries. by rewrite filter_app, length_app. Qed.

Lemma deliveries_snoc_accepted id tr id' r :
  deliveries id (tr ++ [EvAccepted id' r]) = deliveries id tr.
Proof. rewrite deliveries_app. unfold deliveries at 2; simpl. lia. Qed.

Lemma deliveries_snoc_delivery id tr id' h r resp :
  deliveries id (tr ++ [EvOnComplete id' h r resp])
  = (deliveries id tr + if decide (id' = id) then 1 else 0)%nat.
Proof.
  rewrite deliveries_app. f_equal.
  unfold deliveries; simpl. destruct (decide (id' = id)) as [->|Hne].
  - by rewrite filter_cons_True by (simpl; by rewrite bool_decide_eq_true).
  - by rewrite filter_cons_False
      by (simpl; rewrite bool_decide_eq_true; congruence).
Qed.

Lemma deliveries_view id s :
  deliveries id (v_trace (view s)) = deliveries id (trace s).
Proof.
  unfold view, deliveries; simpl. f_equal.
  induction (trace s) as [|ev tr IH]; [done|].
  rewrite (filter_cons (λ ev, core_event ev = true)).
  rewrite (filter_cons (λ ev, is_delivery id ev = true) ev tr).
  destruct (decide (core_event ev = true)) as [Hcore|Hcore].
  - rewrite filter_cons. by rewrite IH.
  - rewrite decide_False; [done|]. by destruct ev.
Qed.

Lemma accepted_view id r s :
  EvAccepted id r ∈ v_trace (view s) ↔ EvAccepted id r ∈ trace s.
Proof.
  unfold view; simpl. rewrite list_elem_of_filter.
  split; [by intros [_ ?] | by intros ?].
Qed.

Lemma wrap64_succ n : wrap64 (wrap64 n + 1) = wrap64 (n + 1).
Proof. unfold wrap64. by rewrite Zplus_mod_idemp_l. Qed.

Lemma wrap64_pred n : wrap64 (wrap64 n - 1) = wrap64 (n - 1).
Proof. unfold wrap64. by rewrite Zminus_mod_idemp_l. Qed.

Lemma Inv_new : Inv (view new).
Proof.
  assert (v_heap (view new) = ∅) as Hheap by apply fmap_empty.
  split; rewrite ?Hheap; simpl.
  - done.
  - rewrite map_size_empty. lia.
  - intros id [c Hc]. by rewrite lookup_empty in Hc.
  - intros id r Hin. by apply elem_of_nil in Hin.
  - intros id. unfold deliveries. simpl. lia.
  - intros id c Hc. by rewrite lookup_empty in Hc.
  - intros id r Hin. by apply elem_of_nil in Hin.
Qed.

Lemma Inv_vstep v v' : Inv v → vstep v v' → Inv v'.
Proof.
  intros [Hcount Hsize Hfresh Hacc Hdf Hlive Hdel] Hstep.
  destruct Hstep as [v request|v id request handler response Hid Hh
                    |v id c Hid Hdone].
  - (* accept *)
    assert (v_heap v !! v_next v = None) as Hnone.
    { destruct (v_heap v !! v_next v) eqn:E; [|done].
      specialize (Hfresh (v_next v) (mk_is_Some _ _ E)). lia. }
    assert (deliveries (v_next v) (v_trace v) = 0%nat) as Hzero.
    { destruct (deliveries (v_next v) (v_trace v)) eqn:E; [done|].
      specialize (Hdf (v_next v)). lia. }
    split; simpl.
    + rewrite map_size_insert_None by done.
      rewrite Hcount, wrap64_succ. f_equal. lia.
    + rewrite map_size_insert_None by done. lia.
    + intros id [c Hc]. destruct (decide (v_next v = id)) as [<-|Hne]; [lia|].
      rewrite lookup_insert_ne in Hc by done.
      specialize (Hfresh id (mk_is_Some _ _ Hc)). lia.
    + intros id r Hin. apply elem_of_app in Hin as [Hin|Hin].
      * specialize (Hacc _ _ Hin). lia.
      * apply list_elem_of_singleton in Hin. simplify_eq. lia.
    + intros id. rewrite deliveries_snoc_accepted.
      intros Hpos. specialize (Hdf id Hpos). lia.
    + intros id c Hc. destruct (decide (v_next v = id)) as [<-|Hne].
      * exists request. apply elem_of_app. right. by apply list_elem_of_singleton.
      * rewrite lookup_insert_ne in Hc by done.
        destruct (Hlive _ _ Hc) as [r Hr]. exists r.
        apply elem_of_app. by left.
    + intros id r Hin. rewrite deliveries_snoc_accepted.
      apply elem_of_app in Hin as [Hin|Hin].
      * specialize (Hacc _ _ Hin) as Hlt.
        rewrite lookup_insert_ne by lia. by apply Hdel.
      * apply list_elem_of_singleton in Hin. simplify_eq.
        by rewrite lookup_insert_eq.
  - (* deliver *)
    assert (size (<[id:=(None, true)]> (v_heap v)) = size (v_heap v)) as Hsz.
    { rewrite <- (insert_delete_eq (v_heap v) id (None, true)).
      rewrite map_size_insert_None by apply lookup_delete_eq.
      rewrite <- (insert_delete_id (v_heap v) id (Some request, false)) at 2
        by done.
      by rewrite map_size_insert_None by apply lookup_delete_eq. }
    pose proof (λ id', deliveries_snoc_delivery id' (v_trace v) id handler
                         request response) as Hd.
    split; simpl.
    + by rewrite Hsz.
    + by rewrite Hsz.
    + intros id' [c Hc]. destruct (decide (id = id')) as [<-|Hne].
      * apply Hfresh. by eexists.
      * rewrite lookup_insert_ne in Hc by done. apply Hfresh. by eexists.
    + intros id' r Hin. apply elem_of_app in Hin as [Hin|Hin].
      * by eapply Hacc.
      * by apply list_elem_of_singleton in Hin.
    + intros id'. rewrite Hd. destruct (decide (id = id')) as [<-|Hne].
      * intros _. apply Hfresh. by eexists.
      * rewrite Nat.add_0_r. apply Hdf.
    + intros id' c Hc. destruct (decide (id = id')) as [<-|Hne].
      * destruct (Hlive _ _ Hid) as [r Hr]. exists r.
        apply elem_of_app. by left.
      * rewrite lookup_insert_ne in Hc by done.
        destruct (Hlive _ _ Hc) as [r Hr]. exists r.
        apply elem_of_app. by left.
    + intros id' r Hin. rewrite Hd.
      apply elem_of_app in Hin as [Hin|Hin];
        [|by apply list_elem_of_singleton in Hin].
      specialize (Hdel _ _ Hin).
      destruct (decide (id = id')) as [<-|Hne].
      * rewrite lookup_insert_eq. rewrite Hid in Hdel.
        destruct Hdel as [-> ->]. split; [done|]. by rewrite Hh.
      * rewrite lookup_insert_ne, Nat.add_0_r by done. exact Hdel.
  - (* destroy *)
    assert (size (v_heap v) = S (size (delete id (v_heap v)))) as Hsz.
    { rewrite <- (insert_delete_id (v_heap v) id c) at 1 by done.
      by rewrite map_size_insert_None by apply lookup_delete_eq. }
    split; simpl.
    + rewrite Hcount, wrap64_pred. f_equal. lia.
    + lia.
    + intros id' [c' Hc']. apply lookup_delete_Some in Hc' as [_ Hc'].
      apply Hfresh. by eexists.
    + done.
    + done.
    + intros id' c' Hc'. apply lookup_delete_Some in Hc' as [_ Hc'].
      by eapply Hlive.
    + intros id' r Hin. specialize (Hdel _ _ Hin).
      destruct (decide (id = id')) as [<-|Hne].
      * rewrite lookup_delete_eq. rewrite Hid in Hdel.
        destruct Hdone as [Hflag|(r' & -> & Hnone)].
        -- destruct c as [o b]. simpl in Hflag. subst b.
           assert (deliveries id (v_trace v) = 1%nat
                   ∧ m_on_complete_handler r ≠ None) as [-> Hsome]
             by (by destruct o).
           by destruct (m_on_complete_handler r).
        -- destruct Hdel as [-> ->]. by rewrite Hnone.
      * by rewrite lookup_delete_ne.
Qed.

Lemma Inv_rtc v v' : Inv v → rtc vstep v v' → Inv v'.
Proof. intros Hv Hsteps. induction Hsteps; eauto using Inv_vstep. Qed.

(** Every loop run from a new one satisfies the accounting invariant. *)
Lemma Inv_run actions s : run actions new = Some s → Inv (view s).
Proof. intros Hrun. eapply Inv_rtc; [apply Inv_new | by eapply vstep_run]. Qed.

(** ** Frames *)


Lemma io_frame_refl s : io_frame s s.
Proof. by repeat split. Qed.

Lemma io_frame_trans s1 s2 s3 : io_frame s1 s2 → io_frame s2 s3 → io_frame s1 s3.
Proof.
  intros (? & ? & ?) (? & ? & ?). repeat split; try congruence.
  by etrans.
Qed.

Lemma io_frame_updateTimesup now s : io_frame s (updateTimesup now s).
Proof. unfold updateTimesup. repeat case_match; by repeat split. Qed.

Lemma io_frame_emit evs s : io_frame s (emit evs s).
Proof. repeat split; simpl. by apply prefix_app_r. Qed.

Lemma io_frame_addTimesup now id s s' :
  addTimesup now id s = Some s' → io_frame s s'.
Proof.
  unfold addTimesup. intros Hc. run_in Hc; simplify_eq;
    try apply io_frame_refl.
  eapply io_frame_trans; [|apply io_frame_updateTimesup].
  eapply io_frame_trans; [|apply io_frame_emit]. by repeat split.
Qed.

Lemma io_frame_removeTimesup now id s s' pos :
  removeTimesup now id s = Some (s', pos) → io_frame s s'.
Proof.
  unfold removeTimesup. intros Hc. run_in Hc; simplify_eq;
    try apply io_frame_refl.
  eapply io_frame_trans; [|apply io_frame_updateTimesup].
  eapply io_frame_trans; [|apply io_frame_emit]. by repeat split.
Qed.

Lemma io_frame_completeRequestTimesup id s s' :
  completeRequestTimesup id s = Some s' → io_frame s s'.
Proof.
  unfold completeRequestTimesup. intros Hc. run_in Hc; simplify_eq;
    try apply io_frame_refl.
  eapply io_frame_trans; [|apply io_frame_emit]. by repeat split.
Qed.

Lemma io_frame_deliverNormal now id status s s' :
  deliverNormal now id status s = Some s' → io_frame s s'.
Proof.
  unfold deliverNormal. intros Hc. run_in Hc; simplify_eq;
    try apply io_frame_refl.
  eapply io_frame_trans; [|apply io_frame_emit].
  match goal with E : removeTimesup _ _ _ = Some _ |- _ =>
    apply io_frame_removeTimesup in E end.
  eapply io_frame_trans; [|eapply io_frame_trans; [eassumption|]];
    by repeat split.
Qed.

Lemma io_frame_completeRequestNormal now id status s s' :
  completeRequestNormal now id status s = Some s' → io_frame s s'.
Proof.
  unfold completeRequestNormal. intros Hc. run_in Hc; simplify_eq.
  eapply io_frame_trans; [by eapply io_frame_deliverNormal|].
  eapply io_frame_trans; [|apply io_frame_emit]. by repeat split.
Qed.

Lemma io_frame_checkActions now msgs s s' :
  checkActions now msgs s = Some s' → io_frame s s'.
Proof.
  revert s. induction msgs as [|[id code] msgs IH]; intros s Hc; simpl in Hc.
  { simplify_eq. apply io_frame_refl. }
  case_bool_decide; [|done]. run_in Hc.
  eapply io_frame_trans; [|by apply IH].
  match goal with E : completeRequestNormal _ _ _ _ = Some _ |- _ =>
    apply io_frame_completeRequestNormal in E end.
  eapply io_frame_trans; [|eassumption].
  eapply io_frame_trans; [|apply io_frame_emit]. by repeat split.
Qed.

Lemma io_frame_accept_loop now codes completions grabbed s s' :
  accept_loop now codes completions grabbed s = Some s' → io_frame s s'.
Proof.
  revert codes completions s.
  induction grabbed as [|id grabbed IH]; intros codes completions s Hc;
    simpl in Hc.
  { simplify_eq. apply io_frame_refl. }
  destruct (addTimesup now id s) as [s1|] eqn:Ha; simpl in Hc; [|done].
  apply io_frame_addTimesup in Ha.
  match type of Hc with
  | (?m ≫= _) = _ => destruct m as [s3|] eqn:Hm
  end; simpl in Hc; [|done].
  eapply io_frame_trans; [|by eapply IH].
  eapply io_frame_trans; [exact Ha|].
  case_bool_decide.
  - apply io_frame_completeRequestNormal in Hm.
    eapply io_frame_trans; [|exact Hm]. apply io_frame_emit.
  - apply io_frame_checkActions in Hm.
    eapply io_frame_trans; [|exact Hm].
    repeat split; simpl. by apply prefix_app_r.
Qed.

Lemma io_frame_timesup_loop fuel now pos s s' :
  timesup_loop fuel now pos s = Some s' → io_frame s s'.
Proof.
  revert pos s. induction fuel as [|fuel IH]; intros pos s Hc; simpl in Hc.
  { done. }
  destruct (m_timesup s !! pos) as [[first id]|];
    [|simplify_eq; apply io_frame_refl].
  destruct (now <? first); [simplify_eq; apply io_frame_refl|].
  destruct (completeRequestTimesup id s) as [s1|] eqn:Ht; simpl in Hc;
    [|done].
  destruct (removeTimesup now id s1) as [[s2 next]|] eqn:Hr; simpl in Hc;
    [|done].
  apply io_frame_completeRequestTimesup in Ht.
  apply io_frame_removeTimesup in Hr.
  eauto using io_frame_trans.
Qed.

Lemma io_frame_io_step ev s s' : io_step ev s = Some s' → io_frame s s'.
Proof.
  destruct ev as [now codes completions|now msgs|now]; simpl; intros Hc.
  - unfold on_uv_requests_accept_async in Hc.
    match type of Hc with
    | (?m ≫= _) = _ => destruct m as [s2|] eqn:Hm
    end; simpl in Hc; [|done].
    simplify_eq. apply io_frame_accept_loop in Hm.
    eapply io_frame_trans; [|eapply io_frame_trans; [exact Hm|]];
      by repeat split.
  - by eapply io_frame_checkActions.
  - destruct (m_timesup_timer s) as [[started timeout]|]; [|done].
    destruct (started + timeout <=? now); [|done].
    unfold on_uv_timesup_callback in Hc.
    destruct (m_timesup (set_timesup_timer None s)) eqn:E.
    + simplify_eq. by repeat split.
    + apply io_frame_timesup_loop in Hc.
      eapply io_frame_trans; [|exact Hc]. by repeat split.
Qed.


Lemma timesup_frame_refl s : timesup_frame s s.
Proof. by repeat split. Qed.

Lemma timesup_frame_trans s1 s2 s3 :
  timesup_frame s1 s2 → timesup_frame s2 s3 → timesup_frame s1 s3.
Proof.
  intros (? & ? & H12) (? & ? & H23). repeat split; try congruence.
  - intros ?. by apply H12, H23.
  - intros ?. by apply H23, H12.
Qed.

Lemma timesup_frame_set_executor id e e' s :
  heap s !! id = Some e → timesup_frame s (set_executor id e' s).
Proof.
  intros He. split; [done|]. split; [done|].
  intros id'. simpl. destruct (decide (id = id')) as [<-|Hne].
  - rewrite lookup_insert_eq, He. by split; eexists.
  - by rewrite lookup_insert_ne.
Qed.

Lemma timesup_frame_updateTimesup now s : timesup_frame s (updateTimesup now s).
Proof. unfold updateTimesup. repeat case_match; by repeat split. Qed.

Lemma timesup_frame_removeTimesup now id s s' pos :
  removeTimesup now id s = Some (s', pos) → timesup_frame s s'.
Proof.
  unfold removeTimesup. intros Hc. run_in Hc; simplify_eq;
    try apply timesup_frame_refl.
  eapply timesup_frame_trans; [|apply timesup_frame_updateTimesup].
  match goal with E : heap s !! id = Some ?e |- _ =>
    apply (timesup_frame_set_executor id e (with_timesup_iterator None e)) in E
  end.
  exact E.
Qed.

Lemma timesup_frame_completeRequestTimesup id s s' :
  completeRequestTimesup id s = Some s' → timesup_frame s s'.
Proof.
  unfold completeRequestTimesup. intros Hc. run_in Hc; simplify_eq;
    try apply timesup_frame_refl.
  match goal with E : heap s !! id = Some ?e |- timesup_frame _ (emit _ (set_executor _ ?e' _)) =>
    apply (timesup_frame_set_executor id e e') in E
  end.
  exact E.
Qed.

Lemma timesup_frame_timesup_loop fuel now pos s s' :
  timesup_loop fuel now pos s = Some s' → timesup_frame s s'.
Proof.
  revert pos s. induction fuel as [|fuel IH]; intros pos s Hc; simpl in Hc.
  { done. }
  destruct (m_timesup s !! pos) as [[first id]|];
    [|simplify_eq; apply timesup_frame_refl].
  destruct (now <? first); [simplify_eq; apply timesup_frame_refl|].
  destruct (completeRequestTimesup id s) as [s1|] eqn:Ht; simpl in Hc;
    [|done].
  destruct (removeTimesup now id s1) as [[s2 next]|] eqn:Hr; simpl in Hc;
    [|done].
  apply timesup_frame_completeRequestTimesup in Ht.
  apply timesup_frame_removeTimesup in Hr.
  eauto using timesup_frame_trans.
Qed.

Lemma timesup_frame_fired now s s' :
  io_step (TimesupFired now) s = Some s' → timesup_frame s s'.
Proof.
  simpl. intros Hc.
  destruct (m_timesup_timer s) as [[started timeout]|]; [|done].
  destruct (started + timeout <=? now); [|done].
  unfold on_uv_timesup_callback in Hc.
  destruct (m_timesup (set_timesup_timer None s)) eqn:E.
  - simplify_eq. by repeat split.
  - apply timesup_frame_timesup_loop in Hc.
    eapply timesup_frame_trans; [|exact Hc]. by repeat split.
Qed.

Lemma completeRequestNormal_destroys now id status s s' :
  completeRequestNormal now id status s = Some s' →
  is_Some (heap s !! id)
  ∧ heap s' !! id = None
  ∧ m_active_request_count s'
    = wrap64 (m_active_request_count s - 1).
Proof.
  unfold completeRequestNormal. intros Hc.
  destruct (deliverNormal now id status s) as [s1|] eqn:Hd; simpl in Hc;
    [|done].
  simplify_eq. simpl. rewrite lookup_delete_eq.
  assert (is_Some (heap s !! id) ∧ m_active_request_count s1 = m_active_request_count s) as [? ->]; [|done].
  unfold deliverNormal in Hd.
  destruct (heap s !! id) as [e|] eqn:He; simpl in Hd; [|done].
  split; [by eexists|].
  run_in Hd; simplify_eq; try done.
  match goal with E : removeTimesup _ _ _ = Some _ |- _ =>
    apply timesup_frame_removeTimesup in E as (Hcount & _) end.
  simpl in *. done.
Qed.

(** The count of a loop that was run from a new one is the number of live
    executors. *)
Lemma active_count_positive actions s id :
  run actions new = Some s →
  Z.of_nat (next_executor s) < 2 ^ 64 →
  is_Some (heap s !! id) →
  m_active_request_count s = Z.of_nat (size (heap s))
  ∧ 0 < m_active_request_count s.
Proof.
  intros Hrun Hbound [e He].
  destruct (Inv_run _ _ Hrun) as [Hcount Hsize _ _ _ _ _].
  unfold view in Hcount, Hsize; simpl in *.
  rewrite map_size_fmap in Hcount, Hsize.
  assert (size (heap s) ≠ 0%nat) as Hne.
  { intros Hz. apply map_size_empty_inv in Hz. by rewrite Hz in He. }
  rewrite Hcount. unfold wrap64. rewrite Z.mod_small by lia. lia.
Qed.

(** ** Submission, delivery and shutdown *)







(** C5: while the stopping flag is set, [StartRequest] returns false and
    leaves the loop as it was, so whatever runs afterwards runs as if the
    request had never been submitted; otherwise it returns true, adds one
    to the active count, and queues a fresh, prepared executor at the back
    of the pending queue before it signals the async handle. *)
Theorem StartRequest_rejects_when_stopping
    (request_ptr : Request) (s : Loop) (actions : list Action) :
  if m_is_stopping s then
    StartRequest request_ptr s = (false, s)
    ∧ run (Submit request_ptr :: actions) s = run actions s
  else
    let id := next_executor s in
    StartRequest request_ptr s
    = (true,
       mkLoop false (wrap64 (m_active_request_count s + 1))
         (m_pending_requests s ++ [id]) (m_grabbed_requests s)
         (m_timesup s) (m_timesup_timer s) (m_cmh s)
         (<[id := Executor_make request_ptr id]> (heap s)) (S id)
         (trace s ++ [EvAccepted id request_ptr; EvAsyncSend])).
Proof.
  destruct (m_is_stopping s) eqn:E.
  - unfold StartRequest. rewrite E. split; [done|].
    simpl. unfold StartRequest. by rewrite E.
  - unfold StartRequest, emit, set_queues, set_next_executor, set_executor,
      set_heap, set_active_request_count. rewrite E. simpl. done.
Qed.

Lemma wait_active_requests_spec schedule s s1 :
  wait_active_requests schedule s = Some s1 →
  rtc vstep (view s) (view s1)
  ∧ io_frame s s1
  ∧ m_active_request_count s1 ≤ 0.
Proof.
  revert s. induction schedule as [|ev schedule IH]; intros s Hw;
    simpl in Hw; unfold ActiveRequestCount in Hw;
    destruct (Z.ltb_spec 0 (m_active_request_count s)); try done.
  - simplify_eq. split; [done|]. split; [apply io_frame_refl | lia].
  - destruct (io_step ev s) as [s'|] eqn:Hs; simpl in Hw; [|done].
    destruct (IH _ Hw) as (Hv & Hf & Hc).
    split; [etrans; [by eapply vstep_io_step | done]|].
    split; [|done].
    eapply io_frame_trans; [by eapply io_frame_io_step | done].
  - simplify_eq. split; [done|]. split; [apply io_frame_refl | lia].
Qed.

(** C7: when the destructor returns, the stopping flag is set, the active
    count is zero and no executor is left; every accepted request with a
    handler was delivered exactly once, all of it before the destructor's
    calls after the wait, which end the trace: [uv_timer_stop] on the two
    timers, [uv_close] on the two timers and the async handle,
    [uv_async_send], [uv_stop] and the join of the I/O thread, in this
    order; and the loop accepts nothing any more. *)
Theorem destructor_waits_for_deliveries actions schedule s s' :
  run actions new = Some s →
  Z.of_nat (next_executor s) < 2 ^ 64 →
  destructor schedule s = Some s' →
  m_is_stopping s' = true
  ∧ ActiveRequestCount s' = 0
  ∧ heap s' = ∅
  ∧ (∃ tr, trace s `prefix_of` tr
           ∧ trace s'
             = tr
               ++ [EvTimerStop h_timeout_timer; EvTimerStop h_timesup_timer;
                 EvClose h_timeout_timer; EvClose h_timesup_timer;
                 EvClose h_async; EvAsyncSend; EvUvStop; EvThreadJoin]
           ∧ ∀ id req, EvAccepted id req ∈ trace s' →
               deliveries id tr
               = match m_on_complete_handler req with
                 | Some _ => 1%nat
                 | None => 0%nat
                 end)
  ∧ ∀ request_ptr, StartRequest request_ptr s' = (false, s').
Proof.
  intros Hrun Hbound Hd. unfold destructor in Hd.
  destruct (wait_active_requests schedule (set_is_stopping true s))
    as [s1|] eqn:Hw; simpl in Hd; [|done].
  simplify_eq.
  apply wait_active_requests_spec in Hw as (Hv & (Hstop & Hnext & Hpre) & Hle).
  simpl in Hstop, Hnext, Hpre.
  assert (Inv (view s1)) as HInv.
  { apply (Inv_rtc (view s)); [by eapply Inv_run | exact Hv]. }
  destruct HInv as [Hcount Hsize _ _ _ _ Hdel].
  unfold view in Hcount, Hsize; simpl in Hcount, Hsize.
  rewrite map_size_fmap in Hcount, Hsize.
  assert (size (heap s1) = 0%nat) as Hzero.
  { rewrite Hcount in Hle. unfold wrap64 in Hle.
    rewrite Z.mod_small in Hle by lia. lia. }
  assert (heap s1 = ∅) as Hempty by by apply map_size_empty_inv.
  split; [done|]. split.
  { unfold ActiveRequestCount; simpl. by rewrite Hcount, Hzero. }
  split; [done|]. split.
  - exists (trace s1). split; [done|]. split; [done|].
    intros id req Hin. simpl in Hin.
    apply elem_of_app in Hin as [Hin|Hin].
    + apply accepted_view in Hin. specialize (Hdel _ _ Hin).
      rewrite view_lookup, Hempty, lookup_empty, deliveries_view in Hdel.
      exact Hdel.
    + unfold shutdown_calls in Hin.
      repeat (apply elem_of_cons in Hin as [Hin|Hin]; [done|]).
      by apply elem_of_nil in Hin.
  - intros request_ptr. unfold StartRequest. simpl. by rewrite Hstop.
Qed.

(** C10: [completeRequestNormal] takes one off the active count and destroys
    the executor, whether or not it delivers; [completeRequestTimesup] and
    the whole time's-up callback leave the count, the multi handle and the
    executor as they are.  So an executor that is still alive, delivered
    with TIMESUP or not, keeps the count positive and the destructor
    waiting. *)
Theorem only_normal_completion_decrements actions s id e :
  run actions new = Some s →
  Z.of_nat (next_executor s) < 2 ^ 64 →
  heap s !! id = Some e →
  0 < ActiveRequestCount s
  ∧ wait_active_requests [] s = None
  ∧ (∀ now status s',
       completeRequestNormal now id status s = Some s' →
       ActiveRequestCount s' = ActiveRequestCount s - 1
       ∧ heap s' !! id = None)
  ∧ (∀ s', completeRequestTimesup id s = Some s' →
           ActiveRequestCount s' = ActiveRequestCount s
           ∧ m_cmh s' = m_cmh s
           ∧ is_Some (heap s' !! id)
           ∧ wait_active_requests [] s' = None)
  ∧ (∀ now s', io_step (TimesupFired now) s = Some s' →
           ActiveRequestCount s' = ActiveRequestCount s
           ∧ m_cmh s' = m_cmh s
           ∧ is_Some (heap s' !! id)
           ∧ wait_active_requests [] s' = None).
Proof.
  intros Hrun Hbound He.
  destruct (active_count_positive actions s id Hrun Hbound)
    as [Hcount Hpos]; [by eexists|].
  assert (∀ s', ActiveRequestCount s' = ActiveRequestCount s →
                wait_active_requests [] s' = None) as Hwait.
  { intros s' Heq. simpl. rewrite Heq. unfold ActiveRequestCount.
    by destruct (Z.ltb_spec 0 (m_active_request_count s)); [|lia]. }
  split; [done|]. split; [by apply Hwait|]. split; [|split].
  - intros now status s' Hc.
    apply completeRequestNormal_destroys in Hc as (_ & Hnone & Hdec).
    split; [|done]. unfold ActiveRequestCount. rewrite Hdec.
    unfold wrap64. rewrite Z.mod_small; [done|].
    pose proof (inv_size _ (Inv_run _ _ Hrun)) as Hsize.
    unfold view in Hsize; simpl in Hsize. rewrite map_size_fmap in Hsize.
    lia.
  - intros s' Hc.
    apply timesup_frame_completeRequestTimesup in Hc as (Hc & Hm & Hl).
    split; [done|]. split; [done|]. split; [apply Hl; by eexists|].
    by apply Hwait.
  - intros now s' Hc.
    apply timesup_frame_fired in Hc as (Hc & Hm & Hl).
    split; [done|]. split; [done|]. split; [apply Hl; by eexists|].
    by apply Hwait.
Qed.

End LoopProps.

(** ** Footprints and the queues *)

Section QueueProps.
Context `{ExecutorOps}.
Import EventLoop Delivery Footprint.
Implicit Types (s : Loop) (id : nat) (now : Z) (ids : gset nat).

Lemma touches_refl ids s : touches ids s s.
Proof.
  split; try done. exists []. by rewrite app_nil_r.
Qed.

Lemma touches_trans ids s1 s2 s3 :
  touches ids s1 s2 → touches ids s2 s3 → touches ids s1 s3.
Proof.
  intros [Hp1 Hg1 Hn1 Hh1 (evs1 & Ht1 & Hq1) Hc1 Hi1]
         [Hp2 Hg2 Hn2 Hh2 (evs2 & Ht2 & Hq2) Hc2 Hi2].
  split; try congruence.
  - intros id Hid. rewrite Hh2, Hh1; done.
  - exists (evs1 ++ evs2). rewrite Ht2, Ht1, app_assoc. split; [done|].
    by apply Forall_app.
  - intros x Hx. by apply Hc1, Hc2.
  - intros x Hx. by apply Hi1, Hi2.
Qed.

Lemma touches_mono ids ids' s s' :
  ids ⊆ ids' → touches ids s s' → touches ids' s s'.
Proof.
  intros Hsub [Hp Hg Hn Hh Ht Hc Hi]. split; try done.
  intros id Hid. apply Hh. intros Hin. by apply Hid, Hsub.
Qed.

Lemma touches_emit ids evs s :
  Forall (λ ev, quiet ev = true) evs → touches ids s (emit evs s).
Proof. intros Hq. split; try done. by exists evs. Qed.

Lemma touches_set_executor id e s :
  touches {[id]} s (set_executor id e s).
Proof.
  split; try done.
  - intros id' Hid'. simpl. apply lookup_insert_ne. set_solver.
  - exists []. by rewrite app_nil_r.
Qed.

Lemma touches_updateTimesup ids now s : touches ids s (updateTimesup now s).
Proof.
  unfold updateTimesup. repeat case_match; (split; try done);
    exists []; by rewrite app_nil_r.
Qed.

Lemma touches_removeTimesup now id s s' pos :
  removeTimesup now id s = Some (s', pos) → touches {[id]} s s'.
Proof.
  unfold removeTimesup. intros Hc. run_in Hc; simplify_eq;
    try apply touches_refl.
  eapply touches_trans; [|apply touches_updateTimesup].
  eapply touches_trans; [|by apply touches_emit; repeat constructor].
  eapply touches_trans; [|apply touches_set_executor].
  split; try done.
  - exists []. by rewrite app_nil_r.
  - simpl. intros x Hx. by eapply list_elem_of_delete_inv.
Qed.

Lemma touches_completeRequestTimesup id s s' :
  completeRequestTimesup id s = Some s' → touches {[id]} s s'.
Proof.
  unfold completeRequestTimesup. intros Hc. run_in Hc; simplify_eq;
    try apply touches_refl.
  eapply touches_trans; [|by apply touches_emit; repeat constructor].
  apply touches_set_executor.
Qed.

Lemma touches_deliverNormal now id status s s' :
  deliverNormal now id status s = Some s' → touches {[id]} s s'.
Proof.
  unfold deliverNormal. intros Hc. run_in Hc; simplify_eq;
    try apply touches_refl.
  match goal with E : removeTimesup _ _ _ = Some _ |- _ =>
    apply touches_removeTimesup in E end.
  eapply touches_trans; [|by apply touches_emit; repeat constructor].
  eapply touches_trans; [|apply touches_set_executor].
  eapply touches_trans; [|eassumption].
  apply touches_set_executor.
Qed.

Lemma touches_completeRequestNormal now id status s s' :
  completeRequestNormal now id status s = Some s' → touches {[id]} s s'.
Proof.
  unfold completeRequestNormal. intros Hc. run_in Hc; simplify_eq.
  eapply touches_trans; [by eapply touches_deliverNormal|].
  eapply touches_trans; [|by apply touches_emit; repeat constructor].
  split; try done.
  - intros id' Hid'. simpl. apply lookup_delete_ne. set_solver.
  - exists []. by rewrite app_nil_r.
Qed.

Lemma touches_checkActions now msgs s s' :
  checkActions now msgs s = Some s' → touches (m_cmh s) s s'.
Proof.
  revert s. induction msgs as [|[id code] msgs IH]; intros s Hc; simpl in Hc.
  { simplify_eq. apply touches_refl. }
  case_bool_decide as Hin; [|done].
  match type of Hc with
  | (?m ≫= _) = _ => destruct m as [s1|] eqn:Hn
  end; simpl in Hc; [|done].
  apply touches_completeRequestNormal in Hn.
  apply IH in Hc.
  eapply touches_trans;
    [|eapply touches_mono; [|exact Hc]].
  - eapply touches_trans;
      [|eapply touches_mono; [|exact Hn]]; [|set_solver].
    eapply touches_trans; [|by apply touches_emit; repeat constructor].
    split; try done.
    + exists []. by rewrite app_nil_r.
    + simpl. by intros x [Hx _]%elem_of_difference.
  - pose proof (t_cmh _ _ _ Hn) as Hsub. simpl in Hsub.
    intros x Hx. by apply Hsub, elem_of_difference in Hx as [Hx _].
Qed.

Lemma touches_timesup_loop fuel now pos s s' :
  timesup_loop fuel now pos s = Some s' → touches (index_ids s) s s'.
Proof.
  revert pos s. induction fuel as [|fuel IH]; intros pos s Hc; simpl in Hc.
  { done. }
  destruct (m_timesup s !! pos) as [[first id]|] eqn:Hpos;
    [|simplify_eq; apply touches_refl].
  destruct (now <? first); [simplify_eq; apply touches_refl|].
  destruct (completeRequestTimesup id s) as [s1|] eqn:Ht; simpl in Hc;
    [|done].
  destruct (removeTimesup now id s1) as [[s2 next]|] eqn:Hr; simpl in Hc;
    [|done].
  apply touches_completeRequestTimesup in Ht.
  apply touches_removeTimesup in Hr.
  apply IH in Hc.
  assert (id ∈ index_ids s) as Hid.
  { unfold index_ids. apply elem_of_list_to_set, list_elem_of_fmap.
    exists (first, id). split; [done|]. by eapply list_elem_of_lookup_2. }
  assert (touches (index_ids s) s s2) as H12.
  { eapply touches_trans; (eapply touches_mono; [|eassumption]); set_solver. }
  eapply touches_trans; [exact H12|].
  eapply touches_mono; [|exact Hc].
  unfold index_ids. pose proof (t_index _ _ _ H12) as Hsub.
  intros x Hx. apply elem_of_list_to_set, list_elem_of_fmap in Hx
    as (entry & -> & Hentry).
  apply elem_of_list_to_set, list_elem_of_fmap. exists entry. split; [done|].
  by apply Hsub.
Qed.

Lemma touches_fired now s s' :
  io_step (TimesupFired now) s = Some s' → touches (index_ids s) s s'.
Proof.
  simpl. intros Hc.
  destruct (m_timesup_timer s) as [[started timeout]|]; [|done].
  destruct (started + timeout <=? now); [|done].
  unfold on_uv_timesup_callback in Hc.
  destruct (m_timesup (set_timesup_timer None s)) eqn:E.
  - simplify_eq. split; try done. exists []. by rewrite app_nil_r.
  - apply touches_timesup_loop in Hc.
    eapply touches_trans; [|exact Hc].
    split; try done. exists []. by rewrite app_nil_r.
Qed.

Lemma accepted_ids_app tr1 tr2 :
  accepted_ids (tr1 ++ tr2) = accepted_ids tr1 ++ accepted_ids tr2.
Proof. apply omap_app. Qed.

Lemma accepted_ids_nothing evs :
  Forall accepts_nothing evs → accepted_ids evs = [].
Proof.
  induction 1 as [|ev evs Hev _ IH]; [done|].
  by destruct ev.
Qed.

Lemma quiet_accepts_nothing evs :
  Forall (λ ev, quiet ev = true) evs → Forall accepts_nothing evs.
Proof. intros Hq. eapply Forall_impl; [exact Hq|]. by intros []. Qed.

Lemma quiet_no_adds evs :
  Forall (λ ev, quiet ev = true) evs →
  filter (λ ev, is_add ev = true) evs = [].
Proof.
  induction 1 as [|ev evs Hev _ IH]; [done|].
  rewrite filter_cons_False; [done|]. by destruct ev.
Qed.

Lemma drain_adds_heap s s' now id code :
  heap s' !! id = heap s !! id →
  drain_adds s' now id code = drain_adds s now id code.
Proof. unfold drain_adds. by intros ->. Qed.

Lemma updateTimesup_timer now s :
  ∃ timer, updateTimesup now s = set_timesup_timer timer s.
Proof. unfold updateTimesup. repeat case_match; eauto. Qed.

Lemma elem_of_multimap_emplace entry k id l :
  entry ∈ multimap_emplace k id l ↔ entry = (k, id) ∨ entry ∈ l.
Proof.
  induction l as [|[k' v'] l IH]; simpl.
  - rewrite list_elem_of_singleton, elem_of_nil. tauto.
  - case_match; rewrite !elem_of_cons, ?IH; tauto.
Qed.

(** What one turn of the drain's loop adds to the trace and to the timer
    index for a freshly queued executor. *)
Lemma addTimesup_fresh now id s request :
  heap s !! id = Some (Executor_make request id) →
  ∃ s1, addTimesup now id s = Some s1
    ∧ m_pending_requests s1 = m_pending_requests s
    ∧ m_grabbed_requests s1 = m_grabbed_requests s
    ∧ next_executor s1 = next_executor s
    ∧ m_cmh s1 = m_cmh s
    ∧ (∀ id', id' ≠ id → heap s1 !! id' = heap s !! id')
    ∧ (∀ entry, entry ∈ m_timesup s1 → entry ∈ m_timesup s ∨ entry.2 = id)
    ∧ ∀ code, trace s1 ++ [EvMultiAddHandle id code]
              = trace s ++ drain_adds s now id code.
Proof.
  intros He. unfold addTimesup, drain_adds. rewrite He; simpl.
  destruct (Request.Timesup request) as [b|]; simpl.
  - eexists. split; [done|].
    match goal with |- context [updateTimesup now ?s0] =>
      destruct (updateTimesup_timer now s0) as [timer ->] end.
    simpl. repeat split.
    + intros id' Hne. by apply lookup_insert_ne.
    + intros entry [->|Hin]%elem_of_multimap_emplace; [by right | by left].
    + intros code. by rewrite <- app_assoc.
  - exists s. repeat split; try done. intros entry ?. by left.
Qed.

Lemma drain_adds_accept_nothing s now id code :
  Forall accepts_nothing (drain_adds s now id code).
Proof.
  unfold drain_adds. destruct (mbind _ _);
    repeat first [exact I | constructor].
Qed.

Lemma drain_adds_are_adds s now id code :
  filter (λ ev, is_add ev = true) (drain_adds s now id code)
  = drain_adds s now id code.
Proof. unfold drain_adds. by destruct (mbind _ _). Qed.

Lemma Forall2_drain_adds s s' now rest evss :
  (∀ id, id ∈ rest → heap s' !! id = heap s !! id) →
  Forall2 (λ id adds, ∃ code, adds = drain_adds s' now id code) rest evss →
  Forall2 (λ id adds, ∃ code, adds = drain_adds s now id code) rest evss.
Proof.
  intros Hheap Hall. induction Hall as [|id adds rest evss [c ->] _ IH].
  { constructor. }
  constructor.
  - exists c. apply drain_adds_heap, Hheap, elem_of_cons. by left.
  - apply IH. intros id' Hid'. apply Hheap, elem_of_cons. by right.
Qed.

Lemma accept_loop_spec (P : Loop → Prop) now codes completions rest s s' :
  (∀ s0 id request s1,
     P s0 → heap s0 !! id = Some (Executor_make request id) →
     addTimesup now id s0 = Some s1 → P s1) →
  (∀ s0 s1,
     P s0 → m_timesup s1 = m_timesup s0 → heap s1 = heap s0 →
     m_timesup_timer s1 = m_timesup_timer s0 → P s1) →
  (∀ s0 id status s1,
     P s0 → completeRequestNormal now id status s0 = Some s1 → P s1) →
  (∀ s0 msgs s1, P s0 → checkActions now msgs s0 = Some s1 → P s1) →
  NoDup rest →
  (∀ id, id ∈ rest → (id ∉ m_cmh s) ∧ fresh_executor s id) →
  P s →
  accept_loop now codes completions rest s = Some s' →
  P s'
  ∧ m_pending_requests s' = m_pending_requests s
  ∧ m_grabbed_requests s' = m_grabbed_requests s
  ∧ next_executor s' = next_executor s
  ∧ (∀ id, id ∉ m_cmh s → id ∉ rest → heap s' !! id = heap s !! id)
  ∧ (∀ id, id ∈ m_cmh s' → id ∈ m_cmh s ∨ id ∈ rest)
  ∧ (∀ entry, entry ∈ m_timesup s' →
              entry ∈ m_timesup s ∨ entry.2 ∈ rest)
  ∧ ∃ evs evss,
      trace s' = trace s ++ evs
      ∧ Forall accepts_nothing evs
      ∧ filter (λ ev, is_add ev = true) evs = concat evss
      ∧ Forall2 (λ id adds, ∃ code, adds = drain_adds s now id code)
          rest evss.
Proof.
  intros HPadd HPext HPnormal HPcheck.
  revert codes completions s.
  induction rest as [|id rest IH];
    intros codes completions s Hnd Hrest HP Hc; simpl in Hc.
  { simplify_eq. split_and!; try done; try by left.
    exists [], []. rewrite app_nil_r. split_and!; constructor. }
  apply NoDup_cons in Hnd as [Hid Hnd].
  destruct (Hrest id) as [Hcmh [request He]]; [apply elem_of_cons; by left|].
  destruct (addTimesup_fresh now id s request He)
    as (s1 & Ha & Hp1 & Hg1 & Hn1 & Hc1 & Hh1 & Hi1 & Ht1).
  rewrite Ha in Hc; simpl in Hc.
  set (code := hd CURLM_OK codes) in *.
  match type of Hc with
  | (?m ≫= _) = _ => destruct m as [s3|] eqn:Hm
  end; simpl in Hc; [|done].
  assert (∃ s2, m_pending_requests s2 = m_pending_requests s1
                ∧ m_grabbed_requests s2 = m_grabbed_requests s1
                ∧ next_executor s2 = next_executor s1
                ∧ heap s2 = heap s1
                ∧ m_timesup s2 = m_timesup s1
                ∧ trace s2 = trace s1 ++ [EvMultiAddHandle id code]
                ∧ (∀ id', id' ∈ m_cmh s2 → id' ∈ m_cmh s ∨ id' = id)
                ∧ touches ({[id]} ∪ m_cmh s) s2 s3
                ∧ P s3)
    as (s2 & Hp2 & Hg2 & Hn2 & Hh2 & Hi2 & Ht2 & Hc2 & Htouch & HP3).
  { assert (P s1) as HP1 by (by eapply HPadd).
    case_bool_decide.
    - assert (P s3) by (eapply HPnormal; [|exact Hm]; by eapply HPext).
      apply touches_completeRequestNormal in Hm.
      exists (emit [EvMultiAddHandle id code] s1).
      split_and!; try done.
      + intros id'. simpl. rewrite Hc1. by left.
      + eapply touches_mono; [|exact Hm]. apply union_subseteq_l.
    - assert (P s3) by (eapply HPcheck; [|exact Hm]; by eapply HPext).
      apply touches_checkActions in Hm. simpl in Hm. rewrite Hc1 in Hm.
      exists (set_cmh ({[id]} ∪ m_cmh s1)
                (emit [EvMultiAddHandle id code] s1)).
      split_and!; try done.
      + intros id'. simpl. rewrite Hc1, elem_of_union, elem_of_singleton.
        tauto.
      + by rewrite Hc1. }
  destruct Htouch as [Hp3 Hg3 Hn3 Hh3 (evs3 & Ht3 & Hq3) Hc3 Hi3].
  assert (∀ id', id' ∈ rest → heap s3 !! id' = heap s !! id') as Hheap.
  { intros id' Hid'. destruct (Hrest id') as [Hn' _];
      [apply elem_of_cons; by right|].
    assert (id' ≠ id) by (intros ->; done).
    rewrite Hh3, Hh2, Hh1; [done..|].
    rewrite elem_of_union, elem_of_singleton. tauto. }
  destruct (IH (tail codes) (tail completions) s3 Hnd) as
    (HP' & Hp & Hg & Hn & Hh & Hcm & Hix & evs & evss & Htr & Hacc & Hadds
     & Hall);
    [|exact HP3|exact Hc|].
  { intros id' Hid'. destruct (Hrest id') as [Hn' [r' Hf']];
      [apply elem_of_cons; by right|].
    split.
    - intros Hin. apply Hc3, Hc2 in Hin as [?| ->]; [done|].
      done.
    - exists r'. by rewrite Hheap. }
  split; [done|].
  split; [congruence|]. split; [congruence|]. split; [congruence|].
  split; [|split; [|split]].
  - intros id' Hn' Hin'.
    assert (id' ≠ id ∧ id' ∉ rest) as [? ?].
    { split; intros ?; apply Hin'; subst; apply elem_of_cons; auto. }
    rewrite Hh; [rewrite Hh3, Hh2, Hh1; [done..|]| |done].
    { rewrite elem_of_union, elem_of_singleton. tauto. }
    intros Hin. apply Hc3, Hc2 in Hin as [?|?]; done.
  - intros id' Hin. apply Hcm in Hin as [Hin|Hin].
    + apply Hc3, Hc2 in Hin as [?| ->]; [by left|].
      right. apply elem_of_cons. by left.
    + right. apply elem_of_cons. by right.
  - intros entry Hin. apply Hix in Hin as [Hin|Hin].
    + apply Hi3 in Hin. rewrite Hi2 in Hin. apply Hi1 in Hin as [?| ->];
        [by left|]. right. apply elem_of_cons. by left.
    + right. apply elem_of_cons. by right.
  - exists ((drain_adds s now id code ++ evs3) ++ evs),
           (drain_adds s now id code :: evss).
    split; [|split; [|split]].
    + rewrite Htr, Ht3, Ht2, Ht1. by rewrite !app_assoc.
    + apply Forall_app. split; [apply Forall_app; split|exact Hacc].
      * apply drain_adds_accept_nothing.
      * by apply quiet_accepts_nothing.
    + rewrite !filter_app, Hadds, (quiet_no_adds evs3), app_nil_r by done.
      simpl. f_equal. apply drain_adds_are_adds.
    + constructor; [by exists code|]. by eapply Forall2_drain_adds.
Qed.

Lemma queues_ok_new : queues_ok new.
Proof.
  split; simpl; try done.
  - exists []. split; [done|]. split; [set_solver|].
    intros entry Hin. by apply elem_of_nil in Hin.
  - constructor.
  - intros id Hin. by apply elem_of_nil in Hin.
  - intros id Hin. by apply elem_of_nil in Hin.
Qed.

Lemma drained_not_pending s drained id :
  NoDup (accepted_ids (trace s)) →
  accepted_ids (trace s) = drained ++ m_pending_requests s →
  id ∈ drained → id ∉ m_pending_requests s.
Proof.
  intros Hnd Heq Hin. rewrite Heq in Hnd.
  apply NoDup_app in Hnd as (_ & Hdis & _). by apply Hdis.
Qed.

Lemma queues_ok_touches ids s s' :
  queues_ok s → touches ids s s' →
  (∀ id, id ∈ ids → id ∉ m_pending_requests s) →
  queues_ok s'.
Proof.
  intros [Hg (drained & Hfifo & Hcmh & Hidx) Hnd Hfresh Hbelow]
         [Hp' Hg' Hn' Hh' (evs & Ht' & Hq') Hc' Hi'] Hids.
  assert (accepted_ids (trace s') = accepted_ids (trace s)) as Hacc.
  { rewrite Ht', accepted_ids_app, (accepted_ids_nothing evs), app_nil_r;
      [done|]. by apply quiet_accepts_nothing. }
  split.
  - congruence.
  - exists drained. rewrite Hacc, Hp'. split; [done|]. split.
    + intros id Hid. by apply Hcmh, Hc'.
    + intros entry Hin. by apply Hidx, Hi'.
  - by rewrite Hacc.
  - intros id Hid. rewrite Hp' in Hid.
    destruct (Hfresh id Hid) as [r Hr]. exists r. rewrite Hh'; [done|].
    intros Hin. by apply (Hids id).
  - intros id. rewrite Hacc, Hn'. apply Hbelow.
Qed.

Lemma queues_ok_StartRequest request s :
  queues_ok s → queues_ok (StartRequest request s).2.
Proof.
  intros Hq.
  pose proof Hq as [Hg (drained & Hfifo & Hcmh & Hidx) Hnd Hfresh Hbelow].
  unfold StartRequest. destruct (m_is_stopping s); simpl; [done|].
  assert (accepted_ids (trace s ++ [EvAccepted (next_executor s) request;
                                     EvAsyncSend])
          = accepted_ids (trace s) ++ [next_executor s]) as Hacc
    by by rewrite accepted_ids_app.
  assert (next_executor s ∉ accepted_ids (trace s)) as Hnew.
  { intros Hin. apply Hbelow in Hin. lia. }
  split; simpl.
  - done.
  - exists drained. rewrite Hacc, Hfifo, app_assoc. done.
  - rewrite Hacc. apply NoDup_app. split; [done|]. split.
    + intros id Hid ->%list_elem_of_singleton. done.
    + apply NoDup_singleton.
  - intros id [Hid| ->%list_elem_of_singleton]%elem_of_app.
    + destruct (Hfresh id Hid) as [r Hr]. exists r. simpl.
      rewrite lookup_insert_ne; [done|]. intros <-.
      apply Hnew. rewrite Hfifo. apply elem_of_app. by right.
    + exists request. simpl. by rewrite lookup_insert_eq.
  - intros id. rewrite Hacc.
    intros [Hid| ->%list_elem_of_singleton]%elem_of_app; [|lia].
    apply Hbelow in Hid. lia.
Qed.

(** What the drain does, on a loop whose queues are in order; [P] is
    anything the turns of its loop keep. *)
Lemma on_uv_requests_accept_async_spec
    (P : Loop → Prop) now codes completions s s' :
  (∀ s0 id request s1,
     P s0 → heap s0 !! id = Some (Executor_make request id) →
     addTimesup now id s0 = Some s1 → P s1) →
  (∀ s0 s1,
     P s0 → m_timesup s1 = m_timesup s0 → heap s1 = heap s0 →
     m_timesup_timer s1 = m_timesup_timer s0 → P s1) →
  (∀ s0 id status s1,
     P s0 → completeRequestNormal now id status s0 = Some s1 → P s1) →
  (∀ s0 msgs s1, P s0 → checkActions now msgs s0 = Some s1 → P s1) →
  queues_ok s →
  P s →
  on_uv_requests_accept_async now codes completions s = Some s' →
  P s'
  ∧ queues_ok s'
  ∧ m_pending_requests s' = []
  ∧ ∃ evs evss,
      trace s' = trace s ++ evs
      ∧ filter (λ ev, is_add ev = true) evs = concat evss
      ∧ Forall2 (λ id adds, ∃ code, adds = drain_adds s now id code)
          (m_pending_requests s) evss.
Proof.
  intros HPadd HPext HPnormal HPcheck
         [Hg (drained & Hfifo & Hcmh & Hidx) Hnd Hfresh Hbelow] HP Hc.
  unfold on_uv_requests_accept_async in Hc. rewrite Hg in Hc.
  match type of Hc with
  | (?m ≫= _) = _ => destruct m as [s2|] eqn:Hm
  end; simpl in Hc; [|done].
  simplify_eq.
  assert (NoDup (m_pending_requests s)) as Hndp.
  { rewrite Hfifo in Hnd. by apply NoDup_app in Hnd as (_ & _ & ?). }
  apply (accept_loop_spec P) in Hm
    as (HP' & Hp & Hg2 & Hn & Hh & Hcm & Hix & evs & evss & Htr & Hacc
        & Hadds & Hall); [|done..| |by eapply HPext].
  2:{ intros id Hid. split; [|by apply Hfresh].
      intros Hin. by eapply drained_not_pending; [..|apply Hcmh, Hin|]. }
  simpl in *.
  split; [by eapply HPext|].
  assert (accepted_ids (trace s2) = accepted_ids (trace s)) as Hacc'.
  { by rewrite Htr, accepted_ids_app, (accepted_ids_nothing evs), app_nil_r. }
  split; [|split; [done|by exists evs, evss]].
  split; simpl.
  - done.
  - exists (drained ++ m_pending_requests s).
    rewrite Hacc', Hp, app_nil_r. split; [done|]. split.
    + intros id [Hid|Hid]%Hcm; apply elem_of_app; [left; by apply Hcmh|].
      by right.
    + intros entry [Hin|Hin]%Hix; apply elem_of_app; [left; by apply Hidx|].
      by right.
  - by rewrite Hacc'.
  - rewrite Hp. intros id Hin. by apply elem_of_nil in Hin.
  - intros id. rewrite Hacc', Hn. apply Hbelow.
Qed.

Lemma queues_ok_io_step ev s s' :
  queues_ok s → io_step ev s = Some s' → queues_ok s'.
Proof.
  intros Hq Hs. destruct ev as [now codes completions|now msgs|now].
  - by eapply (on_uv_requests_accept_async_spec (λ _, True)).
  - simpl in Hs. apply touches_checkActions in Hs.
    eapply queues_ok_touches; [done..|].
    destruct Hq as [_ (drained & Hfifo & Hcmh & _) Hnd _ _].
    intros id Hid. eapply drained_not_pending; [done..|]. by apply Hcmh.
  - apply touches_fired in Hs.
    eapply queues_ok_touches; [done..|].
    destruct Hq as [_ (drained & Hfifo & _ & Hidx) Hnd _ _].
    intros id Hid. eapply drained_not_pending; [done..|].
    unfold index_ids in Hid.
    apply elem_of_list_to_set, list_elem_of_fmap in Hid as (entry & -> & Hin).
    by apply Hidx.
Qed.

Lemma queues_ok_run actions s s' :
  queues_ok s → run actions s = Some s' → queues_ok s'.
Proof.
  revert s. induction actions as [|a actions IH]; intros s Hq Hr;
    simpl in Hr.
  { by simplify_eq. }
  destruct (step a s) as [s1|] eqn:Hs; simpl in Hr; [|done].
  apply (IH s1); [|done].
  destruct a as [request| |ev]; simpl in Hs.
  - simplify_eq. by apply queues_ok_StartRequest.
  - simplify_eq. by destruct Hq.
  - by eapply queues_ok_io_step.
Qed.


End QueueProps.

(** ** The timer index *)

Section TimerIndexProps.
Context `{ExecutorOps}.
Import EventLoop Delivery Footprint TimerIndex.
Implicit Types (s : Loop) (id : nat) (now : Z) (busy : option nat).
Implicit Types (entry : Z * nat) (l : list (Z * nat)).

(** The node an iterator designates splits the index around it. *)
Lemma multimap_position_split k v l pos :
  multimap_position k v l = Some pos →
  ∃ l1 l2, l = l1 ++ (k, v) :: l2 ∧ delete pos l = l1 ++ l2
           ∧ pos = length l1.
Proof.
  revert pos. induction l as [|[k' v'] l IH]; intros pos Hpos; simpl in Hpos.
  { done. }
  case_bool_decide as Heq.
  - destruct Heq as [-> ->]. simplify_eq. by exists [], l.
  - destruct (multimap_position k v l) as [p|]; simpl in Hpos; [|done].
    simplify_eq. destruct (IH p eq_refl) as (l1 & l2 & -> & Hdel & ->).
    exists ((k', v') :: l1), l2. simpl. by rewrite Hdel.
Qed.

Lemma multimap_emplace_sorted k v l :
  StronglySorted (λ x y : Z * nat, x.1 ≤ y.1) l →
  StronglySorted (λ x y : Z * nat, x.1 ≤ y.1) (multimap_emplace k v l).
Proof.
  induction 1 as [|[k' v'] l Hl IH Hall]; simpl.
  { repeat constructor. }
  destruct (Z.ltb_spec k k').
  - constructor; [by constructor|]. constructor; [simpl; lia|].
    eapply Forall_impl; [exact Hall|]. simpl. intros; lia.
  - constructor; [done|].
    apply Forall_forall. intros entry [->|Hin]%elem_of_multimap_emplace.
    + simpl. lia.
    + by eapply Forall_forall in Hall.
Qed.

Lemma multimap_emplace_Permutation k v l :
  multimap_emplace k v l ≡ₚ (k, v) :: l.
Proof.
  induction l as [|[k' v'] l IH]; simpl; [done|].
  case_match; [done|]. rewrite IH. apply Permutation_swap.
Qed.

(** [index_ok] reads the index and the heap only. *)
Lemma index_ok_ext busy s s' :
  m_timesup s' = m_timesup s → heap s' = heap s →
  index_ok busy s → index_ok busy s'.
Proof.
  intros Hi Hh [Hs Hn Hl Hr Hhd].
  split; unfold entry_linked, entry_ready in *; rewrite ?Hi, ?Hh; done.
Qed.

Lemma index_ok_updateTimesup busy now s :
  index_ok busy s → index_ok busy (updateTimesup now s).
Proof.
  destruct (updateTimesup_timer now s) as [t ->]. by apply index_ok_ext.
Qed.

Lemma index_ok_busy id s : index_ok None s → index_ok (Some id) s.
Proof.
  intros [Hs Hn Hl Hr Hhd]. split; try done.
  eapply Forall_impl; [exact Hr|]. intros entry [?|?]; [done | by right].
Qed.

Lemma index_ok_idle id s :
  index_ok (Some id) s → id ∉ (m_timesup s).*2 → index_ok None s.
Proof.
  intros [Hs Hn Hl Hr Hhd] Hid. split; try done.
  apply Forall_forall. intros entry Hin.
  eapply Forall_forall in Hr as [Heq|?]; [|by right|done].
  exfalso. apply Hid. simplify_eq. apply list_elem_of_fmap. by exists entry.
Qed.

(** A write to the busy executor that keeps its iterator, and keeps or
    gives away its request. *)
Lemma index_ok_set_executor id e e' s :
  heap s !! id = Some e →
  m_timesup_iterator e' = m_timesup_iterator e →
  (m_request_async e' = m_request_async e ∨ m_request_async e' = None) →
  index_ok (Some id) s → index_ok (Some id) (set_executor id e' s).
Proof.
  intros He Hit Hreq [Hs Hn Hl Hr Hhd]. split; simpl; try done.
  - eapply Forall_impl; [exact Hl|]. intros entry (e0 & He0 & Hit0).
    unfold entry_linked. simpl.
    destruct (decide (id = entry.2)) as [Heq|Hne].
    + rewrite <- Heq in *. rewrite lookup_insert_eq. simplify_eq.
      exists e'. by rewrite Hit.
    + rewrite lookup_insert_ne by done. by exists e0.
  - eapply Forall_impl; [exact Hr|]. intros entry [Hb|Hrd]; [by left|].
    destruct (decide (id = entry.2)) as [Heq|Hne]; [left; by rewrite Heq|].
    right. destruct Hrd as (e0 & r & h & b & ? & ?).
    exists e0, r, h, b. simpl. by rewrite lookup_insert_ne.
  - intros id' e0 r Hl0 Hr0 Hb. destruct (decide (id = id')) as [<-|Hne].
    + rewrite lookup_insert_eq in Hl0. simplify_eq.
      destruct Hreq as [Hreq|Hreq]; rewrite Hreq in Hr0; [|done].
      by eapply Hhd.
    + rewrite lookup_insert_ne in Hl0 by done. by eapply Hhd.
Qed.

(** [removeTimesup] for the busy executor: its entry is gone afterwards. *)
Lemma index_ok_removeTimesup now id s s' pos :
  index_ok (Some id) s →
  removeTimesup now id s = Some (s', pos) →
  index_ok None s' ∧ id ∉ (m_timesup s').*2.
Proof.
  intros Hok Hrm. pose proof Hok as [Hs Hn Hl Hr Hhd].
  unfold removeTimesup in Hrm.
  destruct (heap s !! id) as [e|] eqn:He; simpl in Hrm; [|done].
  destruct (m_timesup_iterator e) as [k|] eqn:Hit.
  - destruct (multimap_position k id (m_timesup s)) as [p|] eqn:Hpos;
      simpl in Hrm; [|done].
    injection Hrm as <- <-.
    apply multimap_position_split in Hpos as (l1 & l2 & Hidx & Hdel & _).
    assert (id ∉ (l1 ++ l2).*2) as Hgone.
    { rewrite Hidx in Hn. rewrite fmap_app in *. simpl in Hn.
      apply NoDup_app in Hn as (_ & Hdis & Hn2).
      apply NoDup_cons in Hn2 as [Hn2 _].
      intros [Hin|Hin]%elem_of_app; [|done].
      apply (Hdis id Hin). apply elem_of_cons. by left. }
    split.
    2:{ destruct (updateTimesup_timer now
                    (emit [EvTimesupErase id]
                       (set_executor id (with_timesup_iterator None e)
                          (set_timesup (delete p (m_timesup s)) s))))
          as [t ->].
        simpl. by rewrite Hdel. }
    apply index_ok_updateTimesup.
    apply (index_ok_idle id).
    2:{ simpl. by rewrite Hdel. }
    apply (index_ok_ext _
             (set_executor id (with_timesup_iterator None e)
                (set_timesup (delete p (m_timesup s)) s))); [done..|].
    rewrite Hdel. rewrite Hidx in Hs, Hn, Hl, Hr.
    assert (∀ entry, entry ∈ l1 ++ l2 → entry.2 ≠ id) as Hne.
    { intros entry Hin Heq. apply Hgone, list_elem_of_fmap.
      exists entry. by rewrite Heq. }
    split; simpl.
    + apply StronglySorted_app in Hs as (Hall & Hs1 & Hs2).
      apply StronglySorted_cons in Hs2 as [_ Hs2].
      apply StronglySorted_app. split; [|done].
      intros x1 x2 H1 H2. apply Hall; [done|]. apply elem_of_cons. by right.
    + rewrite fmap_app in *. simpl in Hn.
      apply NoDup_app in Hn as (Hn1 & Hdis & Hn2).
      apply NoDup_cons in Hn2 as [_ Hn2].
      apply NoDup_app. split; [done|]. split; [|done].
      intros x H1 H2. apply (Hdis x H1). apply elem_of_cons. by right.
    + apply Forall_forall. intros entry Hin.
      assert (entry ∈ l1 ++ (k, id) :: l2) as Hin'.
      { apply elem_of_app in Hin as [?|?]; apply elem_of_app; [by left|].
        right. apply elem_of_cons. by right. }
      eapply Forall_forall in Hl as (e0 & He0 & Hit0); [|exact Hin'].
      exists e0. simpl. rewrite lookup_insert_ne; [done|].
      intros Heq. by apply (Hne entry Hin).
    + apply Forall_forall. intros entry Hin.
      assert (entry ∈ l1 ++ (k, id) :: l2) as Hin'.
      { apply elem_of_app in Hin as [?|?]; apply elem_of_app; [by left|].
        right. apply elem_of_cons. by right. }
      eapply Forall_forall in Hr as [Hb|Hrd]; [| |exact Hin'].
      { exfalso. apply (Hne entry Hin). by simplify_eq. }
      right. destruct Hrd as (e0 & r & h & b & ? & ?).
      exists e0, r, h, b. simpl. rewrite lookup_insert_ne; [done|].
      intros Heq. by apply (Hne entry Hin).
    + intros id' e0 r Hl0 Hr0 Hb. destruct (decide (id = id')) as [<-|Hne'].
      * rewrite lookup_insert_eq in Hl0. simplify_eq. by eapply Hhd.
      * rewrite lookup_insert_ne in Hl0 by done. by eapply Hhd.
  - simplify_eq.
    assert (id ∉ (m_timesup s').*2) as Hgone.
    { intros (entry & -> & Hin)%list_elem_of_fmap.
      eapply Forall_forall in Hl as (e0 & He0 & Hit0); [|exact Hin].
      by simplify_eq. }
    split; [|done]. by apply (index_ok_idle id).
Qed.

Lemma index_ok_completeRequestTimesup id s s' :
  index_ok None s →
  completeRequestTimesup id s = Some s' →
  index_ok (Some id) s'.
Proof.
  intros Hok Hc. apply (index_ok_busy id) in Hok.
  unfold completeRequestTimesup in Hc.
  destruct (heap s !! id) as [e|] eqn:He; simpl in Hc; [|done].
  run_in Hc; simplify_eq; try done.
  eapply index_ok_ext;
    [| |eapply (index_ok_set_executor id e); [done| | |exact Hok]];
    try done.
  by right.
Qed.

(** After [deliverNormal] the executor has no entry in the index. *)
Lemma index_ok_deliverNormal now id status s s' :
  index_ok None s →
  deliverNormal now id status s = Some s' →
  index_ok None s' ∧ id ∉ (m_timesup s').*2.
Proof.
  intros Hok Hc. unfold deliverNormal in Hc.
  destruct (heap s !! id) as [e|] eqn:He; simpl in Hc; [|done].
  assert (∀ entry, entry ∈ m_timesup s → entry.2 = id →
                   ∃ r, m_on_complete_callback_called e = false
                        ∧ m_request_async e = Some r
                        ∧ is_Some (m_on_complete_handler r)) as Hready.
  { intros entry Hin Heq. destruct Hok as [_ _ _ Hr _].
    eapply Forall_forall in Hr as [?|(e0 & r & h & b & ? & ? & ? & ? & ?)];
      [done| |exact Hin].
    rewrite Heq in *. simplify_eq. by exists r. }
  destruct (m_on_complete_callback_called e) eqn:Hflag.
  { simplify_eq. split; [done|].
    intros (entry & -> & Hin)%list_elem_of_fmap.
    by destruct (Hready entry Hin eq_refl) as (? & ? & _). }
  destruct (m_request_async e) as [r|] eqn:Hr; simpl in Hc; [|done].
  destruct (m_on_complete_handler r) as [h|] eqn:Hh.
  2:{ simplify_eq. split; [done|].
      intros (entry & -> & Hin)%list_elem_of_fmap.
      destruct (Hready entry Hin eq_refl) as (r' & _ & ? & [? ?]).
      by simplify_eq. }
  match type of Hc with
  | context [removeTimesup now id ?s1] =>
      destruct (removeTimesup now id s1) as [[s2 pos]|] eqn:Hrm
  end; simpl in Hc; [|done].
  destruct (heap s2 !! id) as [e2|] eqn:He2; simpl in Hc; [|done].
  simplify_eq.
  apply index_ok_removeTimesup in Hrm as [Hok2 Hgone].
  2:{ eapply (index_ok_set_executor id e); [done..| |by apply index_ok_busy].
      by left. }
  split; [|done].
  apply (index_ok_idle id); [|done].
  eapply index_ok_ext;
    [| |eapply (index_ok_set_executor id e2); [done| | |by apply index_ok_busy]];
    try done.
  by right.
Qed.

Lemma index_ok_completeRequestNormal now id status s s' :
  index_ok None s →
  completeRequestNormal now id status s = Some s' →
  index_ok None s'.
Proof.
  intros Hok Hc. unfold completeRequestNormal in Hc.
  destruct (deliverNormal now id status s) as [s1|] eqn:Hd; simpl in Hc;
    [|done].
  simplify_eq.
  apply index_ok_deliverNormal in Hd as [[Hs Hn Hl Hr Hhd] Hgone]; [|done].
  assert (∀ entry, entry ∈ m_timesup s1 → entry.2 ≠ id) as Hne.
  { intros entry Hin Heq. apply Hgone, list_elem_of_fmap.
    exists entry. by rewrite Heq. }
  split; simpl; try done.
  - apply Forall_forall. intros entry Hin.
    eapply Forall_forall in Hl as (e0 & He0 & Hit0); [|exact Hin].
    exists e0. simpl. rewrite lookup_delete_ne; [done|].
    intros Heq. by apply (Hne entry Hin).
  - apply Forall_forall. intros entry Hin.
    eapply Forall_forall in Hr as [?|(e0 & r & h & b & ? & ?)];
      [done| |exact Hin].
    right. exists e0, r, h, b. simpl. rewrite lookup_delete_ne; [done|].
    intros Heq. by apply (Hne entry Hin).
  - intros id' e0 r [_ Hl0]%lookup_delete_Some. by eapply Hhd.
Qed.

Lemma index_ok_checkActions now msgs s s' :
  index_ok None s → checkActions now msgs s = Some s' → index_ok None s'.
Proof.
  revert s. induction msgs as [|[id code] msgs IH]; intros s Hok Hc;
    simpl in Hc.
  { by simplify_eq. }
  case_bool_decide; [|done].
  match type of Hc with
  | (?m ≫= _) = _ => destruct m as [s1|] eqn:Hn
  end; simpl in Hc; [|done].
  apply (IH s1); [|done].
  eapply index_ok_completeRequestNormal; [|exact Hn].
  by eapply index_ok_ext; [..|exact Hok].
Qed.

(** One turn of the time's-up loop. *)
Lemma index_ok_timesup_turn now id s s1 s2 next :
  index_ok None s →
  completeRequestTimesup id s = Some s1 →
  removeTimesup now id s1 = Some (s2, next) →
  index_ok None s2.
Proof.
  intros Hok Hc Hr. apply index_ok_completeRequestTimesup in Hc; [|done].
  by apply index_ok_removeTimesup in Hr as [? _].
Qed.

Lemma index_ok_timesup_loop fuel now pos s s' :
  index_ok None s → timesup_loop fuel now pos s = Some s' →
  index_ok None s'.
Proof.
  revert pos s. induction fuel as [|fuel IH]; intros pos s Hok Hc;
    simpl in Hc.
  { done. }
  destruct (m_timesup s !! pos) as [[first id]|]; [|by simplify_eq].
  destruct (now <? first); [by simplify_eq|].
  destruct (completeRequestTimesup id s) as [s1|] eqn:Ht; simpl in Hc;
    [|done].
  destruct (removeTimesup now id s1) as [[s2 next]|] eqn:Hr; simpl in Hc;
    [|done].
  eapply IH; [|exact Hc]. by eapply index_ok_timesup_turn.
Qed.

(** [addTimesup] for an executor as it was queued. *)
Lemma index_ok_addTimesup now id request s s' :
  index_ok None s →
  heap s !! id = Some (Executor_make request id) →
  addTimesup now id s = Some s' →
  index_ok None s'.
Proof.
  intros Hok He Ha. pose proof Hok as [Hs Hn Hl Hr Hhd].
  unfold addTimesup in Ha. rewrite He in Ha; simpl in Ha.
  destruct (Request.Timesup request) as [b|] eqn:Hb; simpl in Ha;
    [|by simplify_eq].
  simplify_eq. apply index_ok_updateTimesup.
  set (tp := wrap64 (now + b)).
  apply (index_ok_ext _
           (set_executor id
              (with_timesup_iterator (Some tp) (Executor_make request id))
              (set_timesup (multimap_emplace tp id (m_timesup s)) s)));
    [done..|].
  assert (∀ entry, entry ∈ m_timesup s → entry.2 ≠ id) as Hne.
  { intros entry Hin Heq.
    eapply Forall_forall in Hl as (e0 & He0 & Hit0); [|exact Hin].
    rewrite Heq in He0. by simplify_eq. }
  destruct (Hhd id _ request He eq_refl) as [h Hh]; [by rewrite Hb|].
  split; simpl.
  - by apply multimap_emplace_sorted.
  - rewrite multimap_emplace_Permutation. simpl. apply NoDup_cons.
    split; [|done]. intros (entry & Heq & Hin)%list_elem_of_fmap.
    by apply (Hne entry Hin).
  - apply Forall_forall. intros entry [->|Hin]%elem_of_multimap_emplace.
    + eexists. simpl. by rewrite lookup_insert_eq.
    + eapply Forall_forall in Hl as (e0 & He0 & Hit0); [|exact Hin].
      exists e0. simpl. rewrite lookup_insert_ne; [done|].
      intros Heq. by apply (Hne entry Hin).
  - apply Forall_forall. intros entry [->|Hin]%elem_of_multimap_emplace.
    + right. eexists _, request, h, b. simpl. by rewrite lookup_insert_eq.
    + eapply Forall_forall in Hr as [?|(e0 & r & h0 & b0 & ? & ?)];
        [done| |exact Hin].
      right. exists e0, r, h0, b0. simpl. rewrite lookup_insert_ne; [done|].
      intros Heq. by apply (Hne entry Hin).
  - intros id' e0 r Hl0 Hr0 Hb0. destruct (decide (id = id')) as [<-|Hne'].
    + rewrite lookup_insert_eq in Hl0. simplify_eq. by eapply Hhd.
    + rewrite lookup_insert_ne in Hl0 by done. by eapply Hhd.
Qed.

Lemma timer_armed_ext s s' :
  m_timesup s' = m_timesup s → m_timesup_timer s' = m_timesup_timer s →
  timer_armed s → timer_armed s'.
Proof. unfold timer_armed. by intros -> ->. Qed.

Lemma timer_armed_updateTimesup now s : timer_armed (updateTimesup now s).
Proof.
  unfold timer_armed, updateTimesup.
  destruct (m_timesup s) as [|[first id] l] eqn:E; simpl; rewrite E; [done|].
  eexists _, _. split; [done|]. destruct (Z.ltb_spec now first); lia.
Qed.

Lemma rearmed_armed s s' : timer_armed s → rearmed s s' → timer_armed s'.
Proof. intros Ha [[? ?]|?]; [by eapply timer_armed_ext | done]. Qed.

Lemma rearmed_trans s1 s2 s3 : rearmed s1 s2 → rearmed s2 s3 → rearmed s1 s3.
Proof.
  intros [[Hi1 Ht1]|Ha] [[Hi2 Ht2]|Ha2]; try by right.
  - left. split; congruence.
  - right. by eapply timer_armed_ext.
Qed.

Lemma rearmed_same s s' :
  m_timesup s' = m_timesup s → m_timesup_timer s' = m_timesup_timer s →
  rearmed s s'.
Proof. by left. Qed.

Lemma rearmed_addTimesup now id s s' :
  addTimesup now id s = Some s' → rearmed s s'.
Proof.
  unfold addTimesup. intros Hc. run_in Hc; simplify_eq;
    try (by apply rearmed_same).
  right. apply timer_armed_updateTimesup.
Qed.

Lemma rearmed_removeTimesup now id s s' pos :
  removeTimesup now id s = Some (s', pos) → rearmed s s'.
Proof.
  unfold removeTimesup. intros Hc. run_in Hc; simplify_eq;
    try (by apply rearmed_same).
  right. apply timer_armed_updateTimesup.
Qed.

Lemma rearmed_completeRequestTimesup id s s' :
  completeRequestTimesup id s = Some s' → rearmed s s'.
Proof.
  unfold completeRequestTimesup. intros Hc. run_in Hc; simplify_eq;
    by apply rearmed_same.
Qed.

Lemma rearmed_deliverNormal now id status s s' :
  deliverNormal now id status s = Some s' → rearmed s s'.
Proof.
  unfold deliverNormal. intros Hc. run_in Hc; simplify_eq;
    try (by apply rearmed_same).
  match goal with E : removeTimesup _ _ _ = Some _ |- _ =>
    apply rearmed_removeTimesup in E end.
  eapply rearmed_trans; [|by apply rearmed_same].
  eapply rearmed_trans; [|eassumption]. by apply rearmed_same.
Qed.

Lemma rearmed_completeRequestNormal now id status s s' :
  completeRequestNormal now id status s = Some s' → rearmed s s'.
Proof.
  unfold completeRequestNormal. intros Hc. run_in Hc; simplify_eq.
  eapply rearmed_trans; [by eapply rearmed_deliverNormal|].
  by apply rearmed_same.
Qed.

Lemma rearmed_checkActions now msgs s s' :
  checkActions now msgs s = Some s' → rearmed s s'.
Proof.
  revert s. induction msgs as [|[id code] msgs IH]; intros s Hc; simpl in Hc.
  { simplify_eq. by apply rearmed_same. }
  case_bool_decide; [|done].
  match type of Hc with
  | (?m ≫= _) = _ => destruct m as [s1|] eqn:Hn
  end; simpl in Hc; [|done].
  apply rearmed_completeRequestNormal in Hn.
  eapply rearmed_trans; [|by apply IH].
  eapply rearmed_trans; [|exact Hn]. by apply rearmed_same.
Qed.

Lemma index_inv_new : index_inv new.
Proof.
  split; [split|]; simpl; try done; constructor.
Qed.

Lemma index_inv_StartRequest request s :
  queues_ok s →
  budget_has_handler (Submit request) = true →
  index_inv s → index_inv (StartRequest request s).2.
Proof.
  intros Hq Hb [Hok Harmed]. unfold StartRequest.
  destruct (m_is_stopping s); simpl; [done|].
  split; [|by eapply timer_armed_ext].
  destruct Hok as [Hs Hn Hl Hr Hhd].
  assert (∀ entry, entry ∈ m_timesup s → entry.2 ≠ next_executor s) as Hne.
  { intros entry Hin Heq.
    destruct Hq as [_ (drained & Hfifo & _ & Hidx) _ _ Hbelow].
    specialize (Hbelow entry.2). rewrite Hfifo in Hbelow.
    assert (entry.2 < next_executor s)%nat; [|lia].
    apply Hbelow, elem_of_app. left. by apply Hidx. }
  split; simpl; try done.
  - apply Forall_forall. intros entry Hin.
    eapply Forall_forall in Hl as (e0 & He0 & Hit0); [|exact Hin].
    exists e0. simpl. rewrite lookup_insert_ne; [done|].
    intros Heq. by apply (Hne entry Hin).
  - apply Forall_forall. intros entry Hin.
    eapply Forall_forall in Hr as [?|(e0 & r & h0 & b0 & ? & ?)];
      [done| |exact Hin].
    right. exists e0, r, h0, b0. simpl. rewrite lookup_insert_ne; [done|].
    intros Heq. by apply (Hne entry Hin).
  - intros id' e0 r Hl0 Hr0 Hb0.
    destruct (decide (next_executor s = id')) as [<-|Hne'].
    + rewrite lookup_insert_eq in Hl0. simplify_eq. simpl in *.
      simplify_eq. unfold budget_has_handler in Hb.
      destruct Hb0 as [b Hb0]. rewrite Hb0 in Hb.
      by destruct (m_on_complete_handler _).
    + rewrite lookup_insert_ne in Hl0 by done. by eapply Hhd.
Qed.

Lemma index_inv_checkActions now msgs s s' :
  index_inv s → checkActions now msgs s = Some s' → index_inv s'.
Proof.
  intros [Hok Ha] Hc. split; [by eapply index_ok_checkActions|].
  eapply rearmed_armed; [exact Ha | by eapply rearmed_checkActions].
Qed.

Lemma index_inv_accept now codes completions s s' :
  queues_ok s → index_inv s →
  on_uv_requests_accept_async now codes completions s = Some s' →
  index_inv s'.
Proof.
  intros Hq Hinv Hc.
  eapply (on_uv_requests_accept_async_spec index_inv); [..|exact Hc];
    try done.
  - intros s0 id request s1 [Hok Ha] He Hadd.
    split; [by eapply index_ok_addTimesup|].
    eapply rearmed_armed; [exact Ha | by eapply rearmed_addTimesup].
  - intros s0 s1 [Hok Ha] Hi Hh Ht.
    split; [by eapply index_ok_ext | by eapply timer_armed_ext].
  - intros s0 id status s1 [Hok Ha] Hn.
    split; [by eapply index_ok_completeRequestNormal|].
    eapply rearmed_armed; [exact Ha | by eapply rearmed_completeRequestNormal].
  - intros s0 msgs s1. apply index_inv_checkActions.
Qed.

Lemma timesup_delivery_heap s s' entry evs :
  heap s' !! entry.2 = heap s !! entry.2 →
  timesup_delivery s' entry evs → timesup_delivery s entry evs.
Proof. unfold timesup_delivery. by intros ->. Qed.

Lemma updateTimesup_timer_for now s :
  m_timesup_timer (updateTimesup now s) = timer_for now (m_timesup s)
  ∧ m_timesup (updateTimesup now s) = m_timesup s
  ∧ heap (updateTimesup now s) = heap s
  ∧ trace (updateTimesup now s) = trace s.
Proof. unfold updateTimesup, timer_for. by repeat case_match. Qed.

(** One turn of the time's-up loop at the front of the index. *)
Lemma timesup_turn now s k id rest :
  index_ok None s →
  m_timesup s = (k, id) :: rest →
  ∃ s1 s2 evs,
    completeRequestTimesup id s = Some s1
    ∧ removeTimesup now id s1 = Some (s2, 0%nat)
    ∧ m_timesup s2 = rest
    ∧ m_timesup_timer s2 = timer_for now rest
    ∧ trace s2 = trace s ++ evs
    ∧ timesup_delivery s (k, id) evs
    ∧ ∀ id', id' ≠ id → heap s2 !! id' = heap s !! id'.
Proof.
  intros [_ _ Hl Hr _] Hidx. rewrite Hidx in Hl, Hr.
  apply Forall_cons in Hl as [(e & He & Hit) _].
  apply Forall_cons in Hr as [[?|(e' & r & h & b & He' & Hflag & Hreq & Hh
                                   & Hb)] _]; [done|].
  simpl in *. rewrite He in He'. injection He' as <-.
  unfold completeRequestTimesup. rewrite He; simpl.
  rewrite Hflag, Hreq; simpl. rewrite Hh, Hb; simpl.
  eexists _, _, _. split; [done|].
  unfold removeTimesup. simpl. rewrite lookup_insert_eq; simpl.
  rewrite Hit, Hidx; simpl. rewrite bool_decide_eq_true_2 by done. simpl.
  split; [done|].
  match goal with |- context [updateTimesup now ?s0] =>
    destruct (updateTimesup_timer_for now s0) as (-> & -> & -> & ->) end.
  simpl. split; [done|]. split; [done|]. split.
  { by rewrite <- app_assoc. }
  split.
  - eexists e, r, h, b, _. simpl. by rewrite He.
  - intros id' Hne. by rewrite !lookup_insert_ne.
Qed.

Lemma timesup_loop_prunes fuel now s :
  index_ok None s →
  (length (m_timesup s) < fuel)%nat →
  ∃ s' expired evss,
    timesup_loop fuel now 0 s = Some s'
    ∧ m_timesup s = expired ++ m_timesup s'
    ∧ Forall (λ entry, entry.1 ≤ now) expired
    ∧ Forall (λ entry, now < entry.1) (m_timesup s')
    ∧ trace s' = trace s ++ concat evss
    ∧ Forall2 (timesup_delivery s) expired evss
    ∧ (expired = [] → s' = s)
    ∧ (expired ≠ [] →
       m_timesup_timer s' = timer_for now (m_timesup s'))
    ∧ index_ok None s'.
Proof.
  revert s. induction fuel as [|fuel IH]; intros s Hok Hfuel; [lia|].
  simpl. destruct (m_timesup s) as [|[k id] rest] eqn:Hidx; simpl.
  { exists s, [], []. rewrite Hidx.
    split_and!; simpl; rewrite ?app_nil_r; try done; constructor. }
  destruct (Z.ltb_spec now k) as [Hlt|Hle].
  { exists s, [], []. rewrite Hidx.
    split_and!; simpl; rewrite ?app_nil_r; try done; try (by constructor).
    destruct Hok as [Hs _ _ _ _]. rewrite Hidx in Hs.
    apply StronglySorted_cons in Hs as [Hall _].
    constructor; [done|]. eapply Forall_impl; [exact Hall|].
    simpl. intros; lia. }
  destruct (timesup_turn now s k id rest Hok Hidx)
    as (s1 & s2 & evs & Hc & Hrm & Hidx2 & Htimer & Htr & Hdel & Hheap).
  rewrite Hc; simpl. rewrite Hrm; simpl.
  assert (index_ok None s2) as Hok2 by (by eapply index_ok_timesup_turn).
  destruct (IH s2 Hok2) as
    (s' & expired & evss & Hloop & Hsplit & Hexp & Hfut & Htr' & Hall & Hnil
     & Hcons & Hok'); [rewrite Hidx2; simpl in Hfuel; lia|].
  exists s', ((k, id) :: expired), (evs :: evss).
  split; [done|]. split; [by rewrite <- Hidx2, Hsplit|].
  split; [by constructor|]. split; [done|].
  split; [by rewrite Htr', Htr, <- app_assoc|]. split; [|split; [done|split]].
  - constructor; [done|].
    assert (∀ entry, entry ∈ expired → entry.2 ≠ id) as Hne.
    { intros entry Hin Heq. destruct Hok as [_ Hn _ _ _].
      rewrite Hidx in Hn. simpl in Hn. apply NoDup_cons in Hn as [Hn _].
      apply Hn, list_elem_of_fmap. exists entry. split; [done|].
      rewrite <- Hidx2, Hsplit. apply elem_of_app. by left. }
    clear -Hall Hne Hheap.
    induction Hall as [|entry evs' expired evss Hd _ IHall];
      constructor.
    + eapply timesup_delivery_heap; [|exact Hd].
      apply Hheap, Hne, elem_of_cons. by left.
    + apply IHall. intros entry' Hin. apply Hne, elem_of_cons. by right.
  - intros _. destruct expired as [|x expired].
    + rewrite (Hnil eq_refl), Htimer. by rewrite Hidx2.
    + by apply Hcons.
  - done.
Qed.

(** The callback as the loop runs it when the timer is due. *)
Lemma fired_prunes now s started timeout :
  index_inv s →
  m_timesup_timer s = Some (started, timeout) →
  started + timeout ≤ now →
  ∃ s' expired evss,
    io_step (TimesupFired now) s = Some s'
    ∧ expired ≠ []
    ∧ m_timesup s = expired ++ m_timesup s'
    ∧ Forall (λ entry, entry.1 ≤ now) expired
    ∧ Forall (λ entry, now < entry.1) (m_timesup s')
    ∧ trace s' = trace s ++ concat evss
    ∧ Forall2 (timesup_delivery s) expired evss
    ∧ m_timesup_timer s' = timer_for now (m_timesup s')
    ∧ index_inv s'.
Proof.
  intros [Hok Harmed] Htimer Hdue.
  assert (io_step (TimesupFired now) s
          = timesup_loop (S (length (m_timesup s))) now 0
              (set_timesup_timer None s)) as ->.
  { simpl. rewrite Htimer.
    destruct (Z.leb_spec (started + timeout) now); [|lia].
    unfold on_uv_timesup_callback, timer_armed in *. simpl.
    destruct (m_timesup s); [by rewrite Htimer in Harmed | done]. }
  unfold timer_armed in Harmed.
  destruct (m_timesup s) as [|[first id] rest] eqn:Hidx.
  { by rewrite Htimer in Harmed. }
  destruct Harmed as (st & to & Ht & Hfirst). rewrite Htimer in Ht.
  simplify_eq.
  destruct (timesup_loop_prunes (S (length ((first, id) :: rest))) now
              (set_timesup_timer None s))
    as (s' & expired & evss & Hloop & Hsplit & Hexp & Hfut & Htr & Hall
        & Hnil & Hcons & Hok').
  { by eapply index_ok_ext; [..|exact Hok]. }
  { simpl. rewrite Hidx. simpl. lia. }
  simpl in Hsplit, Htr, Hall. rewrite Hidx in Hsplit.
  assert (expired ≠ []) as Hne.
  { intros ->. simpl in Hsplit. rewrite <- Hsplit in Hfut.
    apply Forall_cons in Hfut as [Hfut _]. simpl in Hfut. lia. }
  exists s', expired, evss. split; [exact Hloop|]. split; [done|].
  split; [done|]. split; [done|]. split; [done|]. split; [done|].
  split; [done|]. split; [by apply Hcons|]. split; [done|].
  unfold timer_armed. rewrite (Hcons Hne). unfold timer_for.
  destruct (m_timesup s') as [|[k id'] l']; [done|].
  eexists _, _. split; [done|].
  apply Forall_cons in Hfut as [Hfut _]. simpl in Hfut.
  destruct (Z.ltb_spec now k); lia.
Qed.

Lemma index_inv_io_step ev s s' :
  queues_ok s → index_inv s → io_step ev s = Some s' → index_inv s'.
Proof.
  intros Hq Hinv Hs. destruct ev as [now codes completions|now msgs|now].
  - by eapply index_inv_accept.
  - by eapply index_inv_checkActions.
  - pose proof Hs as Hs'. simpl in Hs'.
    destruct (m_timesup_timer s) as [[started timeout]|] eqn:Ht; [|done].
    destruct (Z.leb_spec (started + timeout) now); [|done].
    destruct (fired_prunes now s started timeout Hinv Ht)
      as (s'' & _ & _ & Hs'' & _ & _ & _ & _ & _ & _ & _ & Hinv'); [done|].
    rewrite Hs in Hs''. by simplify_eq.
Qed.

(** Every loop run from a new one, with no budget submitted without a
    handler, has its queues and its timer index in order. *)
Lemma index_inv_run actions s :
  run actions new = Some s →
  forallb budget_has_handler actions = true →
  queues_ok s ∧ index_inv s.
Proof.
  assert (∀ s0, queues_ok s0 → index_inv s0 →
                run actions s0 = Some s →
                forallb budget_has_handler actions = true →
                queues_ok s ∧ index_inv s) as Hgen.
  { induction actions as [|a actions IH]; intros s0 Hq Hinv Hr Hb;
      simpl in Hr.
    { by simplify_eq. }
    destruct (step a s0) as [s1|] eqn:Hs; simpl in Hr; [|done].
    simpl in Hb. apply andb_prop in Hb as [Ha Hb].
    apply (IH s1); try done.
    - eapply (queues_ok_run [a]); [exact Hq|]. simpl. by rewrite Hs.
    - destruct a as [request| |ev]; simpl in Hs.
      + simplify_eq. by apply index_inv_StartRequest.
      + simplify_eq. destruct Hinv as [Hok Harmed].
        split; [by eapply index_ok_ext; [..|exact Hok]|].
        by eapply timer_armed_ext; [..|exact Harmed].
      + by eapply index_inv_io_step. }
  intros Hr Hb. by apply (Hgen new queues_ok_new index_inv_new).
Qed.

End TimerIndexProps.

(** * The time's-up callback in any run *)

Section ExpiryProps.
Context `{ExecutorOps}.
Import EventLoop Delivery Footprint TimerIndex Expiry.
Implicit Types (s : Loop) (id : nat) (now : Z) (busy : option nat).
Implicit Types (entry : Z * nat) (l : list (Z * nat)).

(** [index_kept] reads the index and the heap only. *)
Lemma index_kept_ext busy s s' :
  m_timesup s' = m_timesup s → heap s' = heap s →
  index_kept busy s → index_kept busy s'.
Proof.
  intros Hi Hh [Hs Hn Hl Hr].
  split; unfold entry_kept, entry_waiting in *; rewrite ?Hi, ?Hh; done.
Qed.

Lemma index_kept_updateTimesup busy now s :
  index_kept busy s → index_kept busy (updateTimesup now s).
Proof.
  destruct (updateTimesup_timer now s) as [t ->]. by apply index_kept_ext.
Qed.

Lemma index_kept_busy id s : index_kept None s → index_kept (Some id) s.
Proof.
  intros [Hs Hn Hl Hr]. split; try done.
  eapply Forall_impl; [exact Hr|]. intros entry [?|?]; [done | by right].
Qed.

Lemma index_kept_idle id s :
  index_kept (Some id) s → id ∉ (m_timesup s).*2 → index_kept None s.
Proof.
  intros [Hs Hn Hl Hr] Hid. split; try done.
  apply Forall_forall. intros entry Hin.
  eapply Forall_forall in Hr as [Heq|?]; [|by right|done].
  exfalso. apply Hid. simplify_eq. apply list_elem_of_fmap. by exists entry.
Qed.

(** A write to the busy executor that keeps its iterator. *)
Lemma index_kept_set_executor id e e' s :
  heap s !! id = Some e →
  m_timesup_iterator e' = m_timesup_iterator e →
  index_kept (Some id) s → index_kept (Some id) (set_executor id e' s).
Proof.
  intros He Hit [Hs Hn Hl Hr]. split; simpl; try done.
  - eapply Forall_impl; [exact Hl|]. intros entry Hk e0. simpl.
    destruct (decide (id = entry.2)) as [Heq|Hne].
    + rewrite <- Heq in *. rewrite lookup_insert_eq. intros ?; simplify_eq.
      rewrite Hit. by apply Hk.
    + rewrite lookup_insert_ne by done. apply Hk.
  - eapply Forall_impl; [exact Hr|]. intros entry [Hb|Hw]; [by left|].
    destruct (decide (id = entry.2)) as [Heq|Hne]; [left; by rewrite Heq|].
    right. intros e0. simpl. rewrite lookup_insert_ne by done. apply Hw.
Qed.

(** [removeTimesup] for the busy executor: its entry is gone afterwards. *)
Lemma index_kept_removeTimesup now id s s' pos :
  index_kept (Some id) s →
  removeTimesup now id s = Some (s', pos) →
  index_kept None s' ∧ id ∉ (m_timesup s').*2.
Proof.
  intros Hok Hrm. pose proof Hok as [Hs Hn Hl Hr].
  unfold removeTimesup in Hrm.
  destruct (heap s !! id) as [e|] eqn:He; simpl in Hrm; [|done].
  destruct (m_timesup_iterator e) as [k|] eqn:Hit.
  - destruct (multimap_position k id (m_timesup s)) as [p|] eqn:Hpos;
      simpl in Hrm; [|done].
    injection Hrm as <- <-.
    apply multimap_position_split in Hpos as (l1 & l2 & Hidx & Hdel & _).
    assert (id ∉ (l1 ++ l2).*2) as Hgone.
    { rewrite Hidx in Hn. rewrite fmap_app in *. simpl in Hn.
      apply NoDup_app in Hn as (_ & Hdis & Hn2).
      apply NoDup_cons in Hn2 as [Hn2 _].
      intros [Hin|Hin]%elem_of_app; [|done].
      apply (Hdis id Hin). apply elem_of_cons. by left. }
    split.
    2:{ destruct (updateTimesup_timer now
                    (emit [EvTimesupErase id]
                       (set_executor id (with_timesup_iterator None e)
                          (set_timesup (delete p (m_timesup s)) s))))
          as [t ->].
        simpl. by rewrite Hdel. }
    apply index_kept_updateTimesup.
    apply (index_kept_idle id).
    2:{ simpl. by rewrite Hdel. }
    apply (index_kept_ext _
             (set_executor id (with_timesup_iterator None e)
                (set_timesup (delete p (m_timesup s)) s))); [done..|].
    rewrite Hdel. rewrite Hidx in Hs, Hn, Hl, Hr.
    assert (∀ entry, entry ∈ l1 ++ l2 → entry.2 ≠ id) as Hne.
    { intros entry Hin Heq. apply Hgone, list_elem_of_fmap.
      exists entry. by rewrite Heq. }
    assert (∀ entry, entry ∈ l1 ++ l2 → entry ∈ l1 ++ (k, id) :: l2)
      as Hsub.
    { intros entry [?|?]%elem_of_app; apply elem_of_app; [by left|].
      right. apply elem_of_cons. by right. }
    split; simpl.
    + apply StronglySorted_app in Hs as (Hall & Hs1 & Hs2).
      apply StronglySorted_cons in Hs2 as [_ Hs2].
      apply StronglySorted_app. split; [|done].
      intros x1 x2 H1 H2. apply Hall; [done|]. apply elem_of_cons. by right.
    + rewrite fmap_app in *. simpl in Hn.
      apply NoDup_app in Hn as (Hn1 & Hdis & Hn2).
      apply NoDup_cons in Hn2 as [_ Hn2].
      apply NoDup_app. split; [done|]. split; [|done].
      intros x H1 H2. apply (Hdis x H1). apply elem_of_cons. by right.
    + apply Forall_forall. intros entry Hin e0. simpl.
      rewrite lookup_insert_ne by (intros Heq; by apply (Hne entry Hin)).
      eapply Forall_forall in Hl; [apply Hl|]. by apply Hsub.
    + apply Forall_forall. intros entry Hin.
      eapply Forall_forall in Hr as [Hb|Hw]; [| |by apply Hsub].
      { exfalso. apply (Hne entry Hin). by simplify_eq. }
      right. intros e0. simpl.
      rewrite lookup_insert_ne by (intros Heq; by apply (Hne entry Hin)).
      apply Hw.
  - simplify_eq.
    assert (id ∉ (m_timesup s').*2) as Hgone.
    { intros (entry & -> & Hin)%list_elem_of_fmap.
      eapply Forall_forall in Hl; [|exact Hin].
      specialize (Hl e He). by rewrite Hit in Hl. }
    split; [|done]. by apply (index_kept_idle id).
Qed.

Lemma index_kept_completeRequestTimesup id s s' :
  index_kept None s →
  completeRequestTimesup id s = Some s' →
  index_kept (Some id) s'.
Proof.
  intros Hok Hc. apply (index_kept_busy id) in Hok.
  unfold completeRequestTimesup in Hc.
  destruct (heap s !! id) as [e|] eqn:He; simpl in Hc; [|done].
  run_in Hc; simplify_eq; try done.
  eapply index_kept_ext;
    [| |eapply (index_kept_set_executor id e); [done| |exact Hok]];
    done.
Qed.

Lemma index_kept_deliverNormal now id status s s' :
  index_kept None s →
  deliverNormal now id status s = Some s' →
  index_kept None s'.
Proof.
  intros Hok Hc. unfold deliverNormal in Hc.
  destruct (heap s !! id) as [e|] eqn:He; simpl in Hc; [|done].
  destruct (m_on_complete_callback_called e) eqn:Hflag; [by simplify_eq|].
  destruct (m_request_async e) as [r|] eqn:Hr; simpl in Hc; [|done].
  destruct (m_on_complete_handler r) as [h|] eqn:Hh; [|by simplify_eq].
  match type of Hc with
  | context [removeTimesup now id ?s1] =>
      destruct (removeTimesup now id s1) as [[s2 pos]|] eqn:Hrm
  end; simpl in Hc; [|done].
  destruct (heap s2 !! id) as [e2|] eqn:He2; simpl in Hc; [|done].
  simplify_eq.
  apply index_kept_removeTimesup in Hrm as [Hok2 Hgone].
  2:{ eapply (index_kept_set_executor id e); [done..|].
      by apply index_kept_busy. }
  apply (index_kept_idle id); [|done].
  eapply index_kept_ext;
    [| |eapply (index_kept_set_executor id e2);
         [done| |by apply index_kept_busy]];
    done.
Qed.

(** The executor is destroyed: what was kept of its entry, if it has one,
    holds of an executor that is gone. *)
Lemma index_kept_completeRequestNormal now id status s s' :
  index_kept None s →
  completeRequestNormal now id status s = Some s' →
  index_kept None s'.
Proof.
  intros Hok Hc. unfold completeRequestNormal in Hc.
  destruct (deliverNormal now id status s) as [s1|] eqn:Hd; simpl in Hc;
    [|done].
  simplify_eq.
  apply index_kept_deliverNormal in Hd as [Hs Hn Hl Hr]; [|done].
  split; simpl; try done.
  - eapply Forall_impl; [exact Hl|]. intros entry Hk e0. simpl.
    intros [_ Hl0]%lookup_delete_Some. by apply Hk.
  - eapply Forall_impl; [exact Hr|]. intros entry [?|Hw]; [done|].
    right. intros e0. simpl. intros [_ Hl0]%lookup_delete_Some.
    by apply Hw.
Qed.

Lemma index_kept_checkActions now msgs s s' :
  index_kept None s → checkActions now msgs s = Some s' →
  index_kept None s'.
Proof.
  revert s. induction msgs as [|[id code] msgs IH]; intros s Hok Hc;
    simpl in Hc.
  { by simplify_eq. }
  case_bool_decide; [|done].
  match type of Hc with
  | (?m ≫= _) = _ => destruct m as [s1|] eqn:Hn
  end; simpl in Hc; [|done].
  apply (IH s1); [|done].
  eapply index_kept_completeRequestNormal; [|exact Hn].
  by eapply index_kept_ext; [..|exact Hok].
Qed.

(** [addTimesup] for an executor as it was queued. *)
Lemma index_kept_addTimesup now id request s s' :
  index_kept None s →
  heap s !! id = Some (Executor_make request id) →
  addTimesup now id s = Some s' →
  index_kept None s'.
Proof.
  intros Hok He Ha. pose proof Hok as [Hs Hn Hl Hr].
  unfold addTimesup in Ha. rewrite He in Ha; simpl in Ha.
  destruct (Request.Timesup request) as [b|] eqn:Hb; simpl in Ha;
    [|by simplify_eq].
  simplify_eq. apply index_kept_updateTimesup.
  set (tp := wrap64 (now + b)).
  apply (index_kept_ext _
           (set_executor id
              (with_timesup_iterator (Some tp) (Executor_make request id))
              (set_timesup (multimap_emplace tp id (m_timesup s)) s)));
    [done..|].
  assert (∀ entry, entry ∈ m_timesup s → entry.2 ≠ id) as Hne.
  { intros entry Hin Heq.
    eapply Forall_forall in Hl; [|exact Hin].
    rewrite <- Heq in He. by specialize (Hl _ He). }
  split; simpl.
  - by apply multimap_emplace_sorted.
  - rewrite multimap_emplace_Permutation. simpl. apply NoDup_cons.
    split; [|done]. intros (entry & Heq & Hin)%list_elem_of_fmap.
    by apply (Hne entry Hin).
  - apply Forall_forall. intros entry [->|Hin]%elem_of_multimap_emplace e0;
      simpl.
    + rewrite lookup_insert_eq. by intros ?; simplify_eq.
    + rewrite lookup_insert_ne by (intros Heq; by apply (Hne entry Hin)).
      eapply Forall_forall in Hl; [apply Hl|done].
  - apply Forall_forall. intros entry [->|Hin]%elem_of_multimap_emplace.
    + right. intros e0. simpl. rewrite lookup_insert_eq.
      intros ?; simplify_eq. split; [done|]. by exists request, b.
    + eapply Forall_forall in Hr as [?|Hw]; [done| |exact Hin].
      right. intros e0. simpl.
      rewrite lookup_insert_ne by (intros Heq; by apply (Hne entry Hin)).
      apply Hw.
Qed.

Lemma kept_inv_new : kept_inv new.
Proof. split; [split|]; simpl; try done; constructor. Qed.

Lemma kept_inv_StartRequest request s :
  queues_ok s → kept_inv s → kept_inv (StartRequest request s).2.
Proof.
  intros Hq [Hok Harmed]. unfold StartRequest.
  destruct (m_is_stopping s); simpl; [done|].
  split; [|by eapply timer_armed_ext].
  destruct Hok as [Hs Hn Hl Hr].
  assert (∀ entry, entry ∈ m_timesup s → entry.2 ≠ next_executor s) as Hne.
  { intros entry Hin Heq.
    destruct Hq as [_ (drained & Hfifo & _ & Hidx) _ _ Hbelow].
    specialize (Hbelow entry.2). rewrite Hfifo in Hbelow.
    assert (entry.2 < next_executor s)%nat; [|lia].
    apply Hbelow, elem_of_app. left. by apply Hidx. }
  split; simpl; try done.
  - apply Forall_forall. intros entry Hin e0. simpl.
    rewrite lookup_insert_ne by (intros Heq; by apply (Hne entry Hin)).
    eapply Forall_forall in Hl; [apply Hl|done].
  - apply Forall_forall. intros entry Hin.
    eapply Forall_forall in Hr as [?|Hw]; [done| |exact Hin].
    right. intros e0. simpl.
    rewrite lookup_insert_ne by (intros Heq; by apply (Hne entry Hin)).
    apply Hw.
Qed.

Lemma kept_inv_checkActions now msgs s s' :
  kept_inv s → checkActions now msgs s = Some s' → kept_inv s'.
Proof.
  intros [Hok Ha] Hc. split; [by eapply index_kept_checkActions|].
  eapply rearmed_armed; [exact Ha | by eapply rearmed_checkActions].
Qed.

Lemma kept_inv_accept now codes completions s s' :
  queues_ok s → kept_inv s →
  on_uv_requests_accept_async now codes completions s = Some s' →
  kept_inv s'.
Proof.
  intros Hq Hinv Hc.
  eapply (on_uv_requests_accept_async_spec kept_inv); [..|exact Hc];
    try done.
  - intros s0 id request s1 [Hok Ha] He Hadd.
    split; [by eapply index_kept_addTimesup|].
    eapply rearmed_armed; [exact Ha | by eapply rearmed_addTimesup].
  - intros s0 s1 [Hok Ha] Hi Hh Ht.
    split; [by eapply index_kept_ext | by eapply timer_armed_ext].
  - intros s0 id status s1 [Hok Ha] Hn.
    split; [by eapply index_kept_completeRequestNormal|].
    eapply rearmed_armed; [exact Ha | by eapply rearmed_completeRequestNormal].
  - intros s0 msgs s1. apply kept_inv_checkActions.
Qed.

Lemma timesup_outcome_heap s s' entry evs :
  heap s' !! entry.2 = heap s !! entry.2 →
  timesup_outcome s' entry evs → timesup_outcome s entry evs.
Proof. unfold timesup_outcome. by intros ->. Qed.

(** One turn of the time's-up loop at the front of the index, for an
    executor that is alive. *)
Lemma expiry_turn now s k id rest :
  index_kept None s →
  m_timesup s = (k, id) :: rest →
  is_Some (heap s !! id) →
  ∃ s1 s2 evs,
    completeRequestTimesup id s = Some s1
    ∧ removeTimesup now id s1 = Some (s2, 0%nat)
    ∧ m_timesup s2 = rest
    ∧ m_timesup_timer s2 = timer_for now rest
    ∧ trace s2 = trace s ++ evs
    ∧ timesup_outcome s (k, id) evs
    ∧ index_kept None s2
    ∧ ∀ id', id' ≠ id → heap s2 !! id' = heap s !! id'.
Proof.
  intros Hok Hidx [e He]. pose proof Hok as [_ _ Hl Hr].
  rewrite Hidx in Hl, Hr.
  apply Forall_cons in Hl as [Hit _]. specialize (Hit e He).
  apply Forall_cons in Hr as [[?|Hw] _]; [done|].
  destruct (Hw e He) as (Hflag & r & b & Hreq & Hb). simpl in *.
  assert (∃ s1 evs1,
            completeRequestTimesup id s = Some s1
            ∧ m_timesup s1 = m_timesup s
            ∧ trace s1 = trace s ++ evs1
            ∧ (∃ e1, heap s1 !! id = Some e1
                     ∧ m_timesup_iterator e1 = Some k)
            ∧ (∀ id', id' ≠ id → heap s1 !! id' = heap s !! id')
            ∧ timesup_outcome s (k, id) (evs1 ++ [EvTimesupErase id]))
    as (s1 & evs1 & Hc & Hidx1 & Htr1 & (e1 & He1 & Hit1) & Hheap1 & Hout).
  { unfold completeRequestTimesup. rewrite He; simpl.
    rewrite Hflag, Hreq; simpl.
    destruct (m_on_complete_handler r) as [h|] eqn:Hh.
    - rewrite Hb; simpl. eexists _, [_]. split; [done|]. simpl.
      split; [done|]. split; [done|]. split.
      { eexists. by rewrite lookup_insert_eq. }
      split.
      { intros id' Hne. by rewrite lookup_insert_ne. }
      exists e, r, b. simpl. rewrite He, Hh. split_and!; try done.
      by eexists.
    - exists s, []. rewrite app_nil_r. split_and!; try done.
      { by exists e. }
      exists e, r, b. simpl. by rewrite He, Hh. }
  assert (index_kept (Some id) s1) as Hok1
    by (by eapply index_kept_completeRequestTimesup).
  assert (removeTimesup now id s1
          = Some (updateTimesup now
                    (emit [EvTimesupErase id]
                       (set_executor id (with_timesup_iterator None e1)
                          (set_timesup rest s1))), 0%nat)) as Hrm.
  { unfold removeTimesup. rewrite He1; simpl. rewrite Hit1, Hidx1, Hidx.
    simpl. by rewrite bool_decide_eq_true_2 by done. }
  eexists s1, _, _. split; [done|]. split; [exact Hrm|].
  match goal with |- context [updateTimesup now ?s0] =>
    destruct (updateTimesup_timer_for now s0) as (-> & -> & -> & ->) end.
  simpl. split; [done|]. split; [done|]. split.
  { by rewrite Htr1, <- app_assoc. }
  split; [done|]. split.
  - by apply index_kept_removeTimesup in Hrm as [? _].
  - intros id' Hne. rewrite lookup_insert_ne by done. by apply Hheap1.
Qed.

Lemma expiry_loop fuel now s :
  index_kept None s →
  (∀ entry, entry ∈ m_timesup s → entry.1 ≤ now →
            is_Some (heap s !! entry.2)) →
  (length (m_timesup s) < fuel)%nat →
  ∃ s' expired evss,
    timesup_loop fuel now 0 s = Some s'
    ∧ m_timesup s = expired ++ m_timesup s'
    ∧ Forall (λ entry, entry.1 ≤ now) expired
    ∧ Forall (λ entry, now < entry.1) (m_timesup s')
    ∧ trace s' = trace s ++ concat evss
    ∧ Forall2 (timesup_outcome s) expired evss
    ∧ (expired = [] → s' = s)
    ∧ (expired ≠ [] →
       m_timesup_timer s' = timer_for now (m_timesup s'))
    ∧ index_kept None s'.
Proof.
  revert s. induction fuel as [|fuel IH]; intros s Hok Hlive Hfuel; [lia|].
  simpl. destruct (m_timesup s) as [|[k id] rest] eqn:Hidx; simpl.
  { exists s, [], []. rewrite Hidx.
    split_and!; simpl; rewrite ?app_nil_r; try done; constructor. }
  destruct (Z.ltb_spec now k) as [Hlt|Hle].
  { exists s, [], []. rewrite Hidx.
    split_and!; simpl; rewrite ?app_nil_r; try done; try (by constructor).
    destruct Hok as [Hs _ _ _]. rewrite Hidx in Hs.
    apply StronglySorted_cons in Hs as [Hall _].
    constructor; [done|]. eapply Forall_impl; [exact Hall|].
    simpl. intros; lia. }
  destruct (expiry_turn now s k id rest Hok Hidx)
    as (s1 & s2 & evs & Hc & Hrm & Hidx2 & Htimer & Htr & Hdel & Hok2
        & Hheap).
  { apply (Hlive (k, id)); [|done]. apply elem_of_cons. by left. }
  rewrite Hc; simpl. rewrite Hrm; simpl.
  assert (∀ entry, entry ∈ rest → entry.2 ≠ id) as Hne.
  { intros entry Hin Heq. destruct Hok as [_ Hn _ _].
    rewrite Hidx in Hn. simpl in Hn. apply NoDup_cons in Hn as [Hn _].
    apply Hn, list_elem_of_fmap. by exists entry. }
  destruct (IH s2 Hok2) as
    (s' & expired & evss & Hloop & Hsplit & Hexp & Hfut & Htr' & Hall & Hnil
     & Hcons & Hok').
  { rewrite Hidx2. intros entry Hin Hdue. rewrite Hheap by by apply Hne.
    apply Hlive; [|done]. apply elem_of_cons. by right. }
  { rewrite Hidx2; simpl in Hfuel; lia. }
  exists s', ((k, id) :: expired), (evs :: evss).
  split; [done|]. split; [by rewrite <- Hidx2, Hsplit|].
  split; [by constructor|]. split; [done|].
  split; [by rewrite Htr', Htr, <- app_assoc|]. split; [|split; [done|split]].
  - constructor; [done|].
    assert (∀ entry, entry ∈ expired → entry.2 ≠ id) as Hne'.
    { intros entry Hin. apply Hne. rewrite <- Hidx2, Hsplit.
      apply elem_of_app. by left. }
    clear -Hall Hne' Hheap.
    induction Hall as [|entry evs' expired evss Hd _ IHall];
      constructor.
    + eapply timesup_outcome_heap; [|exact Hd].
      apply Hheap, Hne', elem_of_cons. by left.
    + apply IHall. intros entry' Hin. apply Hne', elem_of_cons. by right.
  - intros _. destruct expired as [|x expired].
    + rewrite (Hnil eq_refl), Htimer. by rewrite Hidx2.
    + by apply Hcons.
  - done.
Qed.

(** The callback as the loop runs it when the timer is due. *)
Lemma expiry_fired now s started timeout :
  kept_inv s →
  m_timesup_timer s = Some (started, timeout) →
  started + timeout ≤ now →
  (∀ entry, entry ∈ m_timesup s → entry.1 ≤ now →
            is_Some (heap s !! entry.2)) →
  ∃ s' expired evss,
    io_step (TimesupFired now) s = Some s'
    ∧ expired ≠ []
    ∧ m_timesup s = expired ++ m_timesup s'
    ∧ Forall (λ entry, entry.1 ≤ now) expired
    ∧ Forall (λ entry, now < entry.1) (m_timesup s')
    ∧ trace s' = trace s ++ concat evss
    ∧ Forall2 (timesup_outcome s) expired evss
    ∧ m_timesup_timer s' = timer_for now (m_timesup s')
    ∧ kept_inv s'.
Proof.
  intros [Hok Harmed] Htimer Hdue Hlive.
  assert (io_step (TimesupFired now) s
          = timesup_loop (S (length (m_timesup s))) now 0
              (set_timesup_timer None s)) as ->.
  { simpl. rewrite Htimer.
    destruct (Z.leb_spec (started + timeout) now); [|lia].
    unfold on_uv_timesup_callback, timer_armed in *. simpl.
    destruct (m_timesup s); [by rewrite Htimer in Harmed | done]. }
  unfold timer_armed in Harmed.
  destruct (m_timesup s) as [|[first id] rest] eqn:Hidx.
  { by rewrite Htimer in Harmed. }
  destruct Harmed as (st & to & Ht & Hfirst). rewrite Htimer in Ht.
  simplify_eq.
  destruct (expiry_loop (S (length ((first, id) :: rest))) now
              (set_timesup_timer None s))
    as (s' & expired & evss & Hloop & Hsplit & Hexp & Hfut & Htr & Hall
        & Hnil & Hcons & Hok').
  { by eapply index_kept_ext; [..|exact Hok]. }
  { simpl. by rewrite Hidx. }
  { simpl. rewrite Hidx. simpl. lia. }
  simpl in Hsplit, Htr, Hall. rewrite Hidx in Hsplit.
  assert (expired ≠ []) as Hne.
  { intros ->. simpl in Hsplit. rewrite <- Hsplit in Hfut.
    apply Forall_cons in Hfut as [Hfut _]. simpl in Hfut. lia. }
  exists s', expired, evss. split; [exact Hloop|]. split; [done|].
  split; [done|]. split; [done|]. split; [done|]. split; [done|].
  split; [done|]. split; [by apply Hcons|]. split; [done|].
  unfold timer_armed. rewrite (Hcons Hne). unfold timer_for.
  destruct (m_timesup s') as [|[k id'] l']; [done|].
  eexists _, _. split; [done|].
  apply Forall_cons in Hfut as [Hfut _]. simpl in Hfut.
  destruct (Z.ltb_spec now k); lia.
Qed.

(** A turn of the loop that returns has found its executor alive, so it
    erased the entry and set the timer. *)
Lemma kept_turn now pos first id s s1 s2 next :
  index_kept None s →
  m_timesup s !! pos = Some (first, id) →
  completeRequestTimesup id s = Some s1 →
  removeTimesup now id s1 = Some (s2, next) →
  index_kept None s2 ∧ timer_armed s2.
Proof.
  intros Hok Hpos Hc Hr.
  assert (index_kept (Some id) s1) as Hok1
    by (by eapply index_kept_completeRequestTimesup).
  split; [by apply index_kept_removeTimesup in Hr as [? _]|].
  assert (∃ e1, heap s1 !! id = Some e1
                ∧ m_timesup_iterator e1 = Some first) as (e1 & He1 & Hit1).
  { destruct Hok as [_ _ Hl _].
    eapply Forall_forall in Hl; [|by eapply list_elem_of_lookup_2].
    unfold completeRequestTimesup in Hc.
    destruct (heap s !! id) as [e|] eqn:He; simpl in Hc; [|done].
    specialize (Hl e He). simpl in Hl.
    run_in Hc; simplify_eq; try (by exists e).
    eexists. simpl. by rewrite lookup_insert_eq. }
  unfold removeTimesup in Hr. rewrite He1 in Hr; simpl in Hr.
  rewrite Hit1 in Hr.
  destruct (multimap_position first id (m_timesup s1)); simpl in Hr; [|done].
  simplify_eq. apply timer_armed_updateTimesup.
Qed.

Lemma kept_timesup_loop fuel now pos s s' :
  index_kept None s → timesup_loop fuel now pos s = Some s' →
  index_kept None s'
  ∧ ((s' = s
      ∧ match m_timesup s !! pos with
        | Some (first, _) => now < first
        | None => True
        end)
     ∨ timer_armed s').
Proof.
  revert pos s. induction fuel as [|fuel IH]; intros pos s Hok Hc;
    simpl in Hc.
  { done. }
  destruct (m_timesup s !! pos) as [[first id]|] eqn:Hpos;
    [|simplify_eq; split; [done | by left]].
  destruct (Z.ltb_spec now first);
    [simplify_eq; split; [done | by left]|].
  destruct (completeRequestTimesup id s) as [s1|] eqn:Ht; simpl in Hc;
    [|done].
  destruct (removeTimesup now id s1) as [[s2 next]|] eqn:Hr; simpl in Hc;
    [|done].
  destruct (kept_turn now pos first id s s1 s2 next) as [Hok2 Ha2];
    try done.
  destruct (IH next s2 Hok2 Hc) as [Hok' [[-> _]|Ha']]; split; try done;
    by right.
Qed.

Lemma kept_inv_io_step ev s s' :
  queues_ok s → kept_inv s → io_step ev s = Some s' → kept_inv s'.
Proof.
  intros Hq Hinv Hs. destruct ev as [now codes completions|now msgs|now].
  - by eapply kept_inv_accept.
  - by eapply kept_inv_checkActions.
  - unfold io_step in Hs.
    destruct (m_timesup_timer s) as [[started timeout]|] eqn:Ht; [|done].
    destruct (Z.leb_spec (started + timeout) now) as [Hdue|]; [|done].
    destruct Hinv as [Hok Harmed].
    unfold on_uv_timesup_callback in Hs.
    change (m_timesup (set_timesup_timer None s)) with (m_timesup s) in Hs.
    unfold timer_armed in Harmed.
    destruct (m_timesup s) as [|[first id] rest] eqn:Hidx.
    { by rewrite Ht in Harmed. }
    destruct Harmed as (st & to & Ht' & Hfirst). rewrite Ht in Ht'.
    simplify_eq.
    apply kept_timesup_loop in Hs as [Hok' [[_ Hlt]|Ha']].
    + simpl in Hlt. rewrite Hidx in Hlt. simpl in Hlt. lia.
    + done.
    + by eapply index_kept_ext; [..|exact Hok].
Qed.

(** Every loop run from a new one has its queues in order, its index kept
    and its timer armed. *)
Lemma kept_inv_run actions s :
  run actions new = Some s → queues_ok s ∧ kept_inv s.
Proof.
  assert (∀ s0, queues_ok s0 → kept_inv s0 →
                run actions s0 = Some s → queues_ok s ∧ kept_inv s) as Hgen.
  { induction actions as [|a actions IH]; intros s0 Hq Hinv Hr;
      simpl in Hr.
    { by simplify_eq. }
    destruct (step a s0) as [s1|] eqn:Hs; simpl in Hr; [|done].
    apply (IH s1); try done.
    - eapply (queues_ok_run [a]); [exact Hq|]. simpl. by rewrite Hs.
    - destruct a as [request| |ev]; simpl in Hs.
      + simplify_eq. by apply kept_inv_StartRequest.
      + simplify_eq. destruct Hinv as [Hok Harmed].
        split; [by eapply index_kept_ext; [..|exact Hok]|].
        by eapply timer_armed_ext; [..|exact Harmed].
      + by eapply kept_inv_io_step. }
  intros Hr. by apply (Hgen new queues_ok_new kept_inv_new).
Qed.

(** C3: when the time's-up timer is due and fires, the callback takes the
    entries of the index from the front, smallest key first, as long as
    their key is not after [now].  For each, if the request has an
    on-complete handler it calls the handler with a response whose status
    is TIMESUP and whose total time is the request's budget, and if the
    request has none it delivers nothing; then it erases the entry.  The
    entries left are all in the future, and the timer is set again to the
    first of them, or stopped when none is left.  Stated for expired
    entries whose executor is alive. *)
Theorem timesup_callback_prunes_live actions s now started timeout :
  run actions new = Some s →
  m_timesup_timer s = Some (started, timeout) →
  started + timeout ≤ now →
  (∀ entry, entry ∈ m_timesup s → entry.1 ≤ now →
            is_Some (heap s !! entry.2)) →
  ∃ s' expired evss,
    io_step (TimesupFired now) s = Some s'
    ∧ StronglySorted (λ x y : Z * nat, x.1 ≤ y.1) (m_timesup s)
    ∧ expired ≠ []
    ∧ m_timesup s = expired ++ m_timesup s'
    ∧ Forall (λ entry, entry.1 ≤ now) expired
    ∧ Forall (λ entry, now < entry.1) (m_timesup s')
    ∧ trace s' = trace s ++ concat evss
    ∧ Forall2 (timesup_outcome s) expired evss
    ∧ m_timesup_timer s'
      = match m_timesup s' with
        | [] => None
        | (first, _) :: _ => Some (now, first - now)
        end.
Proof.
  intros Hrun Htimer Hdue Hlive.
  destruct (kept_inv_run actions s Hrun) as [Hq Hinv].
  destruct (expiry_fired now s started timeout Hinv Htimer Hdue Hlive)
    as (s' & expired & evss & Hs & Hne & Hsplit & Hexp & Hfut & Htr & Hall
        & Ht & _).
  exists s', expired, evss. split_and!; try done.
  - by destruct Hinv as [[? _ _ _] _].
  - rewrite Ht. unfold timer_for.
    destruct (m_timesup s') as [|[k id'] l']; [done|].
    apply Forall_cons in Hfut as [Hfut _]. simpl in Hfut.
    by destruct (Z.ltb_spec now k); [|lia].
Qed.

End ExpiryProps.

(** * More properties of Request *)

Section MoreRequestProps.
Import Request RequestCalls.
Implicit Types (r : Request) (c : Request.Call) (cs : list Request.Call).

Lemma calls_cons r c cs : calls r (c :: cs) = calls (call_caught r c) cs.
Proof. done. Qed.

(** ** Headers *)

Lemma headers_call_caught r c :
  m_request_headers (call_caught r c)
  = m_request_headers r ++ header_args [c].
Proof.
  unfold call_caught. destruct c; simpl; rewrite ?app_nil_r; try done.
  - redirects_frame.
  - unfold Data. by destruct (m_mime_fields_set r).
  - unfold MimeField. by destruct (m_request_data_set r).
Qed.

(** ** Redirects *)

(** X2: whatever setters are called on a new request, and with whatever
    arguments, [m_max_redirects] is never below -1. *)
Theorem max_redirects_at_least_minus_one url timeout h cs :
  -1 ≤ m_max_redirects (calls (Request_new url timeout h) cs).
Proof.
  induction cs as [|c cs IH] using rev_ind; [done|].
  rewrite calls_snoc. set (r := calls _ cs) in *. clearbody r.
  unfold call_caught. destruct c; simpl; try done.
  - unfold FollowRedirects_call, FollowRedirects.
    destruct enabled; [|done].
    destruct (Z.leb_spec (-1) (default max_redirects_default max)); simpl;
      [done|lia].
  - unfold Data. by destruct (m_mime_fields_set r).
  - unfold MimeField. by destruct (m_request_data_set r).
Qed.

(** ** Body and MIME fields *)

Lemma first_body_cons c cs :
  first_body (c :: cs)
  = match body_kind c with Some k => Some k | None => first_body cs end.
Proof. unfold first_body. simpl. by destruct (body_kind c). Qed.

(** The body state after a sequence of calls, from any object. *)
Lemma body_calls r cs :
  ¬ (m_request_data_set r = true ∧ m_mime_fields_set r = true) →
  let r' := calls r cs in
  let kind :=
    if m_request_data_set r then Some true
    else if m_mime_fields_set r then Some false
    else first_body cs in
  match kind with
  | Some true =>
      m_request_data_set r' = true ∧ m_mime_fields_set r' = false
      ∧ m_request_data r' = default (m_request_data r) (last (data_args cs))
      ∧ m_mime_fields r' = m_mime_fields r
  | Some false =>
      m_request_data_set r' = false ∧ m_mime_fields_set r' = true
      ∧ m_request_data r' = m_request_data r
      ∧ m_mime_fields r' = m_mime_fields r ++ mime_args cs
  | None =>
      m_request_data_set r' = false ∧ m_mime_fields_set r' = false
      ∧ m_request_data r' = m_request_data r
      ∧ m_mime_fields r' = m_mime_fields r
  end.
Proof.
  revert r. induction cs as [|c cs IH]; intros r Hx; cbv zeta.
  { simpl. destruct (m_request_data_set r) eqn:Ed, (m_mime_fields_set r) eqn:Em;
      simpl; rewrite ?app_nil_r; try done. by destruct Hx. }
  rewrite calls_cons, first_body_cons.
  assert (¬ (m_request_data_set (call_caught r c) = true
             ∧ m_mime_fields_set (call_caught r c) = true)) as Hx'.
  { unfold call_caught. destruct c; simpl; try done.
    - unfold FollowRedirects_call, FollowRedirects. by repeat case_match.
    - unfold Data. destruct (m_mime_fields_set r) eqn:E; simpl;
        [by rewrite E|]. by intros [].
    - unfold MimeField. destruct (m_request_data_set r) eqn:E; simpl;
        [by rewrite E|]. by intros []. }
  specialize (IH _ Hx').
  assert (∀ c', body_kind c' = None →
            m_request_data_set (call_caught r c') = m_request_data_set r
            ∧ m_mime_fields_set (call_caught r c') = m_mime_fields_set r
            ∧ m_request_data (call_caught r c') = m_request_data r
            ∧ m_mime_fields (call_caught r c') = m_mime_fields r
            ∧ data_args (c' :: cs) = data_args cs
            ∧ mime_args (c' :: cs) = mime_args cs) as Hother.
  { intros c' Hk. unfold call_caught.
    destruct c'; simpl in *; try done.
    unfold FollowRedirects_call, FollowRedirects. by repeat case_match. }
  destruct c;
    try (match goal with |- context [call_caught r ?c0] =>
           destruct (Hother c0 eq_refl) as (H1 & H2 & H3 & H4 & H5 & H6) end;
         rewrite H1, H2, H3, H4, ?H5, ?H6 in IH; exact IH);
    clear Hother; unfold call_caught in *; simpl in *.
  - (* Data *)
    unfold Data in *.
    destruct (m_request_data_set r) eqn:Ed, (m_mime_fields_set r) eqn:Em;
      simpl in *; try (by destruct Hx); rewrite ?Ed, ?Em in IH; simpl in IH.
    all: try exact IH.
    all: destruct IH as (? & ? & -> & ?); split_and!; try done.
    all: unfold data_args; simpl; fold (data_args cs).
    all: by destruct (data_args cs) using rev_ind;
        [|rewrite app_comm_cons, !last_snoc].
  - (* MimeField *)
    unfold MimeField in *.
    destruct (m_request_data_set r) eqn:Ed, (m_mime_fields_set r) eqn:Em;
      simpl in *; try (by destruct Hx); rewrite ?Ed, ?Em in IH; simpl in IH.
    all: try exact IH.
    all: destruct IH as (? & ? & ? & ->); split_and!; try done.
    all: by rewrite <- app_assoc.
Qed.

(** X3: after any sequence of setter calls on a new request, the first call
    of [Data] or [MimeField] has decided the body.  If it was [Data], the
    body is the argument of the last [Data] call and there is no MIME
    field; if it was [MimeField], the body is empty and the MIME fields are
    the arguments of all the [MimeField] calls, in call order; the calls of
    the other kind threw and left nothing behind. *)
Theorem body_after_calls url timeout h cs :
  let r := calls (Request_new url timeout h) cs in
  match first_body cs with
  | Some true =>
      m_request_data r = default "" (last (data_args cs))
      ∧ m_mime_fields r = []
  | Some false => m_request_data r = "" ∧ m_mime_fields r = mime_args cs
  | None => m_request_data r = "" ∧ m_mime_fields r = []
  end.
Proof.
  pose proof (body_calls (Request_new url timeout h) cs) as Hb.
  simpl in Hb. intros r.
  destruct (first_body cs) as [[|]|]; destruct Hb as (_ & _ & ? & ?);
    try done; by intros [].
Qed.

(** X4: after any sequence of setter calls on a new request, [Data] throws
    exactly when the first body call of the sequence was [MimeField], and
    [MimeField] throws exactly when it was [Data]; a request cannot be
    brought back to the other kind of body. *)
Theorem first_body_call_decides url timeout h pre d f :
  let r := calls (Request_new url timeout h) pre in
  is_Throw (Data r d) = bool_decide (first_body pre = Some false)
  ∧ is_Throw (MimeField r f) = bool_decide (first_body pre = Some true).
Proof.
  pose proof (body_calls (Request_new url timeout h) pre) as Hb.
  simpl in Hb. intros r. unfold Data, MimeField.
  destruct (first_body pre) as [[|]|];
    (destruct Hb as (Hd & Hm & _); [by intros []|]);
    fold r in Hd, Hm; by rewrite Hd, Hm.
Qed.

(** ** The method *)

(** X5: the method of a request is the one the last call of [Method] or
    [Data] left: [Method m] gives [m], a [Data] that returns gives POST also
    after an earlier [Method], and a [Data] that throws leaves the method as
    it was.  No other setter writes the method. *)
Theorem method_last_writer r pre c post :
  Forall (λ c', names_method c' = false) post →
  m_method (calls r (pre ++ c :: post))
  = match c, call (calls r pre) c with
    | CallMethod m, _ => m
    | CallData _, Ok _ => POST
    | _, _ => m_method (calls r pre)
    end.
Proof.
  intros Hpost. rewrite calls_app, calls_cons.
  set (r1 := calls r pre). clearbody r1.
  assert (∀ r2, m_method (calls r2 post) = m_method r2) as Hkeep.
  { induction Hpost as [|c' post Hc' _ IH]; intros r2; [done|].
    rewrite calls_cons, IH. unfold call_caught.
    destruct c'; simpl in *; try done.
    - redirects_frame.
    - unfold MimeField. by destruct (m_request_data_set r2). }
  rewrite Hkeep. unfold call_caught.
  destruct c; simpl; try done.
  - redirects_frame.
  - unfold Data. by destruct (m_mime_fields_set r1).
  - unfold MimeField. by destruct (m_request_data_set r1).
Qed.

End MoreRequestProps.

(** * The headers of a request *)

Section HeaderProps.
Import Request RequestCalls HeaderCalls.
Implicit Types (r : Request) (c : HeaderCall) (cs : list HeaderCall).

Lemma header_calls_snoc r cs c :
  header_calls r (cs ++ [c]) = header_call (header_calls r cs) c.
Proof. unfold header_calls. by rewrite foldl_app. Qed.

Lemma header_calls_app r cs1 cs2 :
  header_calls r (cs1 ++ cs2) = header_calls (header_calls r cs1) cs2.
Proof. unfold header_calls. by rewrite foldl_app. Qed.

Lemma headers_header_call r c :
  is_clear c = false →
  Headers (header_call r c) = Headers r ++ option_list (appended c).
Proof.
  intros Hc. unfold Headers. destruct c as [c|name|]; simpl in *; try done.
  rewrite headers_call_caught. by destruct c.
Qed.

Lemma headers_no_clear r cs :
  Forall (λ c, is_clear c = false) cs →
  Headers (header_calls r cs) = Headers r ++ omap appended cs.
Proof.
  induction cs as [|c cs IH] using rev_ind; intros Hcs.
  { by rewrite app_nil_r. }
  apply Forall_app in Hcs as [Hcs Hc]. apply Forall_cons in Hc as [Hc _].
  rewrite header_calls_snoc, headers_header_call, IH, omap_app by done.
  rewrite <- app_assoc. simpl. by destruct (appended c).
Qed.

(** X1: the headers of a request are the entries put there since the last
    [ClearHeaders], in call order, after the headers it had when there was
    no [ClearHeaders]: [Header] appends the name and the value,
    [RemoveHeader] takes no entry away and appends the name with an empty
    value, and no other setter touches the headers, whether it throws or
    returns. *)
Theorem headers_since_last_clear r pre post :
  Forall (λ c, is_clear c = false) post →
  Headers (header_calls r post) = Headers r ++ omap appended post
  ∧ Headers (header_calls r (pre ++ CallClearHeaders :: post))
    = omap appended post.
Proof.
  intros Hpost. split; [by apply headers_no_clear|].
  rewrite header_calls_app. simpl.
  change (foldl header_call ?r0 post) with (header_calls r0 post).
  by rewrite headers_no_clear.
Qed.

End HeaderProps.

(** * Socket contexts *)

Section SocketProps.
Import SocketContexts.
Implicit Types (s : Sockets) (c : nat) (socket action : Z).

Lemma sockets_ok_new : sockets_ok new.
Proof.
  split; simpl.
  - intros c. rewrite lookup_empty. split; [by intros [? ?]|lia].
  - intros c ctx. by rewrite lookup_empty.
  - constructor.
  - intros c Hin. by apply elem_of_nil in Hin.
  - intros socket c. by rewrite lookup_empty.
Qed.

(** The action bits do not depend on the events when the status is not 0,
    and keep the two directions only when it is. *)
Lemma perform_action_bits c status events s fd action :
  on_uv_curl_perform_callback c status events s = Some (fd, action) →
  action = if status <? 0 then CURL_CSELECT_ERR
           else if status =? 0 then Z.land events 3
           else 0.
Proof.
  unfold on_uv_curl_perform_callback.
  destruct (contexts s !! c) as [ctx|]; simpl; [|done].
  intros [= _ <-].
  destruct (Z.ltb_spec status 0), (Z.eqb_spec status 0); try lia; try done.
  unfold UV_READABLE, UV_WRITABLE, CURL_CSELECT_IN, CURL_CSELECT_OUT.
  assert (Z.land events 3 = events mod 4) as Hm
    by (apply (Z.land_ones events 2); lia).
  assert (Z.land events 1 = Z.land (events mod 4) 1) as H1
    by (by rewrite <- Hm, <- Z.land_assoc).
  assert (Z.land events 2 = Z.land (events mod 4) 2) as H2
    by (by rewrite <- Hm, <- Z.land_assoc).
  rewrite Hm, H1, H2.
  pose proof (Z.mod_pos_bound events 4 ltac:(lia)) as Hb.
  set (m := events mod 4) in *.
  assert (m = 0 ∨ m = 1 ∨ m = 2 ∨ m = 3) as [-> | [-> | [-> | ->]]] by lia;
    done.
Qed.

(** The three shapes of [curl_handle_socket_actions]. *)
Lemma socket_action_poll socket action sp s :
  action = CURL_POLL_IN ∨ action = CURL_POLL_OUT ∨ action = CURL_POLL_INOUT →
  curl_handle_socket_actions socket action sp s
  = '(c, s1) ←
      match sp with
      | Some c => Some (c, s)
      | None =>
          let '(c, s0) :=
            match m_curl_context_ready s with
            | [] => make_context s
            | c :: ready => (c, set_ready ready s)
            end in
          s1 ← Init c socket s0;
          Some (c, curl_multi_assign socket (Some c) s1)
      end;
    uv_poll_start c (poll_events action) s1.
Proof.
  intros Ha. unfold curl_handle_socket_actions.
  rewrite bool_decide_eq_true_2 by done.
  destruct sp as [c|]; simpl.
  - by destruct Ha as [-> | [-> | ->]].
  - destruct (m_curl_context_ready s) as [|c ready]; simpl.
    + destruct (Init _ _ _) as [s1|]; simpl; [|done].
      by destruct Ha as [-> | [-> | ->]].
    + destruct (Init _ _ _) as [s1|]; simpl; [|done].
      by destruct Ha as [-> | [-> | ->]].
Qed.

Lemma socket_action_remove socket sp s :
  curl_handle_socket_actions socket CURL_POLL_REMOVE sp s
  = match sp with
    | Some c => s2 ← Close c s; Some (curl_multi_assign socket None s2)
    | None => Some s
    end.
Proof. done. Qed.

Lemma socket_action_other socket action sp s :
  ¬ (action = CURL_POLL_IN ∨ action = CURL_POLL_OUT
     ∨ action = CURL_POLL_INOUT) →
  action ≠ CURL_POLL_REMOVE →
  curl_handle_socket_actions socket action sp s = Some s.
Proof.
  intros Hp Hr. unfold curl_handle_socket_actions.
  rewrite bool_decide_eq_false_2 by done. simpl.
  unfold CURL_POLL_IN, CURL_POLL_OUT, CURL_POLL_INOUT, CURL_POLL_REMOVE in *.
  destruct (Z.eqb_spec action 1), (Z.eqb_spec action 2),
    (Z.eqb_spec action 3), (Z.eqb_spec action 4); try done; tauto.
Qed.

Lemma poll_events_cases action :
  poll_events action = UV_READABLE ∨ poll_events action = UV_WRITABLE
  ∨ poll_events action = Z.lor UV_READABLE UV_WRITABLE.
Proof. unfold poll_events. repeat case_match; tauto. Qed.

(** An assigned context is no one else's. *)
Lemma assigned_inj s socket socket' c :
  sockets_ok s →
  socketp s !! socket = Some c → socketp s !! socket' = Some c →
  socket = socket'.
Proof.
  intros Hok H1 H2.
  destruct (so_assigned s Hok _ _ H1) as (ctx & ev & Hc & Hh).
  destruct (so_assigned s Hok _ _ H2) as (ctx' & ev' & Hc' & Hh').
  rewrite Hc in Hc'. injection Hc' as <-. rewrite Hh in Hh'. by injection Hh'.
Qed.

Lemma sockets_ok_poll socket action s :
  sockets_ok s →
  action = CURL_POLL_IN ∨ action = CURL_POLL_OUT ∨ action = CURL_POLL_INOUT →
  ∃ s' c,
    step (SocketAction socket action) s = Some s'
    ∧ sockets_ok s'
    ∧ socketp s' !! socket = Some c
    ∧ contexts s' !! c
      = Some (mkCurlContext (poll_started socket (poll_events action)) socket)
    ∧ match socketp s !! socket with
      | Some c0 => c = c0 ∧ next_context s' = next_context s
                   ∧ m_curl_context_ready s' = m_curl_context_ready s
      | None =>
          match m_curl_context_ready s with
          | [] => c = next_context s ∧ next_context s' = S (next_context s)
                  ∧ m_curl_context_ready s' = []
          | c0 :: ready => c = c0 ∧ next_context s' = next_context s
                           ∧ m_curl_context_ready s' = ready
          end
      end.
Proof.
  intros Hok Ha. simpl. rewrite socket_action_poll by done.
  pose proof (poll_events_cases action) as Hev.
  destruct Hok as [Halloc Hplaced Hnd Hready Hassigned].
  destruct (socketp s !! socket) as [c|] eqn:Hsp; simpl.
  - (* the socket has a context *)
    destruct (Hassigned _ _ Hsp) as (ctx & ev & Hc & Hh).
    pose proof (Hplaced _ _ Hc) as Hpl. unfold placed in Hpl.
    rewrite Hh in Hpl. destruct Hpl as (_ & Hfd & _).
    unfold uv_poll_start. rewrite Hc; simpl. rewrite Hh.
    eexists _, c. split; [done|]. simpl. rewrite lookup_insert_eq, Hfd.
    split; [|done].
    split; simpl.
    + intros c'. rewrite <- Halloc.
      destruct (decide (c' = c)) as [->|];
        [rewrite lookup_insert_eq, Hc; split; by eexists
        |by rewrite lookup_insert_ne].
    + intros c' ctx'. destruct (decide (c' = c)) as [->|].
      * rewrite lookup_insert_eq. intros [= <-]. unfold placed. simpl. done.
      * rewrite lookup_insert_ne by done. intros Hc'.
        apply Hplaced in Hc'. unfold placed in *.
        by destruct (m_poll_handle ctx').
    + done.
    + intros c' Hin. destruct (Hready _ Hin) as (ctx' & Hc' & Hb).
      exists ctx'. split; [|done]. rewrite lookup_insert_ne; [done|].
      intros ->. rewrite Hc in Hc'. injection Hc' as <-. by rewrite Hh in Hb.
    + intros socket' c' Hsp'.
      destruct (decide (c' = c)) as [->|].
      * rewrite lookup_insert_eq.
        destruct (Hassigned _ _ Hsp') as (ctx' & ev' & Hc' & Hh').
        rewrite Hc in Hc'. injection Hc' as <-. rewrite Hh in Hh'.
        injection Hh' as <- <-. by eexists _, _.
      * rewrite lookup_insert_ne by done. by apply Hassigned.
  - (* a new socket *)
    destruct (m_curl_context_ready s) as [|c ready] eqn:Hrd; simpl.
    + (* no context is ready: a new one *)
      unfold Init, make_context; simpl. rewrite lookup_insert_eq; simpl.
      unfold uv_poll_init; simpl. rewrite lookup_insert_eq; simpl.
      unfold uv_poll_start; simpl. rewrite lookup_insert_eq; simpl.
      unfold set_context, curl_multi_assign; simpl.
      rewrite !insert_insert_eq.
      assert (contexts s !! next_context s = None) as Hfresh.
      { destruct (contexts s !! next_context s) eqn:E; [|done].
        assert (next_context s < next_context s)%nat; [|lia].
        apply Halloc. by eexists. }
      eexists _, _. split; [done|]. simpl.
      rewrite !lookup_insert_eq. split; [|done].
      split; simpl.
      * intros c'. destruct (decide (c' = next_context s)) as [->|].
        -- rewrite lookup_insert_eq. split; [lia | by eexists].
        -- rewrite lookup_insert_ne by done. rewrite Halloc. lia.
      * intros c' ctx'. destruct (decide (c' = next_context s)) as [->|].
        -- rewrite lookup_insert_eq. intros [= <-]. unfold placed; simpl.
           by rewrite lookup_insert_eq.
        -- rewrite lookup_insert_ne by done. intros Hc'.
           pose proof (Hplaced _ _ Hc') as Hpl. unfold placed in *; simpl.
           rewrite Hrd in Hpl.
           destruct (m_poll_handle ctx') as [|fd|fd ev|]; try done.
           ++ by apply elem_of_nil in Hpl.
           ++ destruct Hpl as (Hs & ? & ?). split; [|done].
              rewrite lookup_insert_ne; [done|]. intros <-.
              by rewrite Hsp in Hs.
      * rewrite Hrd. constructor.
      * intros c' Hin. rewrite Hrd in Hin. by apply elem_of_nil in Hin.
      * intros socket' c'. destruct (decide (socket' = socket)) as [->|].
        -- rewrite lookup_insert_eq. intros [= <-].
           rewrite lookup_insert_eq. by eexists _, _.
        -- rewrite lookup_insert_ne by done. intros Hsp'.
           destruct (Hassigned _ _ Hsp') as (ctx' & ev' & Hc' & Hh').
           exists ctx', ev'. split; [|done].
           rewrite lookup_insert_ne; [done|]. intros <-.
           by rewrite Hfresh in Hc'.
    + (* the first of the ready contexts *)
      destruct (Hready c) as (ctx & Hc & Hb); [apply elem_of_cons; by left|].
      unfold Init; simpl. rewrite Hc; simpl.
      unfold uv_poll_init; simpl. rewrite lookup_insert_eq; simpl.
      rewrite Hb.
      unfold uv_poll_start; simpl. rewrite lookup_insert_eq; simpl.
      unfold set_context, curl_multi_assign; simpl.
      rewrite !insert_insert_eq.
      apply NoDup_cons in Hnd as [Hnin Hnd].
      eexists _, _. split; [done|]. simpl.
      rewrite !lookup_insert_eq. split; [|done].
      split; simpl.
      * intros c'. rewrite <- Halloc.
        destruct (decide (c' = c)) as [->|];
          [rewrite lookup_insert_eq, Hc; split; by eexists
          |by rewrite lookup_insert_ne].
      * intros c' ctx'. destruct (decide (c' = c)) as [->|].
        -- rewrite lookup_insert_eq. intros [= <-]. unfold placed; simpl.
           by rewrite lookup_insert_eq.
        -- rewrite lookup_insert_ne by done. intros Hc'.
           pose proof (Hplaced _ _ Hc') as Hpl. unfold placed in *; simpl.
           rewrite Hrd in Hpl.
           destruct (m_poll_handle ctx') as [|fd|fd ev|]; try done.
           ++ apply elem_of_cons in Hpl as [?|?]; done.
           ++ destruct Hpl as (Hs & ? & ?). split; [|done].
              rewrite lookup_insert_ne; [done|]. intros <-.
              by rewrite Hsp in Hs.
      * done.
      * intros c' Hin. destruct (Hready c') as (ctx' & Hc' & Hb');
          [apply elem_of_cons; by right|].
        exists ctx'. split; [|done]. rewrite lookup_insert_ne; [done|].
        by intros ->.
      * intros socket' c'. destruct (decide (socket' = socket)) as [->|].
        -- rewrite lookup_insert_eq. intros [= <-].
           rewrite lookup_insert_eq. by eexists _, _.
        -- rewrite lookup_insert_ne by done. intros Hsp'.
           destruct (Hassigned _ _ Hsp') as (ctx' & ev' & Hc' & Hh').
           exists ctx', ev'. split; [|done].
           rewrite lookup_insert_ne; [done|]. intros <-.
           rewrite Hc in Hc'. injection Hc' as <-. by rewrite Hb in Hh'.
Qed.

Lemma sockets_ok_remove socket s :
  sockets_ok s →
  ∃ s',
    step (SocketAction socket CURL_POLL_REMOVE) s = Some s'
    ∧ sockets_ok s'
    ∧ socketp s' !! socket = None
    ∧ m_curl_context_ready s' = m_curl_context_ready s
    ∧ next_context s' = next_context s
    ∧ match socketp s !! socket with
      | Some c =>
          contexts s' !! c = Some (mkCurlContext poll_closing socket)
      | None => s' = s
      end.
Proof.
  intros Hok. simpl. rewrite socket_action_remove.
  pose proof Hok as [Halloc Hplaced Hnd Hready Hassigned].
  destruct (socketp s !! socket) as [c|] eqn:Hsp; simpl; [|by exists s].
  destruct (Hassigned _ _ Hsp) as (ctx & ev & Hc & Hh).
  pose proof (Hplaced _ _ Hc) as Hpl. unfold placed in Hpl.
  rewrite Hh in Hpl. destruct Hpl as (_ & Hfd & _).
  unfold Close, uv_poll_stop. rewrite Hc; simpl. rewrite Hh; simpl.
  unfold uv_close; simpl. rewrite lookup_insert_eq; simpl.
  unfold set_context, curl_multi_assign; simpl. rewrite insert_insert_eq.
  eexists. split; [done|]. simpl.
  rewrite lookup_delete_eq, lookup_insert_eq, Hfd. split; [|done].
  split; simpl.
  - intros c'. rewrite <- Halloc.
    destruct (decide (c' = c)) as [->|];
      [rewrite lookup_insert_eq, Hc; split; by eexists
      |by rewrite lookup_insert_ne].
  - intros c' ctx'. destruct (decide (c' = c)) as [->|].
    + rewrite lookup_insert_eq. by intros [= <-].
    + rewrite lookup_insert_ne by done. intros Hc'.
      pose proof (Hplaced _ _ Hc') as Hpl. unfold placed in *; simpl.
      destruct (m_poll_handle ctx') as [|fd|fd ev'|]; try done.
      destruct Hpl as (Hs & ? & ?). split; [|done].
      rewrite lookup_delete_ne; [done|]. intros <-.
      rewrite Hsp in Hs. by injection Hs.
  - done.
  - intros c' Hin. destruct (Hready _ Hin) as (ctx' & Hc' & Hb).
    exists ctx'. split; [|done]. rewrite lookup_insert_ne; [done|].
    intros ->. rewrite Hc in Hc'. injection Hc' as <-. by rewrite Hh in Hb.
  - intros socket' c'. destruct (decide (socket' = socket)) as [->|].
    { by rewrite lookup_delete_eq. }
    rewrite lookup_delete_ne by done. intros Hsp'.
    destruct (Hassigned _ _ Hsp') as (ctx' & ev' & Hc' & Hh').
    exists ctx', ev'. split; [|done].
    rewrite lookup_insert_ne; [done|]. intros <-.
    by pose proof (assigned_inj s socket socket' _ Hok Hsp Hsp').
Qed.

Lemma sockets_ok_close_done c s ctx :
  sockets_ok s →
  contexts s !! c = Some ctx → m_poll_handle ctx = poll_closing →
  ∃ s', step (CloseDone c) s = Some s'
        ∧ sockets_ok s'
        ∧ m_curl_context_ready s' = m_curl_context_ready s ++ [c]
        ∧ socketp s' = socketp s
        ∧ next_context s' = next_context s.
Proof.
  intros [Halloc Hplaced Hnd Hready Hassigned] Hc Hh.
  simpl. rewrite Hc; simpl. rewrite Hh.
  eexists. split; [done|]. split; [|done].
  assert (c ∉ m_curl_context_ready s) as Hnin.
  { intros Hin. destruct (Hready _ Hin) as (ctx' & Hc' & Hb).
    rewrite Hc in Hc'. injection Hc' as <-. by rewrite Hh in Hb. }
  split; simpl.
  - intros c'. rewrite <- Halloc.
    destruct (decide (c' = c)) as [->|];
      [rewrite lookup_insert_eq, Hc; split; by eexists
      |by rewrite lookup_insert_ne].
  - intros c' ctx'. destruct (decide (c' = c)) as [->|].
    + rewrite lookup_insert_eq. intros [= <-]. unfold placed; simpl.
      apply elem_of_app. right. by apply list_elem_of_singleton.
    + rewrite lookup_insert_ne by done. intros Hc'.
      pose proof (Hplaced _ _ Hc') as Hpl. unfold placed in *; simpl.
      destruct (m_poll_handle ctx') as [|fd|fd ev'|]; try done.
      apply elem_of_app. by left.
  - apply NoDup_app. split; [done|]. split; [|apply NoDup_singleton].
    by intros c' Hin ->%list_elem_of_singleton.
  - intros c' [Hin| ->%list_elem_of_singleton]%elem_of_app.
    + destruct (Hready _ Hin) as (ctx' & Hc' & Hb).
      exists ctx'. split; [|done]. rewrite lookup_insert_ne; [done|].
      by intros ->.
    + rewrite lookup_insert_eq. by eexists.
  - intros socket' c' Hsp'.
    destruct (Hassigned _ _ Hsp') as (ctx' & ev' & Hc' & Hh').
    exists ctx', ev'. split; [|done].
    rewrite lookup_insert_ne; [done|]. intros <-.
    rewrite Hc in Hc'. injection Hc' as <-. by rewrite Hh in Hh'.
Qed.

Lemma poll_action_context socket action s s' c :
  sockets_ok s →
  action = CURL_POLL_IN ∨ action = CURL_POLL_OUT ∨ action = CURL_POLL_INOUT →
  step (SocketAction socket action) s = Some s' →
  socketp s' !! socket = Some c →
  socketp s !! socket = Some c
  ∨ (socketp s !! socket = None
     ∧ (head (m_curl_context_ready s) = Some c
        ∨ (m_curl_context_ready s = [] ∧ c = next_context s))).
Proof.
  intros Hok Ha Hs Hsp.
  destruct (sockets_ok_poll socket action s Hok Ha)
    as (s'' & c' & Hs' & _ & Hsp' & _ & Hwhich).
  rewrite Hs in Hs'. injection Hs' as <-. rewrite Hsp in Hsp'.
  injection Hsp' as <-.
  destruct (socketp s !! socket) as [c0|].
  { left. by destruct Hwhich as [-> _]. }
  right. split; [done|].
  destruct (m_curl_context_ready s) as [|c0 ready].
  - right. by destruct Hwhich as [-> _].
  - left. by destruct Hwhich as [-> _].
Qed.

Lemma socket_action_defined socket action s :
  sockets_ok s →
  ∃ s', step (SocketAction socket action) s = Some s' ∧ sockets_ok s'.
Proof.
  intros Hok.
  destruct (decide (action = CURL_POLL_IN ∨ action = CURL_POLL_OUT
                    ∨ action = CURL_POLL_INOUT)) as [Hp|Hp].
  { destruct (sockets_ok_poll socket action s Hok Hp)
      as (s' & c & ? & ? & _). by exists s'. }
  destruct (decide (action = CURL_POLL_REMOVE)) as [->|Hr].
  { destruct (sockets_ok_remove socket s Hok) as (s' & ? & ? & _).
    by exists s'. }
  exists s. simpl. by rewrite socket_action_other.
Qed.

Lemma sockets_ok_step ev s s' :
  sockets_ok s → step ev s = Some s' → sockets_ok s'.
Proof.
  intros Hok Hs. destruct ev as [socket action|c].
  - destruct (socket_action_defined socket action s Hok) as (s'' & Hs' & ?).
    rewrite Hs in Hs'. by injection Hs' as ->.
  - pose proof Hs as Hs'. simpl in Hs'.
    destruct (contexts s !! c) as [ctx|] eqn:Hc; simpl in Hs'; [|done].
    destruct (m_poll_handle ctx) eqn:Hh; try done.
    destruct (sockets_ok_close_done c s ctx Hok Hc Hh) as (s'' & Hs'' & ? & _).
    rewrite Hs in Hs''. by injection Hs'' as ->.
Qed.

Lemma sockets_ok_run evs s s' :
  sockets_ok s → run evs s = Some s' → sockets_ok s'.
Proof.
  revert s. induction evs as [|ev evs IH]; intros s Hok Hr; simpl in Hr.
  { by injection Hr as <-. }
  destruct (step ev s) as [s1|] eqn:Hs; simpl in Hr; [|done].
  apply (IH s1); [by eapply sockets_ok_step | done].
Qed.

(** X6: however libcurl and libuv drive the socket callbacks, every context
    is in exactly one place: in the ready deque with a handle libuv has
    given back, polling for the one socket it is assigned to, or closing;
    no two sockets share a context; and the next call of the socket
    callback, for any socket and action, makes no call libuv does not
    allow. *)
Theorem socket_contexts_stay_placed evs s :
  run evs new = Some s →
  sockets_ok s
  ∧ (∀ socket socket' c,
       socketp s !! socket = Some c → socketp s !! socket' = Some c →
       socket = socket')
  ∧ (∀ socket c, socketp s !! socket = Some c → c ∉ m_curl_context_ready s)
  ∧ ∀ socket action, is_Some (step (SocketAction socket action) s).
Proof.
  intros Hrun.
  pose proof (sockets_ok_run evs new s sockets_ok_new Hrun) as Hok.
  split; [done|]. split; [|split].
  - intros socket socket' c. by apply assigned_inj.
  - intros socket c Hsp Hin.
    destruct (so_assigned s Hok _ _ Hsp) as (ctx & ev & Hc & Hh).
    destruct (so_ready s Hok _ Hin) as (ctx' & Hc' & Hb).
    rewrite Hc in Hc'. injection Hc' as <-. by rewrite Hh in Hb.
  - intros socket action.
    destruct (socket_action_defined socket action s Hok) as (s' & -> & _).
    by eexists.
Qed.

Lemma on_uv_curl_perform_callback_bits c status events s :
  on_uv_curl_perform_callback c status events s
  = ctx ← contexts s !! c;
    Some (m_sock_fd ctx,
          if status <? 0 then CURL_CSELECT_ERR
          else if status =? 0 then Z.land events 3
          else 0).
Proof.
  destruct (on_uv_curl_perform_callback c status events s) as [[fd a]|] eqn:E.
  - rewrite <- (perform_action_bits _ _ _ _ _ _ E).
    unfold on_uv_curl_perform_callback in E.
    destruct (contexts s !! c); simpl in *; [|done]. by injection E as <- _.
  - unfold on_uv_curl_perform_callback in E.
    by destruct (contexts s !! c).
Qed.

(** X7: the bitmask [on_uv_curl_perform_callback] hands to [checkActions],
    with the socket of the context: CURL_CSELECT_ERR alone for a negative
    status; for status 0 the readable and writable bits of the events as
    CURL_CSELECT_IN and CURL_CSELECT_OUT, which is [events & 3], and no
    other bit of the events; and 0 for a positive status. *)
Theorem perform_callback_action c status events s :
  on_uv_curl_perform_callback c status events s
  = ctx ← contexts s !! c;
    Some (m_sock_fd ctx,
          if status <? 0 then CURL_CSELECT_ERR
          else if status =? 0 then Z.land events 3
          else 0).
Proof. apply on_uv_curl_perform_callback_bits. Qed.

(** X8: after libcurl asks for a socket to be polled, a poll callback of the
    socket's handle tells libcurl about that socket, and when the events
    asked for are the events seen, about the directions it asked for. *)
Theorem poll_reports_socket_and_directions evs s socket action :
  run evs new = Some s →
  action = CURL_POLL_IN ∨ action = CURL_POLL_OUT ∨ action = CURL_POLL_INOUT →
  ∃ s' c ctx,
    step (SocketAction socket action) s = Some s'
    ∧ socketp s' !! socket = Some c
    ∧ contexts s' !! c = Some ctx
    ∧ m_poll_handle ctx = poll_started socket (poll_events action)
    ∧ on_uv_curl_perform_callback c 0 (poll_events action) s'
      = Some (socket, select_bits action)
    ∧ ∀ status events,
        ∃ bits, on_uv_curl_perform_callback c status events s'
                = Some (socket, bits).
Proof.
  intros Hrun Ha.
  pose proof (sockets_ok_run evs new s sockets_ok_new Hrun) as Hok.
  destruct (sockets_ok_poll socket action s Hok Ha)
    as (s' & c & Hs & Hok' & Hsp & Hc & _).
  eexists s', c, _. split; [done|]. split; [done|]. split; [done|].
  split; [done|]. split.
  - rewrite on_uv_curl_perform_callback_bits, Hc. simpl. f_equal. f_equal.
    by destruct Ha as [-> | [-> | ->]].
  - intros status events. rewrite on_uv_curl_perform_callback_bits, Hc.
    simpl. by eexists.
Qed.

(** X9: a context is used again only after libuv has confirmed the close of
    its handle.  After CURL_POLL_REMOVE for its socket the context is not
    in the ready deque and no socket that libcurl asks to be polled gets
    it: such a socket keeps the context it has, or takes the one at the
    front of the deque, or a new one when the deque is empty.  The close
    callback puts the context at the back of the deque. *)
Theorem context_reused_only_after_close evs s socket c :
  run evs new = Some s →
  socketp s !! socket = Some c →
  ∃ s1,
    step (SocketAction socket CURL_POLL_REMOVE) s = Some s1
    ∧ socketp s1 !! socket = None
    ∧ (c ∉ m_curl_context_ready s1)
    ∧ (∀ socket' action s2 c',
         action = CURL_POLL_IN ∨ action = CURL_POLL_OUT
         ∨ action = CURL_POLL_INOUT →
         step (SocketAction socket' action) s1 = Some s2 →
         socketp s2 !! socket' = Some c' →
         c' ≠ c
         ∧ (socketp s1 !! socket' = Some c'
            ∨ head (m_curl_context_ready s1) = Some c'
            ∨ (m_curl_context_ready s1 = [] ∧ c' = next_context s1)))
    ∧ ∃ s2, step (CloseDone c) s1 = Some s2
            ∧ m_curl_context_ready s2 = m_curl_context_ready s ++ [c].
Proof.
  intros Hrun Hsp.
  pose proof (sockets_ok_run evs new s sockets_ok_new Hrun) as Hok.
  destruct (sockets_ok_remove socket s Hok)
    as (s1 & Hs1 & Hok1 & Hsp1 & Hrd1 & Hn1 & Hc1).
  rewrite Hsp in Hc1.
  assert (c ∉ m_curl_context_ready s1) as Hnr.
  { intros Hin. destruct (so_ready s1 Hok1 _ Hin) as (ctx & Hctx & Hb).
    rewrite Hc1 in Hctx. by injection Hctx as <-. }
  exists s1. split; [done|]. split; [done|]. split; [done|]. split.
  - intros socket' action s2 c' Ha Hs2 Hsp2.
    destruct (poll_action_context socket' action s1 s2 c' Hok1 Ha Hs2 Hsp2)
      as [Hold|[Hnone [Hhd|[Hnil ->]]]].
    + split; [|by left]. intros ->.
      destruct (so_assigned s1 Hok1 _ _ Hold) as (ctx & ev & Hctx & Hh).
      rewrite Hc1 in Hctx. by injection Hctx as <-.
    + split; [|right; by left]. intros ->. apply Hnr.
      destruct (m_curl_context_ready s1); [done|].
      injection Hhd as ->. apply elem_of_cons. by left.
    + split; [|right; by right]. intros Heq.
      assert (is_Some (contexts s1 !! c)) as Hl by by eexists.
      apply (so_alloc s1 Hok1) in Hl. lia.
  - destruct (sockets_ok_close_done c s1 _ Hok1 Hc1 eq_refl)
      as (s2 & Hs2 & _ & Hrd2 & _).
    exists s2. split; [done|]. by rewrite Hrd2, Hrd1.
Qed.

End SocketProps.

(** * The close callbacks *)

Section ClosingProps.
Import Closing.

Lemma closed_uv_close_callback h h' f :
  closed h (uv_close_callback h' f)
  = if decide (h = h') then true else closed h f.
Proof. by destruct h, h'. Qed.

Lemma wait_closed_done schedule f h :
  closed h f = true → wait_closed schedule f = Some f.
Proof.
  intros Hc. destruct schedule, h; simpl in *; rewrite Hc;
    by rewrite ?andb_false_r.
Qed.

(** X10: the destructor's wait for the close callbacks ends as soon as one of
    the three handles is closed: after the first sleep during which a close
    callback ran, with the flags as that sleep left them, so the handles
    whose callback has not run yet are still open when the destructor goes
    on to join the thread.  While no callback runs the wait goes on. *)
Theorem close_wait_ends_at_first_close
    (f : CloseFlags) (idle : nat) (h : UvHandle) (callbacks : list UvHandle)
    (rest : list (list UvHandle)) :
  (∀ h', closed h' f = false) →
  wait_closed (replicate idle [] ++ (h :: callbacks) :: rest) f
  = Some (foldl (λ f h, uv_close_callback h f) f (h :: callbacks))
  ∧ (∀ h', closed h' (foldl (λ f h, uv_close_callback h f) f (h :: callbacks))
           = bool_decide (h' ∈ h :: callbacks))
  ∧ wait_closed (replicate idle []) f = None.
Proof.
  intros Hopen.
  assert (negb (m_timeout_timer_closed f) && negb (m_timesup_timer_closed f)
          && negb (m_async_closed f) = true) as Hcond.
  { pose proof (Hopen h_async) as H1. pose proof (Hopen h_timeout_timer) as H2.
    pose proof (Hopen h_timesup_timer) as H3. simpl in H1, H2, H3.
    by rewrite H1, H2, H3. }
  assert (∀ l f0 h',
    closed h' (foldl (λ f h, uv_close_callback h f) f0 l)
    = bool_decide (h' ∈ l) || closed h' f0) as Hfold.
  { induction l as [|h0 l IH]; intros f0 h'; simpl.
    { first [done | by rewrite bool_decide_eq_false_2
                       by (by intros ?%elem_of_nil)]. }
    rewrite IH, closed_uv_close_callback.
    destruct (decide (h' = h0)) as [->|Hne].
    - rewrite orb_true_r. symmetry. rewrite orb_true_iff. left.
      apply bool_decide_eq_true. apply elem_of_cons. by left.
    - f_equal. apply bool_decide_ext. rewrite elem_of_cons. tauto. }
  split_and!.
  - induction idle as [|idle IH]; simpl; rewrite Hcond; [|exact IH].
    apply (wait_closed_done _ _ h).
    change (closed h (foldl (λ f h, uv_close_callback h f) f (h :: callbacks))
            = true).
    rewrite Hfold. apply orb_true_iff. left.
    apply bool_decide_eq_true, elem_of_cons. by left.
  - intros h'. by rewrite Hfold, Hopen, orb_false_r.
  - induction idle as [|idle IH]; simpl; by rewrite Hcond.
Qed.

End ClosingProps.

(** * Deliveries and the stopping flag *)

Section MoreLoopProps.
Context `{ExecutorOps}.
Import EventLoop Delivery Footprint TimerIndex Handback.
Implicit Types (s : Loop) (id : nat) (now : Z).

(** ** The request a handler gets *)

Lemma snoc_split {A} (pre post tr : list A) x y :
  pre ++ x :: post = tr ++ [y] →
  (post = [] ∧ pre = tr ∧ x = y)
  ∨ ∃ post', post = post' ++ [y] ∧ tr = pre ++ x :: post'.
Proof.
  intros Heq. destruct post as [|z post _] using rev_ind.
  - left. apply app_inj_tail in Heq as [-> ->]. done.
  - right. exists post.
    rewrite app_comm_cons, app_assoc in Heq.
    apply app_inj_tail in Heq as [<- ->]. done.
Qed.

Lemma handed_back_vstep v v' :
  Inv v → handed_back (v_trace v) → vstep v v' → handed_back (v_trace v').
Proof.
  intros HInv Hb Hstep.
  destruct Hstep as [v request|v id request handler response Hid Hh
                    |v id c Hid Hdone]; simpl; [| |done].
  - intros pre id h r resp post Heq. symmetry in Heq.
    apply snoc_split in Heq as [(_ & _ & ?)|(post' & -> & Heq)]; [done|].
    by eapply Hb.
  - intros pre id' h r resp post Heq. symmetry in Heq.
    apply snoc_split in Heq as [(_ & -> & Heq)|(post' & -> & Heq)];
      [|by eapply Hb].
    injection Heq as -> -> -> ->. split; [|done].
    destruct (inv_live _ HInv _ _ Hid) as [r0 Hacc].
    pose proof (inv_delivered _ HInv _ _ Hacc) as Hd.
    rewrite Hid in Hd. by destruct Hd as [-> _].
Qed.

Lemma handed_back_rtc v v' :
  Inv v → handed_back (v_trace v) → rtc vstep v v' →
  handed_back (v_trace v').
Proof.
  intros HInv Hb Hsteps. induction Hsteps as [|v1 v2 v3 Hstep _ IH]; [done|].
  apply IH; [by eapply Inv_vstep | by eapply handed_back_vstep].
Qed.

(** X11: a handler is called with the request that was submitted under the
    executor, after it was accepted, and it is that request's own
    handler. *)
Theorem handler_gets_its_request_back
    actions s pre id handler request response post :
  run actions new = Some s →
  trace s = pre ++ EvOnComplete id handler request response :: post →
  EvAccepted id request ∈ pre
  ∧ m_on_complete_handler request = Some handler.
Proof.
  intros Hrun Htr.
  assert (handed_back (v_trace (view s))) as Hb.
  { eapply (handed_back_rtc (view new)); [apply Inv_new| |by eapply vstep_run].
    intros pre' ? ? ? ? ? Heq. by destruct pre'. }
  destruct (Hb (filter (λ ev, core_event ev = true) pre) id handler request
              response (filter (λ ev, core_event ev = true) post))
    as [Hacc Hh].
  { unfold view; simpl. rewrite Htr, filter_app.
    by rewrite filter_cons_True. }
  split; [|done]. by apply list_elem_of_filter in Hacc as [_ ?].
Qed.

(** ** After [Stop] *)

Lemma vstep_next v v' : vstep v v' → (v_next v ≤ v_next v')%nat.
Proof. destruct 1; simpl; lia. Qed.

Lemma rtc_vstep_next v v' : rtc vstep v v' → (v_next v ≤ v_next v')%nat.
Proof.
  induction 1 as [|v1 v2 v3 Hstep _ IH]; [done|].
  apply vstep_next in Hstep. lia.
Qed.

(** Steps that accept nothing add no executor and no accepted event. *)
Lemma rtc_vstep_no_accept v v' :
  rtc vstep v v' → v_next v' = v_next v →
  (∀ id, is_Some (v_heap v' !! id) → is_Some (v_heap v !! id))
  ∧ ∀ id r, EvAccepted id r ∈ v_trace v' → EvAccepted id r ∈ v_trace v.
Proof.
  induction 1 as [|v1 v2 v3 Hstep Hsteps IH]; [done|]. intros Hnext.
  pose proof (vstep_next _ _ Hstep) as H12.
  pose proof (rtc_vstep_next _ _ Hsteps) as H23.
  destruct IH as [IHh IHt]; [lia|].
  assert (v_next v2 = v_next v1) as Hsame by lia.
  destruct Hstep as [v request|v id request handler response Hid Hh
                    |v id c Hid Hdone]; simpl in *; [lia| |].
  - split.
    + intros id' Hl. apply IHh in Hl.
      destruct (decide (id' = id)) as [->|Hne]; [by eexists|].
      by rewrite lookup_insert_ne in Hl.
    + intros id' r Hin. apply IHt in Hin.
      apply elem_of_app in Hin as [?|Hin]; [done|].
      by apply list_elem_of_singleton in Hin.
  - split; [|done].
    intros id' Hl. apply IHh in Hl.
    destruct (decide (id' = id)) as [->|Hne]; [by eexists|].
    by rewrite lookup_delete_ne in Hl.
Qed.

Lemma run_app actions more s :
  run (actions ++ more) s = s' ← run actions s; run more s'.
Proof.
  revert s. induction actions as [|a actions IH]; intros s; simpl; [done|].
  destruct (step a s) as [s1|]; simpl; [apply IH | done].
Qed.

Lemma stopping_kept more s s' :
  m_is_stopping s = true → run more s = Some s' →
  m_is_stopping s' = true ∧ next_executor s' = next_executor s.
Proof.
  revert s. induction more as [|a more IH]; intros s Hstop Hr; simpl in Hr.
  { by simplify_eq. }
  destruct (step a s) as [s1|] eqn:Hs; simpl in Hr; [|done].
  assert (m_is_stopping s1 = true ∧ next_executor s1 = next_executor s)
    as [Hstop1 Hnext1].
  { destruct a as [request| |ev]; simpl in Hs.
    - unfold StartRequest in Hs. rewrite Hstop in Hs. by simplify_eq.
    - by simplify_eq.
    - apply io_frame_io_step in Hs as (-> & -> & _). done. }
  destruct (IH s1 Hstop1 Hr) as [? ?]. split; [done|congruence].
Qed.

(** X12: once the stopping flag is set it stays set: whatever is submitted
    and whatever the I/O thread runs afterwards, [StartRequest] returns
    false, no request is accepted, no executor is created, and the active
    count does not grow. *)
Theorem stopping_is_final actions more s s' :
  run actions new = Some s →
  m_is_stopping s = true →
  run more s = Some s' →
  Z.of_nat (next_executor s) < 2 ^ 64 →
  m_is_stopping s' = true
  ∧ (∀ request_ptr, StartRequest request_ptr s' = (false, s'))
  ∧ (∀ id r, EvAccepted id r ∈ trace s' → EvAccepted id r ∈ trace s)
  ∧ (∀ id, is_Some (heap s' !! id) → is_Some (heap s !! id))
  ∧ ActiveRequestCount s' ≤ ActiveRequestCount s.
Proof.
  intros Hrun Hstop Hmore Hbound.
  destruct (stopping_kept more s s' Hstop Hmore) as [Hstop' Hnext].
  assert (run (actions ++ more) new = Some s') as Hrun'.
  { by rewrite run_app, Hrun. }
  pose proof (vstep_run _ _ _ Hmore) as Hsteps.
  destruct (rtc_vstep_no_accept _ _ Hsteps) as [Hheap Hacc]; [done|].
  assert (∀ id, is_Some (heap s' !! id) → is_Some (heap s !! id)) as Hlive.
  { intros id Hl. specialize (Hheap id). rewrite !view_lookup in Hheap.
    rewrite !fmap_is_Some in Hheap. by apply Hheap. }
  split; [done|]. split.
  { intros request_ptr. unfold StartRequest. by rewrite Hstop'. }
  split.
  { intros id r Hin. by apply accepted_view, Hacc, accepted_view. }
  split; [done|].
  pose proof (Inv_run _ _ Hrun) as [Hc Hs _ _ _ _ _].
  pose proof (Inv_run _ _ Hrun') as [Hc' Hs' _ _ _ _ _].
  unfold view in Hc, Hs, Hc', Hs'; simpl in Hc, Hs, Hc', Hs'.
  rewrite map_size_fmap in Hc, Hs, Hc', Hs'.
  unfold ActiveRequestCount. rewrite Hc, Hc'. unfold wrap64.
  rewrite !Z.mod_small by lia.
  assert (dom (heap s') ⊆ dom (heap s)) as Hdom.
  { intros id. rewrite !elem_of_dom. apply Hlive. }
  apply subseteq_size in Hdom. rewrite !size_dom in Hdom. lia.
Qed.

End MoreLoopProps.

(** * Adding to the timer index and taking out again *)

Section RoundTrip.
Context `{ExecutorOps}.
Import EventLoop Delivery Footprint TimerIndex.
Implicit Types (s : Loop) (id : nat) (now : Z).

Lemma multimap_position_emplace k v l :
  v ∉ l.*2 →
  ∃ pos, multimap_position k v (multimap_emplace k v l) = Some pos
         ∧ multimap_emplace k v l !! pos = Some (k, v)
         ∧ delete pos (multimap_emplace k v l) = l.
Proof.
  induction l as [|[k' v'] l IH]; intros Hv; simpl.
  { exists 0%nat. by rewrite bool_decide_eq_true_2. }
  destruct (k <? k'); simpl.
  { exists 0%nat. by rewrite bool_decide_eq_true_2. }
  rewrite bool_decide_eq_false_2.
  2:{ intros [_ ->]. apply Hv. simpl. apply elem_of_cons. by left. }
  destruct IH as (pos & -> & Hl & Hd).
  { intros Hin. apply Hv. simpl. apply elem_of_cons. by right. }
  exists (S pos). simpl. by rewrite Hd.
Qed.

Lemma Executor_eta (e : Executor) :
  mkExecutor (m_request_async e) (m_response e)
    (m_on_complete_callback_called e) (m_timesup_iterator e) (m_curl_handle e)
  = e.
Proof. by destruct e. Qed.

(** X13: [addTimesup] followed by [removeTimesup] for the same executor gives
    the timer index and the executor back as they were; [removeTimesup]
    returns the position the entry was at, and the timer is set from the
    index as it was, at the time of the removal. *)
Theorem addTimesup_removeTimesup_round_trip
    now now' id s e request budget :
  heap s !! id = Some e →
  m_request_async e = Some request →
  Request.Timesup request = Some budget →
  m_timesup_iterator e = None →
  id ∉ (m_timesup s).*2 →
  ∃ s1 s2 pos,
    addTimesup now id s = Some s1
    ∧ m_timesup s1 !! pos = Some (wrap64 (now + budget), id)
    ∧ (∃ e1, heap s1 !! id = Some e1
             ∧ m_timesup_iterator e1 = Some (wrap64 (now + budget)))
    ∧ removeTimesup now' id s1 = Some (s2, pos)
    ∧ m_timesup s2 = m_timesup s
    ∧ heap s2 = heap s
    ∧ m_timesup_timer s2 = timer_for now' (m_timesup s)
    ∧ trace s2 = trace s ++ [EvTimesupEmplace id (wrap64 (now + budget));
                             EvTimesupErase id]
    ∧ m_cmh s2 = m_cmh s
    ∧ m_active_request_count s2 = m_active_request_count s
    ∧ m_pending_requests s2 = m_pending_requests s
    ∧ m_grabbed_requests s2 = m_grabbed_requests s.
Proof.
  intros He Hr Hb Hit Hid.
  destruct (multimap_position_emplace (wrap64 (now + budget)) id
              (m_timesup s) Hid) as (pos & Hpos & Hl & Hd).
  unfold addTimesup. rewrite He; simpl. rewrite Hr; simpl. rewrite Hb, Hit.
  match goal with |- context [Some (updateTimesup now ?s0) = _] =>
    destruct (updateTimesup_timer_for now s0) as (Ht1 & Hi1 & Hh1 & Htr1);
    assert (m_cmh (updateTimesup now s0) = m_cmh s
            ∧ m_active_request_count (updateTimesup now s0)
              = m_active_request_count s
            ∧ m_pending_requests (updateTimesup now s0)
              = m_pending_requests s
            ∧ m_grabbed_requests (updateTimesup now s0)
              = m_grabbed_requests s) as (Hc1 & Hn1 & Hp1 & Hg1)
      by (unfold updateTimesup; by repeat case_match);
    set (s1 := updateTimesup now s0) in *
  end.
  simpl in Hi1, Hh1, Htr1, Ht1. clearbody s1.
  exists s1.
  assert (∃ s2, removeTimesup now' id s1 = Some (s2, pos)
    ∧ m_timesup s2 = m_timesup s
    ∧ heap s2 = heap s
    ∧ m_timesup_timer s2 = timer_for now' (m_timesup s)
    ∧ trace s2 = trace s ++ [EvTimesupEmplace id (wrap64 (now + budget));
                             EvTimesupErase id]
    ∧ m_cmh s2 = m_cmh s
    ∧ m_active_request_count s2 = m_active_request_count s
    ∧ m_pending_requests s2 = m_pending_requests s
    ∧ m_grabbed_requests s2 = m_grabbed_requests s) as (s2 & Hrm & Hrest).
  { unfold removeTimesup. rewrite Hh1, lookup_insert_eq. simpl.
    rewrite Hi1, Hpos. simpl. eexists. split; [done|].
    match goal with |- context [updateTimesup now' ?s0] =>
      destruct (updateTimesup_timer_for now' s0) as (Ht2 & Hi2 & Hh2 & Htr2);
      assert (m_cmh (updateTimesup now' s0) = m_cmh s1
              ∧ m_active_request_count (updateTimesup now' s0)
                = m_active_request_count s1
              ∧ m_pending_requests (updateTimesup now' s0)
                = m_pending_requests s1
              ∧ m_grabbed_requests (updateTimesup now' s0)
                = m_grabbed_requests s1) as (-> & -> & -> & ->)
        by (unfold updateTimesup; by repeat case_match)
    end.
    rewrite Ht2, Hi2, Hh2, Htr2. simpl. rewrite ?Hi1, ?Hh1, ?Htr1, ?Hd.
    rewrite insert_insert_eq.
    split; [done|]. split.
    { unfold with_timesup_iterator; simpl. rewrite <- Hit, Executor_eta.
      by apply insert_id. }
    split; [done|]. split; [by rewrite <- app_assoc|]. done. }
  exists s2, pos. split; [done|]. rewrite Hi1, Hh1, lookup_insert_eq.
  split; [done|]. split; [by eexists|]. done.
Qed.

(** What [updateTimesup] leaves alone. *)
Lemma updateTimesup_frame now s :
  m_is_stopping (updateTimesup now s) = m_is_stopping s
  ∧ m_active_request_count (updateTimesup now s) = m_active_request_count s
  ∧ m_pending_requests (updateTimesup now s) = m_pending_requests s
  ∧ m_grabbed_requests (updateTimesup now s) = m_grabbed_requests s
  ∧ m_cmh (updateTimesup now s) = m_cmh s
  ∧ next_executor (updateTimesup now s) = next_executor s.
Proof. unfold updateTimesup. by repeat case_match. Qed.

(** [addTimesup] for an executor with a budget and no iterator. *)
Lemma addTimesup_shape now id s e request budget :
  heap s !! id = Some e →
  m_request_async e = Some request →
  Request.Timesup request = Some budget →
  m_timesup_iterator e = None →
  let k := wrap64 (now + budget) in
  ∃ s1, addTimesup now id s = Some s1
    ∧ heap s1 = <[id := with_timesup_iterator (Some k) e]> (heap s)
    ∧ m_timesup s1 = multimap_emplace k id (m_timesup s)
    ∧ m_timesup_timer s1 = timer_for now (multimap_emplace k id (m_timesup s))
    ∧ trace s1 = trace s ++ [EvTimesupEmplace id k]
    ∧ m_is_stopping s1 = m_is_stopping s
    ∧ m_active_request_count s1 = m_active_request_count s
    ∧ m_pending_requests s1 = m_pending_requests s
    ∧ m_grabbed_requests s1 = m_grabbed_requests s
    ∧ m_cmh s1 = m_cmh s
    ∧ next_executor s1 = next_executor s.
Proof.
  intros He Hr Hb Hit k.
  unfold addTimesup. rewrite He; simpl. rewrite Hr; simpl. rewrite Hb, Hit.
  eexists. split; [done|].
  match goal with |- context [updateTimesup now ?s0] =>
    destruct (updateTimesup_timer_for now s0) as (-> & -> & -> & ->);
    destruct (updateTimesup_frame now s0) as (-> & -> & -> & -> & -> & ->)
  end.
  done.
Qed.

(** [removeTimesup] for an executor whose iterator designates a node. *)
Lemma removeTimesup_shape now id s e k pos :
  heap s !! id = Some e →
  m_timesup_iterator e = Some k →
  multimap_position k id (m_timesup s) = Some pos →
  ∃ s', removeTimesup now id s = Some (s', pos)
    ∧ heap s' = <[id := with_timesup_iterator None e]> (heap s)
    ∧ m_timesup s' = delete pos (m_timesup s)
    ∧ m_timesup_timer s' = timer_for now (delete pos (m_timesup s))
    ∧ trace s' = trace s ++ [EvTimesupErase id]
    ∧ m_is_stopping s' = m_is_stopping s
    ∧ m_active_request_count s' = m_active_request_count s
    ∧ m_pending_requests s' = m_pending_requests s
    ∧ m_grabbed_requests s' = m_grabbed_requests s
    ∧ m_cmh s' = m_cmh s
    ∧ next_executor s' = next_executor s.
Proof.
  intros He Hit Hpos.
  unfold removeTimesup. rewrite He; simpl. rewrite Hit, Hpos; simpl.
  eexists. split; [done|].
  match goal with |- context [updateTimesup now ?s0] =>
    destruct (updateTimesup_timer_for now s0) as (-> & -> & -> & ->);
    destruct (updateTimesup_frame now s0) as (-> & -> & -> & -> & -> & ->)
  end.
  done.
Qed.

(** The three shapes of [completeRequestNormal]: nothing to deliver, a
    delivery for an executor outside the timer index, and a delivery for
    one inside. *)
Lemma completeRequestNormal_silent now id status s e :
  heap s !! id = Some e →
  m_on_complete_callback_called e = true
  ∨ (∃ request, m_request_async e = Some request
                ∧ m_on_complete_handler request = None) →
  completeRequestNormal now id status s
  = Some (emit [EvExecutorDestroyed id]
            (set_heap (delete id (heap s))
               (set_active_request_count
                  (wrap64 (m_active_request_count s - 1)) s))).
Proof.
  intros He Hdone. unfold completeRequestNormal, deliverNormal.
  rewrite He; simpl.
  destruct (m_on_complete_callback_called e); [done|].
  destruct Hdone as [?|(request & -> & Hh)]; [done|]. simpl. by rewrite Hh.
Qed.

Lemma completeRequestNormal_indexed
    now id status s e request handler k pos :
  heap s !! id = Some e →
  m_on_complete_callback_called e = false →
  m_request_async e = Some request →
  m_on_complete_handler request = Some handler →
  m_timesup_iterator e = Some k →
  multimap_position k id (m_timesup s) = Some pos →
  ∃ s', completeRequestNormal now id status s = Some s'
    ∧ trace s'
      = trace s
        ++ [EvTimesupErase id;
            EvOnComplete id handler request
              (copyCurlToResponse (m_curl_handle e)
                 (set_lift_status status (m_response e)));
            EvExecutorDestroyed id]
    ∧ heap s' = delete id (heap s)
    ∧ m_cmh s' = m_cmh s
    ∧ m_timesup s' = delete pos (m_timesup s)
    ∧ m_timesup_timer s' = timer_for now (delete pos (m_timesup s))
    ∧ m_active_request_count s' = wrap64 (m_active_request_count s - 1)
    ∧ m_pending_requests s' = m_pending_requests s
    ∧ m_grabbed_requests s' = m_grabbed_requests s
    ∧ m_is_stopping s' = m_is_stopping s
    ∧ next_executor s' = next_executor s.
Proof.
  intros He Hflag Hreq Hh Hit Hpos.
  unfold completeRequestNormal, deliverNormal.
  rewrite He; simpl. rewrite Hflag, Hreq; simpl. rewrite Hh.
  match goal with |- context [removeTimesup now id ?s0] =>
    destruct (removeTimesup_shape now id s0
                (with_response
                   (copyCurlToResponse (m_curl_handle e)
                      (set_lift_status status (m_response e)))
                   (with_callback_called e)) k pos)
      as (s2 & -> & Hh2 & Hi2 & Ht2 & Htr2 & Hs2 & Hn2 & Hp2 & Hg2 & Hc2
          & Hx2)
  end; [simpl; by rewrite lookup_insert_eq|done|done|].
  simpl in *. rewrite Hh2, lookup_insert_eq. simpl.
  eexists. split; [done|]. simpl.
  rewrite Hh2, Hi2, Ht2, Htr2, Hn2, Hp2, Hg2, Hc2, Hs2, Hx2.
  rewrite <- !app_assoc, !delete_insert_eq. done.
Qed.

Lemma accept_loop_refused now code codes completions id rest s s1 s3 :
  addTimesup now id s = Some s1 →
  code ≠ CURLM_OK → code ≠ CURLM_CALL_MULTI_PERFORM →
  completeRequestNormal now id (convert CURLE_SEND_ERROR)
    (emit [EvMultiAddHandle id code] s1) = Some s3 →
  accept_loop now (code :: codes) completions (id :: rest) s
  = accept_loop now codes (tail completions) rest s3.
Proof.
  intros Ha ? ? Hc.
  cbn -[completeRequestNormal addTimesup checkActions].
  rewrite Ha. cbn -[completeRequestNormal addTimesup checkActions].
  rewrite bool_decide_eq_true_2 by done. by rewrite Hc.
Qed.

(** A delivery on the normal path for an executor that is not in the timer
    index. *)
Lemma completeRequestNormal_plain now id status s e request handler :
  heap s !! id = Some e →
  m_on_complete_callback_called e = false →
  m_request_async e = Some request →
  m_on_complete_handler request = Some handler →
  m_timesup_iterator e = None →
  ∃ s', completeRequestNormal now id status s = Some s'
    ∧ trace s'
      = trace s
        ++ [EvOnComplete id handler request
              (copyCurlToResponse (m_curl_handle e)
                 (set_lift_status status (m_response e)));
            EvExecutorDestroyed id]
    ∧ heap s' = delete id (heap s)
    ∧ m_cmh s' = m_cmh s
    ∧ m_timesup s' = m_timesup s
    ∧ m_timesup_timer s' = m_timesup_timer s
    ∧ m_active_request_count s' = wrap64 (m_active_request_count s - 1)
    ∧ m_pending_requests s' = m_pending_requests s
    ∧ m_grabbed_requests s' = m_grabbed_requests s.
Proof.
  intros He Hflag Hreq Hh Hit.
  unfold completeRequestNormal, deliverNormal.
  rewrite He; simpl. rewrite Hflag, Hreq; simpl. rewrite Hh.
  unfold removeTimesup; simpl. rewrite lookup_insert_eq; simpl.
  rewrite Hit; simpl. rewrite lookup_insert_eq; simpl.
  eexists. split; [done|]. simpl.
  rewrite <- app_assoc, !delete_insert_eq. done.
Qed.

(** X14: when [curl_multi_add_handle] refuses an executor whose request has a
    handler, the drain reports the request at once: it was put into the
    timer index, if it has a budget, and is taken out again; the handler is
    called with the status for CURLE_SEND_ERROR; the executor is destroyed
    and counted off; and the drain goes on with the next executor, with the
    multi handle and the timer index as they were. *)
Theorem refused_add_is_reported_at_once
    now code codes completions id rest s request handler :
  heap s !! id = Some (Executor_make request id) →
  m_on_complete_handler request = Some handler →
  id ∉ (m_timesup s).*2 →
  code ≠ CURLM_OK → code ≠ CURLM_CALL_MULTI_PERFORM →
  ∃ s3,
    accept_loop now (code :: codes) completions (id :: rest) s
    = accept_loop now codes (tail completions) rest s3
    ∧ trace s3
      = trace s ++ drain_adds s now id code
        ++ match Request.Timesup request with
           | Some _ => [EvTimesupErase id]
           | None => []
           end
        ++ [EvOnComplete id handler request
              (copyCurlToResponse id
                 (set_lift_status (convert CURLE_SEND_ERROR) Response_new));
            EvExecutorDestroyed id]
    ∧ heap s3 = delete id (heap s)
    ∧ m_cmh s3 = m_cmh s
    ∧ m_timesup s3 = m_timesup s
    ∧ m_active_request_count s3 = wrap64 (m_active_request_count s - 1)
    ∧ m_pending_requests s3 = m_pending_requests s
    ∧ m_grabbed_requests s3 = m_grabbed_requests s.
Proof.
  intros He Hh Hid Hok Hperform.
  destruct (Request.Timesup request) as [budget|] eqn:Hb.
  -     destruct (addTimesup_shape now id s (Executor_make request id) request
                budget He eq_refl Hb eq_refl)
      as (s1 & Hadd & Hh1 & Hi1 & Ht1 & Htr1 & Hs1 & Hn1 & Hp1 & Hg1 & Hc1
          & Hx1).
    destruct (multimap_position_emplace (wrap64 (now + budget)) id
                (m_timesup s) Hid) as (pos & Hpos & _ & Hd).
    destruct (completeRequestNormal_indexed now id
                (convert CURLE_SEND_ERROR)
                (emit [EvMultiAddHandle id code] s1)
                (with_timesup_iterator (Some (wrap64 (now + budget)))
                   (Executor_make request id))
                request handler (wrap64 (now + budget)) pos)
      as (s3 & Hc & Htr3 & Hh3 & Hc3 & Hi3 & _ & Hn3 & Hp3 & Hg3 & _);
      try done.
    { simpl. by rewrite Hh1, lookup_insert_eq. }
    { simpl. by rewrite Hi1. }
    simpl in *.
    exists s3. split; [by eapply accept_loop_refused|].
    rewrite Htr3, Hh3, Hc3, Hi3, Hn3, Hp3, Hg3, Htr1, Hh1, Hi1, Hd, Hn1.
    rewrite delete_insert_eq.
    split; [|done].
    unfold drain_adds. rewrite He; simpl. rewrite Hb. simpl.
    by rewrite <- !app_assoc.
  - assert (addTimesup now id s = Some s) as Hadd.
    { unfold addTimesup. rewrite He; simpl. by rewrite Hb. }
    destruct (completeRequestNormal_plain now id (convert CURLE_SEND_ERROR)
                (emit [EvMultiAddHandle id code] s)
                (Executor_make request id) request handler)
      as (s3 & Hc & Htr & Hh3 & Hc3 & Hi3 & _ & Hn3 & Hp3 & Hg3); try done.
    simpl in *.
    exists s3. split; [by eapply accept_loop_refused|]. split; [|done].
    rewrite Htr. unfold drain_adds. rewrite He; simpl. rewrite Hb.
    simpl. by rewrite <- app_assoc.
Qed.

End RoundTrip.

(** * Live executors *)

Section LivenessProps.
Context `{ExecutorOps}.
Import EventLoop Delivery Footprint TimerIndex Liveness.
Implicit Types (s : Loop) (id : nat) (now : Z) (busy : option nat).
Implicit Types (rest : list nat).

Lemma linked_new : linked None [] new.
Proof.
  split; simpl.
  - intros id. rewrite lookup_empty. split; [by intros [? ?]|].
    intros [Hin|[Hin|[Hin|?]]]; try done; by apply elem_of_nil in Hin.
  - intros id. rewrite lookup_empty. by intros [? ?].
  - constructor.
  - intros id [Hin|Hin]; by apply elem_of_nil in Hin.
  - done.
  - intros id [Hin|Hin]; by apply elem_of_nil in Hin.
  - intros entry Hin. by apply elem_of_nil in Hin.
  - intros id e k. by rewrite lookup_empty.
  - intros id e. by rewrite lookup_empty.
  - intros id e request Hin. by apply elem_of_empty in Hin.
Qed.

(** [linked] reads the heap, the queue, the multi handle, the allocator
    and the index only. *)
Lemma linked_ext busy rest s s' :
  heap s' = heap s → m_pending_requests s' = m_pending_requests s →
  m_cmh s' = m_cmh s → next_executor s' = next_executor s →
  m_timesup s' = m_timesup s →
  linked busy rest s → linked busy rest s'.
Proof.
  intros Hh Hp Hc Hn Hi [? ? ? ? ? ? ? ? ? ?].
  split; unfold fresh_executor in *; rewrite ?Hh, ?Hp, ?Hc, ?Hn, ?Hi; done.
Qed.

(** A write to an executor that is not queued. *)
Lemma linked_update busy rest id e e' s s' :
  linked busy rest s →
  heap s !! id = Some e → heap s' = <[id := e']> (heap s) →
  id ∉ m_pending_requests s → id ∉ rest →
  m_pending_requests s' = m_pending_requests s →
  m_cmh s' = m_cmh s → next_executor s' = next_executor s →
  (∀ entry, entry ∈ m_timesup s' →
            entry ∈ m_timesup s ∨ (entry.2 = id ∧ busy = Some id)) →
  (∀ entry, entry ∈ m_timesup s → entry.2 ≠ id → entry ∈ m_timesup s') →
  (∀ k, m_timesup_iterator e' = Some k → (k, id) ∈ m_timesup s') →
  (m_on_complete_callback_called e' = false → is_Some (m_request_async e')) →
  (∀ request,
     id ∈ m_cmh s →
     m_on_complete_callback_called e' = false →
     m_request_async e' = Some request →
     is_Some (m_on_complete_handler request) →
     is_Some (Request.Timesup request) →
     is_Some (m_timesup_iterator e')) →
  linked busy rest s'.
Proof.
  intros [Hlive Hbelow Hnd Hapart Hbusy Hq Hidx Hit Hreq Harm]
         He Hh Hnp Hnr Hp Hc Hn Hsub Hkeep Hit' Hreq' Harm'.
  assert (∀ id', is_Some (heap s' !! id') ↔ is_Some (heap s !! id'))
    as Hsame.
  { intros id'. rewrite Hh. destruct (decide (id' = id)) as [->|Hne].
    - rewrite lookup_insert_eq, He. split; by eexists.
    - by rewrite lookup_insert_ne. }
  split; rewrite ?Hp, ?Hc, ?Hn.
  - intros id'. rewrite Hsame. apply Hlive.
  - intros id'. rewrite Hsame. apply Hbelow.
  - done.
  - done.
  - done.
  - intros id' Hin. destruct (Hq id' Hin) as [r Hr]. exists r.
    rewrite Hh, lookup_insert_ne; [done|].
    intros <-. by destruct Hin.
  - intros entry Hin. apply Hsub in Hin as [Hin|[Heq Hb]]; [by apply Hidx|].
    rewrite Heq. split; [|done]. apply Hbelow. by eexists.
  - intros id' e0 k. rewrite Hh. destruct (decide (id' = id)) as [->|Hne].
    + rewrite lookup_insert_eq. intros [= <-]. apply Hit'.
    + rewrite lookup_insert_ne by done. intros He0 Hk.
      apply Hkeep; [by eapply Hit | done].
  - intros id' e0. rewrite Hh. destruct (decide (id' = id)) as [->|Hne].
    + rewrite lookup_insert_eq. intros [= <-]. apply Hreq'.
    + rewrite lookup_insert_ne by done. apply Hreq.
  - intros id' e0 request Hin. rewrite Hh.
    destruct (decide (id' = id)) as [->|Hne].
    + rewrite lookup_insert_eq. intros [= <-]. by apply Harm'.
    + rewrite lookup_insert_ne by done. by apply Harm.
Qed.

(** The busy executor is destroyed. *)
Lemma linked_destroy rest id s s' :
  linked (Some id) rest s →
  heap s' = delete id (heap s) →
  m_pending_requests s' = m_pending_requests s →
  m_cmh s' = m_cmh s → next_executor s' = next_executor s →
  (∀ entry, entry ∈ m_timesup s' → entry ∈ m_timesup s) →
  (∀ entry, entry ∈ m_timesup s → entry.2 ≠ id → entry ∈ m_timesup s') →
  linked None rest s'.
Proof.
  intros [Hlive Hbelow Hnd Hapart Hbusy Hq Hidx Hit Hreq Harm]
         Hh Hp Hc Hn Hsub Hkeep.
  assert ((id ∉ m_pending_requests s) ∧ (id ∉ rest) ∧ (id ∉ m_cmh s))
    as (Hnp & Hnr & Hnc).
  { split_and!.
    - intros Hin. by destruct (Hapart id (or_introl Hin)) as [_ ?].
    - intros Hin. by destruct (Hapart id (or_intror Hin)) as [_ ?].
    - by apply Hbusy. }
  split; rewrite ?Hp, ?Hc, ?Hn, ?Hh.
  - intros id'. destruct (decide (id' = id)) as [->|Hne].
    + rewrite lookup_delete_eq. split; [by intros [? ?]|].
      intros [?|[?|[?|?]]]; done.
    + rewrite lookup_delete_ne by done. rewrite Hlive.
      split; (intros [?|[?|[?|?]]]; [tauto|tauto|tauto|by simplify_eq]).
  - intros id'. destruct (decide (id' = id)) as [->|Hne].
    + rewrite lookup_delete_eq. by intros [? ?].
    + rewrite lookup_delete_ne by done. apply Hbelow.
  - done.
  - intros id' Hin. split; [by apply Hapart | done].
  - done.
  - intros id' Hin. destruct (Hq id' Hin) as [r Hr]. exists r.
    rewrite Hh, lookup_delete_ne; [done|].
    intros <-. by destruct Hin.
  - intros entry Hin. by apply Hidx, Hsub.
  - intros id' e0 k. destruct (decide (id' = id)) as [->|Hne].
    + by rewrite lookup_delete_eq.
    + rewrite lookup_delete_ne by done. intros He0 Hk.
      apply Hkeep; [by eapply Hit | done].
  - intros id' e0. destruct (decide (id' = id)) as [->|Hne].
    + by rewrite lookup_delete_eq.
    + rewrite lookup_delete_ne by done. apply Hreq.
  - intros id' e0 request Hin.
    destruct (decide (id' = id)) as [->|Hne]; [done|].
    rewrite lookup_delete_ne by done. by apply Harm.
Qed.

Lemma multimap_position_elem k v l :
  (k, v) ∈ l → is_Some (multimap_position k v l).
Proof.
  induction l as [|[k' v'] l IH]; simpl.
  { intros Hin. by apply elem_of_nil in Hin. }
  intros Hin. case_bool_decide as Heq; [by eexists|].
  apply elem_of_cons in Hin as [Hin|Hin].
  { injection Hin as -> ->. by destruct Heq. }
  destruct (IH Hin) as [pos ->]. by eexists.
Qed.

Lemma delete_position_keeps k v l pos entry :
  multimap_position k v l = Some pos →
  (entry ∈ delete pos l → entry ∈ l)
  ∧ (entry ∈ l → entry.2 ≠ v → entry ∈ delete pos l).
Proof.
  intros Hpos.
  apply multimap_position_split in Hpos as (l1 & l2 & -> & -> & _).
  rewrite !elem_of_app, elem_of_cons. split; [tauto|].
  intros [?|[->|?]] Hne; [tauto|done|tauto].
Qed.

(** [completeRequestNormal] for the busy executor is defined, and the
    executor is gone afterwards. *)
Lemma completeRequestNormal_linked now id status rest s :
  linked (Some id) rest s →
  ∃ s', completeRequestNormal now id status s = Some s'
    ∧ linked None rest s'
    ∧ heap s' = delete id (heap s)
    ∧ m_cmh s' = m_cmh s
    ∧ m_pending_requests s' = m_pending_requests s
    ∧ m_grabbed_requests s' = m_grabbed_requests s
    ∧ m_active_request_count s' = wrap64 (m_active_request_count s - 1)
    ∧ next_executor s' = next_executor s.
Proof.
  intros Hlk.
  assert (∀ s',
    heap s' = delete id (heap s) → m_cmh s' = m_cmh s →
    m_pending_requests s' = m_pending_requests s →
    m_grabbed_requests s' = m_grabbed_requests s →
    m_active_request_count s' = wrap64 (m_active_request_count s - 1) →
    next_executor s' = next_executor s →
    (∀ entry, entry ∈ m_timesup s' → entry ∈ m_timesup s) →
    (∀ entry, entry ∈ m_timesup s → entry.2 ≠ id → entry ∈ m_timesup s') →
    linked None rest s'
    ∧ heap s' = delete id (heap s)
    ∧ m_cmh s' = m_cmh s
    ∧ m_pending_requests s' = m_pending_requests s
    ∧ m_grabbed_requests s' = m_grabbed_requests s
    ∧ m_active_request_count s' = wrap64 (m_active_request_count s - 1)
    ∧ next_executor s' = next_executor s) as Hfin.
  { intros s' ? ? ? ? ? ? ? ?. split; [by eapply linked_destroy|done]. }
  destruct (proj2 (lk_live _ _ _ Hlk id)) as [e He]; [tauto|].
  destruct (m_on_complete_callback_called e) eqn:Hflag.
  { eexists. split; [by eapply completeRequestNormal_silent; [|left]|].
    by apply Hfin. }
  destruct (lk_request _ _ _ Hlk id e He Hflag) as [request Hreq].
  destruct (m_on_complete_handler request) as [handler|] eqn:Hh.
  2:{ eexists. split.
      - eapply completeRequestNormal_silent; [done|]. right. by exists request.
      - by apply Hfin. }
  destruct (m_timesup_iterator e) as [k|] eqn:Hit.
  - destruct (multimap_position_elem k id (m_timesup s)) as [pos Hpos].
    { by eapply lk_iterator. }
    destruct (completeRequestNormal_indexed now id status s e request handler
                k pos He Hflag Hreq Hh Hit Hpos)
      as (s' & Hc & _ & Hh' & Hc' & Hi' & _ & Hn' & Hp' & Hg' & _ & Hx').
    exists s'. split; [done|]. apply Hfin; try done.
    + intros entry. rewrite Hi'. by apply (delete_position_keeps k id).
    + intros entry. rewrite Hi'. by apply (delete_position_keeps k id).
  - destruct (completeRequestNormal_plain now id status s e request handler
                He Hflag Hreq Hh Hit)
      as (s' & Hc & _ & Hh' & Hc' & Hi' & _ & Hn' & Hp' & Hg').
    exists s'. split; [done|].
    assert (next_executor s' = next_executor s) as Hx'.
    { pose proof (touches_completeRequestNormal _ _ _ _ _ Hc) as Ht.
      by destruct Ht. }
    apply Hfin; try done; intros entry; by rewrite Hi'.
Qed.

(** An executor of the multi handle becomes the busy one, and back. *)
Lemma linked_from_cmh id rest s :
  linked None rest s → id ∈ m_cmh s →
  linked (Some id) rest (set_cmh (m_cmh s ∖ {[id]}) s).
Proof.
  intros [Hlive Hbelow Hnd Hapart Hbusy Hq Hidx Hit Hreq Harm] Hin.
  split; simpl; try done.
  - intros id'. rewrite Hlive, elem_of_difference, elem_of_singleton.
    destruct (decide (id' = id)) as [->|Hne].
    + split; intros _; [by do 3 right | right; right; by left].
    + split; (intros [?|[?|[?|?]]]; [tauto|tauto|tauto|by simplify_eq]).
  - intros id' Hin'. destruct (Hapart id' Hin') as [Hn _].
    split; [by intros [? _]%elem_of_difference|].
    intros [= <-]. done.
  - intros id' [= <-]. rewrite elem_of_difference, elem_of_singleton. tauto.
  - intros id' e request [Hin' _]%elem_of_difference. by apply Harm.
Qed.

Lemma linked_to_cmh id rest s :
  linked (Some id) rest s →
  (∀ e request,
     heap s !! id = Some e →
     m_on_complete_callback_called e = false →
     m_request_async e = Some request →
     is_Some (m_on_complete_handler request) →
     is_Some (Request.Timesup request) →
     is_Some (m_timesup_iterator e)) →
  linked None rest (set_cmh ({[id]} ∪ m_cmh s) s).
Proof.
  intros [Hlive Hbelow Hnd Hapart Hbusy Hq Hidx Hit Hreq Harm] Harm'.
  split; simpl; try done.
  - intros id'. rewrite Hlive, elem_of_union, elem_of_singleton.
    split.
    + intros [?|[?|[?|?]]]; [tauto|tauto|tauto|].
      simplify_eq. right; right; left. by left.
    + intros [?|[?|[[->|?]|?]]]; [tauto|tauto| |tauto|done].
      by do 3 right.
  - intros id' Hin'. destruct (Hapart id' Hin') as [Hn Hb].
    split; [|done]. rewrite elem_of_union, elem_of_singleton.
    intros [->|?]; done.
  - intros id' e request [->%elem_of_singleton|Hin']%elem_of_union.
    + apply Harm'.
    + by apply Harm.
Qed.

(** The first of the grabbed executors becomes the busy one. *)
Lemma linked_take id rest s :
  linked None (id :: rest) s → linked (Some id) rest s.
Proof.
  intros [Hlive Hbelow Hnd Hapart Hbusy Hq Hidx Hit Hreq Harm].
  assert (NoDup (m_pending_requests s ++ rest)
          ∧ (id ∉ m_pending_requests s) ∧ (id ∉ rest)) as (Hnd' & Hnp & Hnr).
  { apply NoDup_app in Hnd as (Hn1 & Hdis & Hn2).
    apply NoDup_cons in Hn2 as [Hn2 Hn3]. split_and!; [|..|done].
    - apply NoDup_app. split_and!; [done| |done].
      intros x H1 H2. apply (Hdis x H1), elem_of_cons. by right.
    - intros Hin. apply (Hdis id Hin), elem_of_cons. by left. }
  split; try done.
  - intros id'. rewrite Hlive, elem_of_cons.
    split.
    + intros [?|[[->|?]|[?|?]]]; [tauto| |tauto|tauto|done].
      by do 3 right.
    + intros [?|[?|[?|?]]]; [tauto|tauto|tauto|].
      simplify_eq. right; left. by left.
  - intros id' Hin. split.
    + apply Hapart. rewrite elem_of_cons. tauto.
    + intros [= <-]. tauto.
  - intros id' [= <-]. apply Hapart. rewrite elem_of_cons. tauto.
  - intros id' Hin. apply Hq. rewrite elem_of_cons. tauto.
  - intros entry Hin. destruct (Hidx entry Hin) as (? & ? & Hn).
    split_and!; [done..|]. intros ?. apply Hn, elem_of_cons. by right.
Qed.

(** One [CURLMSG_DONE] message for a handle of the multi handle. *)
Lemma check_one_linked now id status rest s :
  linked None rest s → id ∈ m_cmh s →
  ∃ s1,
    completeRequestNormal now id status
      (emit [EvMultiRemoveHandle id] (set_cmh (m_cmh s ∖ {[id]}) s))
    = Some s1
    ∧ linked None rest s1
    ∧ heap s1 = delete id (heap s)
    ∧ m_cmh s1 = m_cmh s ∖ {[id]}
    ∧ m_pending_requests s1 = m_pending_requests s
    ∧ m_grabbed_requests s1 = m_grabbed_requests s
    ∧ m_active_request_count s1 = wrap64 (m_active_request_count s - 1)
    ∧ next_executor s1 = next_executor s.
Proof.
  intros Hlk Hin.
  apply (linked_from_cmh id) in Hlk; [|done].
  eapply (linked_ext _ _ _
            (emit [EvMultiRemoveHandle id] (set_cmh (m_cmh s ∖ {[id]}) s)))
    in Hlk; [|done..].
  destruct (completeRequestNormal_linked now id status rest _ Hlk)
    as (s1 & Hc & ? & ? & ? & ? & ? & ? & ?).
  by exists s1.
Qed.

Lemma checkActions_linked now msgs rest s s' :
  linked None rest s → checkActions now msgs s = Some s' →
  linked None rest s'
  ∧ m_pending_requests s' = m_pending_requests s
  ∧ m_grabbed_requests s' = m_grabbed_requests s
  ∧ next_executor s' = next_executor s.
Proof.
  revert s. induction msgs as [|[id code] msgs IH]; intros s Hlk Hc;
    simpl in Hc.
  { by simplify_eq. }
  case_bool_decide as Hin; [|done].
  destruct (check_one_linked now id (convert code) rest s Hlk Hin)
    as (s1 & Hs1 & Hlk1 & _ & _ & Hp1 & Hg1 & _ & Hn1).
  rewrite Hs1 in Hc. simpl in Hc.
  destruct (IH s1 Hlk1 Hc) as (? & ? & ? & ?).
  split; [done|]. split; [congruence|]. split; congruence.
Qed.

(** [addTimesup] for the busy executor, as [StartRequest] made it. *)
Lemma addTimesup_linked now id request rest s :
  linked (Some id) rest s →
  heap s !! id = Some (Executor_make request id) →
  ∃ s1 e1,
    addTimesup now id s = Some s1
    ∧ linked (Some id) rest s1
    ∧ heap s1 !! id = Some e1
    ∧ (is_Some (Request.Timesup request) → is_Some (m_timesup_iterator e1))
    ∧ m_request_async e1 = Some request
    ∧ m_cmh s1 = m_cmh s
    ∧ m_pending_requests s1 = m_pending_requests s
    ∧ m_grabbed_requests s1 = m_grabbed_requests s
    ∧ next_executor s1 = next_executor s.
Proof.
  intros Hlk He.
  destruct (Request.Timesup request) as [budget|] eqn:Hb.
  - destruct (addTimesup_shape now id s (Executor_make request id) request
                budget He eq_refl Hb eq_refl)
      as (s1 & Hadd & Hh1 & Hi1 & _ & _ & _ & _ & Hp1 & Hg1 & Hc1 & Hx1).
    exists s1, (with_timesup_iterator (Some (wrap64 (now + budget)))
                  (Executor_make request id)).
    split; [done|]. split.
    2:{ rewrite Hh1, lookup_insert_eq. by split_and!. }
    eapply (linked_update _ _ id); try done.
    + intros Hin. by destruct (lk_apart _ _ _ Hlk id (or_introl Hin)).
    + intros Hin. by destruct (lk_apart _ _ _ Hlk id (or_intror Hin)).
    + intros entry. rewrite Hi1.
      intros [->|?]%elem_of_multimap_emplace; [by right | by left].
    + intros entry Hin _. rewrite Hi1. apply elem_of_multimap_emplace.
      by right.
    + intros k [= <-]. rewrite Hi1. apply elem_of_multimap_emplace.
      by left.
  - exists s, (Executor_make request id).
    split; [unfold addTimesup; rewrite He; simpl; by rewrite Hb|].
    split; [done|]. split; [done|]. split; [by intros [? ?]|]. done.
Qed.

(** One turn of the drain's loop, and the loop. *)
Lemma accept_turn_linked now code msgs id rest s s3 :
  linked None (id :: rest) s →
  (s1 ← addTimesup now id s;
   let s2 := emit [EvMultiAddHandle id code] s1 in
   if bool_decide (code ≠ CURLM_OK ∧ code ≠ CURLM_CALL_MULTI_PERFORM)
   then completeRequestNormal now id (convert CURLE_SEND_ERROR) s2
   else checkActions now msgs (set_cmh ({[id]} ∪ m_cmh s2) s2)) = Some s3 →
  linked None rest s3
  ∧ m_pending_requests s3 = m_pending_requests s
  ∧ m_grabbed_requests s3 = m_grabbed_requests s
  ∧ next_executor s3 = next_executor s.
Proof.
  intros Hlk Hs.
  destruct (lk_queued _ _ _ Hlk id) as [request He].
  { right. apply elem_of_cons. by left. }
  apply linked_take in Hlk.
  destruct (addTimesup_linked now id request rest s Hlk He)
    as (s1 & e1 & Hadd & Hlk1 & He1 & Hit1 & Hr1 & Hc1 & Hp1 & Hg1 & Hx1).
  rewrite Hadd in Hs. simpl in Hs.
  apply (linked_ext _ _ _ (emit [EvMultiAddHandle id code] s1)) in Hlk1;
    [|done..].
  case_bool_decide.
  - destruct (completeRequestNormal_linked now id (convert CURLE_SEND_ERROR)
                rest _ Hlk1) as (s3' & Hs' & ? & _ & _ & ? & ? & _ & ?).
    rewrite Hs in Hs'. injection Hs' as <-. simpl in *.
    split; [done|]. split; [congruence|]. split; congruence.
  - apply linked_to_cmh in Hlk1.
    2:{ simpl. intros e request'. rewrite He1. intros [= <-] _.
        rewrite Hr1. intros [= <-] _ Hb. by apply Hit1. }
    apply checkActions_linked with (rest := rest) in Hs as (? & ? & ? & ?);
      [|done].
    simpl in *. split; [done|]. split; [congruence|]. split; congruence.
Qed.

Lemma accept_loop_linked now codes completions rest s s' :
  linked None rest s →
  accept_loop now codes completions rest s = Some s' →
  linked None [] s'
  ∧ m_pending_requests s' = m_pending_requests s
  ∧ m_grabbed_requests s' = m_grabbed_requests s
  ∧ next_executor s' = next_executor s.
Proof.
  revert codes completions s.
  induction rest as [|id rest IH]; intros codes completions s Hlk Hc.
  { simpl in Hc. by simplify_eq. }
  cbn -[completeRequestNormal addTimesup checkActions] in Hc.
  match type of Hc with
  | (?m ≫= _) = _ => destruct m as [s1|] eqn:Hadd
  end; [|done].
  cbn -[completeRequestNormal addTimesup checkActions] in Hc.
  match type of Hc with
  | (?m ≫= _) = _ => destruct m as [s3|] eqn:Hs3
  end; [|done].
  cbn -[completeRequestNormal addTimesup checkActions] in Hc.
  destruct (accept_turn_linked now (hd CURLM_OK codes) (hd [] completions)
              id rest s s3 Hlk) as (Hlk3 & ? & ? & ?).
  { rewrite Hadd. cbn -[completeRequestNormal addTimesup checkActions].
    exact Hs3. }
  destruct (IH _ _ _ Hlk3 Hc) as (? & ? & ? & ?).
  split; [done|]. split; [congruence|]. split; congruence.
Qed.

Lemma on_uv_requests_accept_async_linked now codes completions s s' :
  linked None [] s → m_grabbed_requests s = [] →
  on_uv_requests_accept_async now codes completions s = Some s' →
  linked None [] s'.
Proof.
  intros Hlk Hg Hc. unfold on_uv_requests_accept_async in Hc.
  match type of Hc with
  | (?m ≫= _) = _ => destruct m as [s2|] eqn:Hm
  end; simpl in Hc; [|done].
  simplify_eq.
  apply accept_loop_linked in Hm as (Hlk2 & Hp2 & _).
  - simpl in Hp2. eapply linked_ext; [..|exact Hlk2]; done.
  - simpl. rewrite Hg.
    destruct Hlk as [Hlive Hbelow Hnd Hapart Hbusy Hq Hidx Hit Hreq Harm].
    split; simpl; try done.
    + intros id. rewrite Hlive. rewrite elem_of_nil. tauto.
    + by rewrite app_nil_r in Hnd.
    + intros id [Hin|Hin]; [by apply elem_of_nil in Hin|].
      apply Hapart. by left.
    + intros id [Hin|Hin]; [by apply elem_of_nil in Hin|].
      destruct (Hq id) as [r Hr]; [by left|]. by exists r.
    + intros entry Hin. destruct (Hidx entry Hin) as (? & ? & ?).
      split_and!; [done| |done]. intros Hn. by apply elem_of_nil in Hn.
Qed.

(** The time's-up path. *)
Lemma timesup_turn_linked now id s s1 s2 next :
  linked None [] s →
  (∃ k, (k, id) ∈ m_timesup s) →
  completeRequestTimesup id s = Some s1 →
  removeTimesup now id s1 = Some (s2, next) →
  linked None [] s2.
Proof.
  intros Hlk [k0 Hk0] Hc Hrm.
  destruct (lk_index _ _ _ Hlk _ Hk0) as (_ & Hnp & Hnr). simpl in Hnp, Hnr.
  unfold completeRequestTimesup in Hc.
  destruct (heap s !! id) as [e|] eqn:He; simpl in Hc; [|done].
  assert (∃ e1,
    heap s1 !! id = Some e1 ∧ linked None [] s1
    ∧ m_pending_requests s1 = m_pending_requests s
    ∧ (m_on_complete_callback_called e1 = false →
       ∃ request, m_request_async e1 = Some request
                  ∧ m_on_complete_handler request = None))
    as (e1 & He1 & Hlk1 & Hp1 & Hquiet).
  { destruct (m_on_complete_callback_called e) eqn:Hflag.
    { simplify_eq. exists e. split_and!; try done. by rewrite Hflag. }
    destruct (m_request_async e) as [r|] eqn:Hr; simpl in Hc; [|done].
    destruct (m_on_complete_handler r) as [h|] eqn:Hh.
    2:{ simplify_eq. exists e. split_and!; try done. intros _. by exists r. }
    destruct (Request.Timesup r) as [b|]; simpl in Hc; [|done].
    simplify_eq. eexists. simpl. rewrite lookup_insert_eq.
    split; [done|]. split; [|done].
    eapply (linked_update _ _ id e); try done; simpl; try done.
    - intros entry ?. by left.
    - intros k Hk. by eapply lk_iterator. }
  unfold removeTimesup in Hrm. rewrite He1 in Hrm. simpl in Hrm.
  destruct (m_timesup_iterator e1) as [k|] eqn:Hit; [|by simplify_eq].
  destruct (multimap_position k id (m_timesup s1)) as [pos|] eqn:Hpos;
    simpl in Hrm; [|done].
  injection Hrm as <- <-.
  match goal with |- linked _ _ (updateTimesup now ?s0) =>
    destruct (updateTimesup_timer_for now s0) as (_ & Hi & Hh & _);
    destruct (updateTimesup_frame now s0) as (_ & _ & Hp & _ & Hcm & Hx)
  end.
  simpl in *.
  eapply (linked_update _ _ id e1); try done; simpl; try congruence.
  - intros entry. rewrite Hi. intros Hin. left.
    by apply (delete_position_keeps k id) in Hin.
  - intros entry Hin Hne. rewrite Hi.
    by apply (delete_position_keeps k id).
  - intros Hflag. by eapply lk_request.
  - intros request _ Hflag Hreq [h Hh'] _.
    destruct (Hquiet Hflag) as (r & Hr & Hnone). simplify_eq.
Qed.

Lemma timesup_loop_linked fuel now pos s s' :
  linked None [] s → timesup_loop fuel now pos s = Some s' →
  linked None [] s'.
Proof.
  revert pos s. induction fuel as [|fuel IH]; intros pos s Hlk Hc;
    simpl in Hc; [done|].
  destruct (m_timesup s !! pos) as [[first id]|] eqn:Hl; [|by simplify_eq].
  destruct (now <? first); [by simplify_eq|].
  destruct (completeRequestTimesup id s) as [s1|] eqn:H1; simpl in Hc;
    [|done].
  destruct (removeTimesup now id s1) as [[s2 next]|] eqn:H2; simpl in Hc;
    [|done].
  apply (IH next s2); [|done].
  eapply timesup_turn_linked; [done| |done..].
  exists first. by eapply list_elem_of_lookup_2.
Qed.

Lemma linked_StartRequest request s :
  linked None [] s → linked None [] (StartRequest request s).2.
Proof.
  intros Hlk. unfold StartRequest. destruct (m_is_stopping s); [done|].
  destruct Hlk as [Hlive Hbelow Hnd Hapart Hbusy Hq Hidx Hit Hreq Harm].
  assert (heap s !! next_executor s = None) as Hfresh.
  { destruct (heap s !! next_executor s) eqn:E; [|done].
    assert (next_executor s < next_executor s)%nat; [|lia].
    apply Hbelow. by eexists. }
  assert (∀ id, id ∈ m_pending_requests s ∨ id ∈ m_cmh s →
                id ≠ next_executor s) as Hne.
  { intros id Hin ->.
    assert (is_Some (heap s !! next_executor s)) as [? ?]
      by (apply Hlive; tauto).
    congruence. }
  split; simpl.
  - intros id. rewrite elem_of_app, list_elem_of_singleton.
    destruct (decide (id = next_executor s)) as [->|Hid].
    + rewrite lookup_insert_eq. split; [tauto | by eexists].
    + rewrite lookup_insert_ne by done. rewrite Hlive. tauto.
  - intros id. destruct (decide (id = next_executor s)) as [->|Hid].
    + lia.
    + rewrite lookup_insert_ne by done. intros Hl. apply Hbelow in Hl. lia.
  - rewrite app_nil_r in *. apply NoDup_app. split_and!; [done| |].
    + intros id Hin ->%list_elem_of_singleton. by eapply Hne; [left|].
    + apply NoDup_singleton.
  - intros id [Hin|Hin]; [|by apply elem_of_nil in Hin].
    split; [|done].
    apply elem_of_app in Hin as [Hin| ->%list_elem_of_singleton].
    + apply Hapart. by left.
    + intros Hin. by eapply Hne; [right|].
  - done.
  - intros id [Hin|Hin]; [|by apply elem_of_nil in Hin].
    apply elem_of_app in Hin as [Hin| ->%list_elem_of_singleton].
    + destruct (Hq id) as [r Hr]; [by left|]. exists r. simpl.
      rewrite lookup_insert_ne; [done|]. intros <-. by eapply Hne; [left|].
    + exists request. simpl. by rewrite lookup_insert_eq.
  - intros entry Hin. destruct (Hidx entry Hin) as (Hlt & Hn & _).
    split_and!; [lia| |by intros ?%elem_of_nil].
    intros [?|Heq%list_elem_of_singleton]%elem_of_app; [done|lia].
  - intros id e k. destruct (decide (id = next_executor s)) as [->|Hid].
    + rewrite lookup_insert_eq. by intros [= <-].
    + rewrite lookup_insert_ne by done. apply Hit.
  - intros id e. destruct (decide (id = next_executor s)) as [->|Hid].
    + rewrite lookup_insert_eq. intros [= <-]. by eexists.
    + rewrite lookup_insert_ne by done. apply Hreq.
  - intros id e r Hin. rewrite lookup_insert_ne; [by apply Harm|].
    intros <-. by eapply Hne; [right|].
Qed.

Lemma on_uv_timesup_callback_linked now s s' :
  linked None [] s → on_uv_timesup_callback now s = Some s' →
  linked None [] s'.
Proof.
  unfold on_uv_timesup_callback. intros Hlk Hc.
  destruct (m_timesup s); [by simplify_eq|].
  by eapply timesup_loop_linked.
Qed.

Lemma linked_io_step ev s s' :
  queues_ok s → linked None [] s → io_step ev s = Some s' →
  linked None [] s'.
Proof.
  intros Hq Hlk Hs. destruct ev as [now codes completions|now msgs|now];
    simpl in Hs.
  - eapply on_uv_requests_accept_async_linked; [done| |done].
    by destruct Hq.
  - by apply checkActions_linked with (rest := []) in Hs as [? _].
  - destruct (m_timesup_timer s) as [[started timeout]|]; [|done].
    destruct (started + timeout <=? now); [|done].
    eapply on_uv_timesup_callback_linked; [|exact Hs].
    by eapply linked_ext; [..|exact Hlk].
Qed.

Lemma linked_run actions s :
  run actions new = Some s → queues_ok s ∧ linked None [] s.
Proof.
  assert (∀ s0, queues_ok s0 → linked None [] s0 →
                run actions s0 = Some s → queues_ok s ∧ linked None [] s)
    as Hgen.
  { induction actions as [|a actions IH]; intros s0 Hq Hlk Hr; simpl in Hr.
    { by simplify_eq. }
    destruct (step a s0) as [s1|] eqn:Hs; simpl in Hr; [|done].
    apply (IH s1); [| |done].
    - eapply (queues_ok_run [a]); [exact Hq|]. simpl. by rewrite Hs.
    - destruct a as [request| |ev]; simpl in Hs.
      + simplify_eq. by apply linked_StartRequest.
      + simplify_eq. by eapply linked_ext; [..|exact Hlk].
      + by eapply linked_io_step. }
  intros Hr. by apply (Hgen new queues_ok_new linked_new).
Qed.

Lemma accept_loop_defined now codes rest s :
  linked None rest s → is_Some (accept_loop now codes [] rest s).
Proof.
  revert codes s. induction rest as [|id rest IH]; intros codes s Hlk.
  { by eexists. }
  assert (∃ s3,
    (s1 ← addTimesup now id s;
     let s2 := emit [EvMultiAddHandle id (hd CURLM_OK codes)] s1 in
     if bool_decide (hd CURLM_OK codes ≠ CURLM_OK
                     ∧ hd CURLM_OK codes ≠ CURLM_CALL_MULTI_PERFORM)
     then completeRequestNormal now id (convert CURLE_SEND_ERROR) s2
     else checkActions now [] (set_cmh ({[id]} ∪ m_cmh s2) s2)) = Some s3)
    as [s3 Hs3].
  { destruct (lk_queued _ _ _ Hlk id) as [request He].
    { right. apply elem_of_cons. by left. }
    destruct (addTimesup_linked now id request rest s (linked_take _ _ _ Hlk)
                He) as (s1 & e1 & -> & Hlk1 & _).
    cbn -[completeRequestNormal]. case_bool_decide; [|by eexists].
    apply (linked_ext _ _ _
             (emit [EvMultiAddHandle id (hd CURLM_OK codes)] s1)) in Hlk1;
      [|done..].
    destruct (completeRequestNormal_linked now id (convert CURLE_SEND_ERROR)
                rest _ Hlk1) as (s3 & -> & _).
    by eexists. }
  destruct (accept_turn_linked now _ [] id rest s s3 Hlk Hs3) as [Hlk3 _].
  cbn -[completeRequestNormal addTimesup checkActions].
  cbn -[completeRequestNormal addTimesup checkActions] in Hs3.
  destruct (addTimesup now id s) as [s1|]; [|done].
  cbn -[completeRequestNormal addTimesup checkActions] in *.
  rewrite Hs3. cbn -[completeRequestNormal addTimesup checkActions].
  apply IH, Hlk3.
Qed.

Lemma wrap64_minus a b : wrap64 (wrap64 a - b) = wrap64 (a - b).
Proof. unfold wrap64. by rewrite Zminus_mod_idemp_l. Qed.

Lemma checkActions_done now msgs s :
  linked None [] s → done_messages msgs s →
  wrap64 (m_active_request_count s) = m_active_request_count s →
  ∃ s', checkActions now msgs s = Some s'
    ∧ linked None [] s'
    ∧ m_cmh s' = m_cmh s ∖ list_to_set msgs.*1
    ∧ (∀ id, heap s' !! id
             = if bool_decide (id ∈ msgs.*1) then None else heap s !! id)
    ∧ m_active_request_count s'
      = wrap64 (m_active_request_count s - Z.of_nat (length msgs)).
Proof.
  revert s. induction msgs as [|[id code] msgs IH];
    intros s Hlk [Hnd Hin] Hcount.
  { exists s. simpl. split_and!; try done.
    - by rewrite difference_empty_L.
    - by rewrite Z.sub_0_r. }
  simpl in Hnd. apply NoDup_cons in Hnd as [Hid Hnd].
  assert (id ∈ m_cmh s) as Hcmh
    by (apply Hin; simpl; apply elem_of_cons; by left).
  destruct (check_one_linked now id (convert code) [] s Hlk Hcmh)
    as (s1 & Hs1 & Hlk1 & Hh1 & Hc1 & _ & _ & Hn1 & _).
  destruct (IH s1 Hlk1) as (s' & Hs' & Hlk' & Hc' & Hh' & Hn').
  { split; [done|]. intros id' Hin'. rewrite Hc1.
    apply elem_of_difference. split.
    - apply Hin. simpl. apply elem_of_cons. by right.
    - intros ->%elem_of_singleton. done. }
  { rewrite Hn1. unfold wrap64. by rewrite Zmod_mod. }
  exists s'. simpl. rewrite bool_decide_eq_true_2 by done.
  rewrite Hs1. simpl. split; [done|]. split; [done|]. split_and!.
  - rewrite Hc', Hc1. apply set_eq. intros x.
    rewrite !elem_of_difference, elem_of_union, elem_of_singleton. tauto.
  - intros id'. rewrite Hh', Hh1.
    destruct (decide (id' = id)) as [->|Hne].
    + rewrite lookup_delete_eq.
      repeat case_bool_decide; try done.
      exfalso. match goal with Hn : _ ∉ _ :: _ |- _ => apply Hn end.
      apply elem_of_cons. by left.
    + rewrite lookup_delete_ne by done.
      repeat case_bool_decide; try done; exfalso.
      * match goal with Hn : _ ∉ _ :: _ |- _ => apply Hn end.
        apply elem_of_cons. by right.
      * match goal with Hn : _ ∈ _ :: _ |- _ =>
          apply elem_of_cons in Hn as [?|?] end; done.
  - rewrite Hn', Hn1, wrap64_minus. f_equal. lia.
Qed.

(** X15: in every run, the active count is the number of executors waiting in
    the pending queue plus the number of handles in the multi handle, and
    these are the live executors; no executor is in both. *)
Theorem active_count_is_pending_plus_transport actions s :
  run actions new = Some s →
  Z.of_nat (next_executor s) < 2 ^ 64 →
  ActiveRequestCount s
  = Z.of_nat (length (m_pending_requests s) + size (m_cmh s))
  ∧ NoDup (m_pending_requests s)
  ∧ (∀ id, id ∈ m_pending_requests s → id ∉ m_cmh s)
  ∧ ∀ id, is_Some (heap s !! id)
          ↔ id ∈ m_pending_requests s ∨ id ∈ m_cmh s.
Proof.
  intros Hrun Hbound.
  destruct (linked_run actions s Hrun) as [_ Hlk].
  pose proof (Inv_run _ _ Hrun) as [Hcount Hsize _ _ _ _ _].
  unfold view in Hcount, Hsize; simpl in Hcount, Hsize.
  rewrite map_size_fmap in Hcount, Hsize.
  destruct Hlk as [Hlive _ Hnd Hapart _ _ _ _ _ _].
  rewrite app_nil_r in Hnd.
  assert (∀ id, is_Some (heap s !! id)
                ↔ id ∈ m_pending_requests s ∨ id ∈ m_cmh s) as Hlive'.
  { intros id. rewrite Hlive, elem_of_nil. split; [|tauto].
    intros [?|[?|[?|?]]]; [tauto|done|tauto|done]. }
  assert (∀ id, id ∈ m_pending_requests s → id ∉ m_cmh s) as Hdis.
  { intros id Hin. apply Hapart. by left. }
  split_and!; [|done..].
  unfold ActiveRequestCount. rewrite Hcount. unfold wrap64.
  rewrite Z.mod_small by lia. f_equal.
  assert (dom (heap s) = list_to_set (m_pending_requests s) ∪ m_cmh s)
    as Hdom.
  { apply set_eq. intros id.
    rewrite elem_of_dom, Hlive', elem_of_union, elem_of_list_to_set. done. }
  rewrite <- size_dom, Hdom, size_union.
  - by rewrite size_list_to_set.
  - intros id Hin%elem_of_list_to_set. by apply Hdis.
Qed.

(** X16: in every run, a round of [checkActions] whose messages name
    distinct handles of the multi handle finds every executor alive; each
    is taken out of the multi handle and destroyed, and the count goes down
    by the number of messages.  A drain during which libcurl reports no
    completion is defined as well, whatever [curl_multi_add_handle]
    answers. *)
Theorem completions_find_live_executors actions s now msgs :
  run actions new = Some s →
  done_messages msgs s →
  (∃ s', io_step (CurlPerform now msgs) s = Some s'
     ∧ m_cmh s' = m_cmh s ∖ list_to_set msgs.*1
     ∧ (∀ id, heap s' !! id
              = if bool_decide (id ∈ msgs.*1) then None else heap s !! id)
     ∧ ActiveRequestCount s'
       = wrap64 (ActiveRequestCount s - Z.of_nat (length msgs)))
  ∧ ∀ now' codes, is_Some (io_step (RequestsAccept now' codes []) s).
Proof.
  intros Hrun Hmsgs.
  destruct (linked_run actions s Hrun) as [Hq Hlk].
  split.
  - destruct (checkActions_done now msgs s Hlk Hmsgs)
      as (s' & Hs & _ & ? & ? & ?).
    { pose proof (Inv_run _ _ Hrun) as [Hcount _ _ _ _ _ _].
      unfold view in Hcount; simpl in Hcount. rewrite Hcount.
      unfold wrap64. by rewrite Zmod_mod. }
    by exists s'.
  - intros now' codes. simpl. unfold on_uv_requests_accept_async.
    destruct (accept_loop_defined now' codes (m_pending_requests s)
                (set_queues (m_grabbed_requests s) (m_pending_requests s) s))
      as [s2 Hs2]; [|simpl; rewrite Hs2; by eexists].
    destruct Hq as [Hg _ _ _ _]. rewrite Hg.
    destruct Hlk as [Hlive Hbelow Hnd Hapart Hbusy Hqd Hidx Hit Hreq Harm].
    split; simpl; try done.
    + intros id. rewrite Hlive. rewrite elem_of_nil. tauto.
    + by rewrite app_nil_r in Hnd.
    + intros id [Hin|Hin]; [by apply elem_of_nil in Hin|].
      apply Hapart. by left.
    + intros id [Hin|Hin]; [by apply elem_of_nil in Hin|].
      destruct (Hqd id) as [r Hr]; [by left|]. by exists r.
    + intros entry Hin. destruct (Hidx entry Hin) as (? & ? & ?).
      split_and!; [done| |done]. intros Hn. by apply elem_of_nil in Hn.
Qed.

(** X17: in a run in which no request is submitted with a budget and without
    a handler, the timer index holds exactly the executors of the multi
    handle that have not delivered and whose request has a budget, each
    once, under the key its iterator holds, in the order of the keys. *)
Theorem timer_index_is_exact actions s :
  run actions new = Some s →
  forallb budget_has_handler actions = true →
  StronglySorted (λ x y : Z * nat, x.1 ≤ y.1) (m_timesup s)
  ∧ NoDup (m_timesup s).*2
  ∧ (∀ id,
       id ∈ (m_timesup s).*2
       ↔ id ∈ m_cmh s
         ∧ ∃ e request budget,
             heap s !! id = Some e
             ∧ m_on_complete_callback_called e = false
             ∧ m_request_async e = Some request
             ∧ Request.Timesup request = Some budget)
  ∧ ∀ k id, (k, id) ∈ m_timesup s ↔
            ∃ e, heap s !! id = Some e ∧ m_timesup_iterator e = Some k.
Proof.
  intros Hrun Hb.
  destruct (index_inv_run actions s Hrun Hb) as [Hq [Hok Harmed]].
  destruct (linked_run actions s Hrun) as [_ Hlk].
  destruct Hok as [Hsorted Hnd Hlinked Hready Hhandlers].
  split; [done|]. split; [done|]. split.
  - intros id. split.
    + intros (entry & -> & Hin)%list_elem_of_fmap.
      eapply Forall_forall in Hready as [?|(e & r & h & b & He & Hflag & Hr
                                            & Hh & Hbudget)];
        [done| |exact Hin].
      split; [|by exists e, r, b].
      destruct (lk_index _ _ _ Hlk _ Hin) as (_ & Hnp & _).
      assert (is_Some (heap s !! entry.2)) as Hl by by eexists.
      apply (lk_live _ _ _ Hlk) in Hl as [?|[Hn|[?|?]]]; try done.
      by apply elem_of_nil in Hn.
    + intros (Hin & e & r & b & He & Hflag & Hr & Hbudget).
      destruct (lk_armed _ _ _ Hlk id e r Hin He Hflag Hr) as [k Hk].
      { eapply Hhandlers; [done..|]. by eexists. }
      { by eexists. }
      apply list_elem_of_fmap. exists (k, id). split; [done|].
      by eapply lk_iterator.
  - intros k id. split.
    + intros Hin. eapply Forall_forall in Hlinked as (e & He & Hit);
        [|exact Hin]. by exists e.
    + intros (e & He & Hit). by eapply lk_iterator.
Qed.

End LivenessProps.

(** * The order of the timer index *)

Section DrainOrderProps.
Context `{ExecutorOps}.
Import EventLoop Delivery Footprint TimerIndex DrainOrder.
Implicit Types (s : Loop) (id : nat) (now : Z) (rest : list nat).

Lemma StronglySorted_sublist {A} (R : A → A → Prop) (l1 l2 : list A) :
  l1 `sublist_of` l2 → StronglySorted R l2 → StronglySorted R l1.
Proof.
  induction 1 as [|x l1 l2 Hsub IH|x l1 l2 Hsub IH]; intros Hs.
  - constructor.
  - apply StronglySorted_cons in Hs as [Hall Hs]. constructor; [by apply IH|].
    apply Forall_forall. intros y Hy.
    eapply Forall_forall in Hall; [done|]. by eapply elem_of_sublist.
  - apply StronglySorted_cons in Hs as [_ Hs]. by apply IH.
Qed.

Lemma index_before_key x y : index_before x y → x.1 ≤ y.1.
Proof. intros [?|[? _]]; lia. Qed.

Lemma multimap_emplace_before k v l :
  StronglySorted index_before l →
  (∀ entry, entry ∈ l → (entry.2 < v)%nat) →
  StronglySorted index_before (multimap_emplace k v l).
Proof.
  induction 1 as [|[k' v'] l Hl IH Hall]; intros Hv; simpl.
  { repeat constructor. }
  destruct (Z.ltb_spec k k').
  - constructor; [by constructor|]. constructor; [left; simpl; lia|].
    eapply Forall_impl; [exact Hall|]. intros y Hy.
    apply index_before_key in Hy. left. simpl in *. lia.
  - constructor.
    + apply IH. intros entry Hin. apply Hv, elem_of_cons. by right.
    + apply Forall_forall. intros entry [->|Hin]%elem_of_multimap_emplace.
      * assert (v' < v)%nat by (apply (Hv (k', v')), elem_of_cons; by left).
        unfold index_before. simpl. lia.
      * by eapply Forall_forall in Hall.
Qed.

(** The index only loses nodes on the completion paths. *)
Lemma removeTimesup_sublist now id s s' pos :
  removeTimesup now id s = Some (s', pos) →
  m_timesup s' `sublist_of` m_timesup s.
Proof.
  unfold removeTimesup. intros Hc. run_in Hc; simplify_eq; [|done].
  match goal with |- context [updateTimesup now ?s0] =>
    destruct (updateTimesup_timer_for now s0) as (_ & -> & _) end.
  simpl. apply sublist_delete.
Qed.

Lemma completeRequestTimesup_index id s s' :
  completeRequestTimesup id s = Some s' → m_timesup s' = m_timesup s.
Proof.
  unfold completeRequestTimesup. intros Hc. by run_in Hc; simplify_eq.
Qed.

Lemma deliverNormal_sublist now id status s s' :
  deliverNormal now id status s = Some s' →
  m_timesup s' `sublist_of` m_timesup s.
Proof.
  unfold deliverNormal. intros Hc. run_in Hc; simplify_eq; try done.
  match goal with E : removeTimesup _ _ _ = Some _ |- _ =>
    apply removeTimesup_sublist in E end.
  done.
Qed.

Lemma completeRequestNormal_sublist now id status s s' :
  completeRequestNormal now id status s = Some s' →
  m_timesup s' `sublist_of` m_timesup s.
Proof.
  unfold completeRequestNormal. intros Hc.
  destruct (deliverNormal now id status s) as [s1|] eqn:Hd; simpl in Hc;
    [|done].
  simplify_eq. simpl. by eapply deliverNormal_sublist.
Qed.

Lemma checkActions_sublist now msgs s s' :
  checkActions now msgs s = Some s' →
  m_timesup s' `sublist_of` m_timesup s.
Proof.
  revert s. induction msgs as [|[id code] msgs IH]; intros s Hc; simpl in Hc.
  { by simplify_eq. }
  case_bool_decide; [|done].
  match type of Hc with
  | (?m ≫= _) = _ => destruct m as [s1|] eqn:Hm
  end; simpl in Hc; [|done].
  apply completeRequestNormal_sublist in Hm. simpl in Hm.
  etrans; [by apply IH | done].
Qed.

Lemma timesup_loop_sublist fuel now pos s s' :
  timesup_loop fuel now pos s = Some s' →
  m_timesup s' `sublist_of` m_timesup s.
Proof.
  revert pos s. induction fuel as [|fuel IH]; intros pos s Hc; simpl in Hc;
    [done|].
  destruct (m_timesup s !! pos) as [[first id]|]; [|by simplify_eq].
  destruct (now <? first); [by simplify_eq|].
  destruct (completeRequestTimesup id s) as [s1|] eqn:H1; simpl in Hc;
    [|done].
  destruct (removeTimesup now id s1) as [[s2 next]|] eqn:H2; simpl in Hc;
    [|done].
  apply completeRequestTimesup_index in H1.
  apply removeTimesup_sublist in H2. rewrite H1 in H2.
  etrans; [by eapply IH | done].
Qed.

Lemma drain_order_shrink rest s s' :
  drain_order rest s →
  m_timesup s' `sublist_of` m_timesup s →
  m_pending_requests s' = m_pending_requests s →
  next_executor s' = next_executor s →
  drain_order rest s'.
Proof.
  intros [Hs Hq Hi Hb Hib] Hsub Hp Hn. split; rewrite ?Hp, ?Hn.
  - by eapply StronglySorted_sublist.
  - done.
  - intros entry id Hin. apply Hi. by eapply elem_of_sublist.
  - done.
  - intros entry Hin. apply Hib. by eapply elem_of_sublist.
Qed.

Lemma drain_order_addTimesup now id rest s s1 :
  drain_order (id :: rest) s → addTimesup now id s = Some s1 →
  drain_order rest s1
  ∧ m_pending_requests s1 = m_pending_requests s
  ∧ next_executor s1 = next_executor s.
Proof.
  intros [Hs Hq Hi Hb Hib] Hadd.
  simpl in Hq. apply StronglySorted_cons in Hq as [Hlt Hq].
  assert (drain_order rest s) as Hrest.
  { split; try done.
    - intros entry id' Hin Hin'. apply Hi; [done|]. apply elem_of_cons.
      by right.
    - intros id' Hin'. apply Hb. simpl. apply elem_of_cons. by right. }
  unfold addTimesup in Hadd. run_in Hadd; simplify_eq; try done.
  match goal with |- context [updateTimesup now ?s0] =>
    destruct (updateTimesup_timer_for now s0) as (_ & Hidx & _);
    destruct (updateTimesup_frame now s0) as (_ & _ & Hp & _ & _ & Hn)
  end.
  simpl in *. split; [|done].
  split; rewrite ?Hidx, ?Hp, ?Hn.
  - apply multimap_emplace_before; [done|].
    intros entry Hin. apply Hi; [done|]. simpl. apply elem_of_cons. by left.
  - done.
  - intros entry id' [->|Hin]%elem_of_multimap_emplace Hin'.
    + simpl. by eapply Forall_forall in Hlt.
    + apply Hi; [done|]. simpl. apply elem_of_cons. by right.
  - intros id' Hin'. apply Hb. simpl. apply elem_of_cons. by right.
  - intros entry [->|Hin]%elem_of_multimap_emplace; [|by apply Hib].
    simpl. apply Hb. simpl. apply elem_of_cons. by left.
Qed.

Lemma accept_loop_order now codes completions rest s s' :
  drain_order rest s →
  accept_loop now codes completions rest s = Some s' →
  drain_order [] s'
  ∧ m_pending_requests s' = m_pending_requests s
  ∧ next_executor s' = next_executor s.
Proof.
  revert codes completions s.
  induction rest as [|id rest IH]; intros codes completions s Hord Hc.
  { simpl in Hc. by simplify_eq. }
  cbn -[completeRequestNormal addTimesup checkActions] in Hc.
  destruct (addTimesup now id s) as [s1|] eqn:Hadd; [|done].
  cbn -[completeRequestNormal addTimesup checkActions] in Hc.
  match type of Hc with
  | (?m ≫= _) = _ => destruct m as [s3|] eqn:Hs3
  end; [|done].
  cbn -[completeRequestNormal addTimesup checkActions] in Hc.
  destruct (drain_order_addTimesup now id rest s s1 Hord Hadd)
    as (Hord1 & Hp1 & Hn1).
  assert (drain_order rest s3
          ∧ m_pending_requests s3 = m_pending_requests s
          ∧ next_executor s3 = next_executor s) as (Hord3 & Hp3 & Hn3).
  { case_bool_decide.
    - pose proof (completeRequestNormal_sublist _ _ _ _ _ Hs3) as Hsub.
      apply touches_completeRequestNormal in Hs3 as [Hp _ Hn _ _ _ _].
      simpl in *. split; [|split; congruence].
      eapply drain_order_shrink; [exact Hord1|done|congruence..].
    - pose proof (checkActions_sublist _ _ _ _ Hs3) as Hsub.
      apply touches_checkActions in Hs3 as [Hp _ Hn _ _ _ _].
      simpl in *. split; [|split; congruence].
      eapply drain_order_shrink; [exact Hord1|done|congruence..]. }
  destruct (IH _ _ _ Hord3 Hc) as (? & ? & ?).
  split; [done|]. split; congruence.
Qed.

Lemma drain_order_io_step ev s s' :
  queues_ok s → drain_order [] s → io_step ev s = Some s' →
  drain_order [] s'.
Proof.
  intros Hq Hord Hs. destruct ev as [now codes completions|now msgs|now].
  - simpl in Hs. unfold on_uv_requests_accept_async in Hs.
    match type of Hs with
    | (?m ≫= _) = _ => destruct m as [s2|] eqn:Hm
    end; simpl in Hs; [|done].
    simplify_eq. destruct Hq as [Hg _ _ _ _].
    apply accept_loop_order in Hm as (Hord2 & Hp2 & Hn2).
    + simpl in *. rewrite Hg in Hp2.
      destruct Hord2 as [? ? ? ? ?].
      split; simpl; rewrite ?Hp2 in *; done.
    + simpl. rewrite Hg. destruct Hord as [? ? ? ? ?].
      split; simpl; rewrite ?app_nil_r in *; done.
  - pose proof (checkActions_sublist _ _ _ _ Hs) as Hsub.
    apply touches_checkActions in Hs as [Hp _ Hn _ _ _ _].
    by eapply drain_order_shrink.
  - pose proof Hs as Hs'. apply touches_fired in Hs' as [Hp _ Hn _ _ _ _].
    simpl in Hs.
    destruct (m_timesup_timer s) as [[started timeout]|]; [|done].
    destruct (started + timeout <=? now); [|done].
    unfold on_uv_timesup_callback in Hs.
    change (m_timesup (set_timesup_timer None s)) with (m_timesup s) in Hs.
    destruct (m_timesup s) eqn:Hi.
    + simplify_eq. by eapply drain_order_shrink; [exact Hord|..].
    + apply timesup_loop_sublist in Hs. simpl in Hs.
      eapply drain_order_shrink; [exact Hord|by rewrite Hi in *|done..].
Qed.

Lemma drain_order_StartRequest request s :
  drain_order [] s → drain_order [] (StartRequest request s).2.
Proof.
  intros [Hs Hq Hi Hb Hib]. unfold StartRequest.
  destruct (m_is_stopping s); [done|]. simpl in *.
  split; simpl.
  - done.
  - apply StronglySorted_app. split_and!; [|done|repeat constructor].
    intros x y Hx ->%list_elem_of_singleton. by apply Hb.
  - intros entry id Hin [Hid| ->%list_elem_of_singleton]%elem_of_app.
    + by apply Hi.
    + by apply Hib.
  - intros id [Hid| ->%list_elem_of_singleton]%elem_of_app; [|lia].
    apply Hb in Hid. lia.
  - intros entry Hin. apply Hib in Hin. lia.
Qed.

Lemma drain_order_new : drain_order [] new.
Proof.
  split; simpl; try constructor.
  - intros entry id Hin. by apply elem_of_nil in Hin.
  - intros id Hin. by apply elem_of_nil in Hin.
  - intros entry Hin. by apply elem_of_nil in Hin.
Qed.

Lemma drain_order_run actions s :
  run actions new = Some s → drain_order [] s.
Proof.
  assert (∀ s0, queues_ok s0 → drain_order [] s0 →
                run actions s0 = Some s → drain_order [] s) as Hgen.
  { induction actions as [|a actions IH]; intros s0 Hq Hord Hr;
      simpl in Hr.
    { by simplify_eq. }
    destruct (step a s0) as [s1|] eqn:Hs; simpl in Hr; [|done].
    apply (IH s1); [| |done].
    - eapply (queues_ok_run [a]); [exact Hq|]. simpl. by rewrite Hs.
    - destruct a as [request| |ev]; simpl in Hs.
      + simplify_eq. by apply drain_order_StartRequest.
      + simplify_eq. by destruct Hord.
      + by eapply drain_order_io_step. }
  intros Hr. by apply (Hgen new queues_ok_new drain_order_new).
Qed.

(** X18: the timer index is ordered by key, and entries with the same key
    are in the order in which their requests were accepted; so the
    time's-up callback, which takes the entries from the front, reports
    requests whose time is up at the same moment in the order of their
    submission. *)
Theorem timer_index_ties_in_acceptance_order actions s i j x y :
  run actions new = Some s →
  m_timesup s !! i = Some x → m_timesup s !! j = Some y → (i < j)%nat →
  x.1 < y.1 ∨ (x.1 = y.1 ∧ (x.2 < y.2)%nat).
Proof.
  intros Hrun Hi Hj Hij.
  destruct (drain_order_run actions s Hrun) as [Hs _ _ _ _].
  apply list_elem_of_split_length in Hi as (l1 & l2 & Heq & Hlen).
  rewrite Heq in Hs, Hj.
  apply StronglySorted_app in Hs as (_ & _ & Hs).
  apply StronglySorted_cons in Hs as [Hall _].
  rewrite lookup_app_r in Hj by lia.
  destruct (j - length l1)%nat as [|n] eqn:Hn; [lia|]. simpl in Hj.
  eapply Forall_forall in Hall; [exact Hall|].
  by eapply list_elem_of_lookup_2.
Qed.

End DrainOrderProps.

(** * The statements on concrete runs *)

Section Witnesses.
Import EventLoop Delivery Footprint TimerIndex Scenario.



Lemma destructor_waits_for_deliveries_witness :
  run (H := ops) accept_run new = Some after_accept
  ∧ Z.of_nat (next_executor after_accept) < 2 ^ 64
  ∧ destructor (H := ops) shutdown_schedule after_accept
    = Some after_destructor
  ∧ m_is_stopping after_destructor = true
  ∧ ActiveRequestCount after_destructor = 0
  ∧ heap after_destructor = ∅
  ∧ (∃ tr, trace after_accept `prefix_of` tr
           ∧ trace after_destructor
             = tr
               ++ [EvTimerStop h_timeout_timer; EvTimerStop h_timesup_timer;
                 EvClose h_timeout_timer; EvClose h_timesup_timer;
                 EvClose h_async; EvAsyncSend; EvUvStop; EvThreadJoin]
           ∧ ∀ id req, EvAccepted id req ∈ trace after_destructor →
               deliveries id tr
               = match m_on_complete_handler req with
                 | Some _ => 1%nat
                 | None => 0%nat
                 end)
  ∧ ∀ request_ptr,
      StartRequest request_ptr after_destructor = (false, after_destructor).
Proof.
  assert (run (H := ops) accept_run new = Some after_accept) as Hrun
    by (vm_compute; reflexivity).
  assert (Z.of_nat (next_executor after_accept) < 2 ^ 64) as Hbound
    by (vm_compute; reflexivity).
  assert (destructor (H := ops) shutdown_schedule after_accept
          = Some after_destructor) as Hd by (vm_compute; reflexivity).
  split; [exact Hrun|]. split; [exact Hbound|]. split; [exact Hd|].
  exact (destructor_waits_for_deliveries (H := ops) accept_run
           shutdown_schedule after_accept after_destructor Hrun Hbound Hd).
Defined.

Lemma only_normal_completion_decrements_witness :
  run (H := ops) timesup_run new = Some after_timesup
  ∧ Z.of_nat (next_executor after_timesup) < 2 ^ 64
  ∧ heap after_timesup !! 0%nat = Some timed_up_executor
  ∧ m_on_complete_callback_called timed_up_executor = true
  ∧ ActiveRequestCount after_timesup = 1
  ∧ wait_active_requests (H := ops) [] after_timesup = None
  ∧ ∃ s', completeRequestNormal (H := ops) 160 0 SUCCESS after_timesup
          = Some s'
          ∧ ActiveRequestCount s' = 0
          ∧ heap s' !! 0%nat = None.
Proof.
  assert (run (H := ops) timesup_run new = Some after_timesup) as Hrun
    by (vm_compute; reflexivity).
  assert (Z.of_nat (next_executor after_timesup) < 2 ^ 64) as Hbound
    by (vm_compute; reflexivity).
  assert (heap after_timesup !! 0%nat = Some timed_up_executor) as He
    by (vm_compute; reflexivity).
  destruct (only_normal_completion_decrements (H := ops) timesup_run
              after_timesup 0%nat timed_up_executor Hrun Hbound He)
    as (Hpos & Hwait & Hnormal & _).
  split; [exact Hrun|]. split; [exact Hbound|]. split; [exact He|].
  split; [vm_compute; reflexivity|]. split; [vm_compute; reflexivity|].
  split; [exact Hwait|].
  destruct (completeRequestNormal (H := ops) 160 0 SUCCESS after_timesup)
    as [s'|] eqn:Hc; [|by vm_compute in Hc].
  exists s'. split; [done|].
  destruct (Hnormal 160 SUCCESS s' Hc) as [Hcount Hgone].
  split; [|exact Hgone]. rewrite Hcount. vm_compute. reflexivity.
Defined.

(** C4: a request with a time's-up budget and no on-complete handler that
    the transport completes before its time is up: after
    [completeRequestNormal] the executor is destroyed and its entry is
    still in the timer index, and the time's-up callback that finds the
    entry has no executor to go to. *)
Theorem normal_completion_keeps_entry_without_handler :
  ∃ s, run (H := ops) no_handler_run new = Some s
       ∧ EvExecutorDestroyed 0 ∈ trace s
       ∧ heap s !! 0%nat = None
       ∧ m_timesup s = [(150, 0%nat)]
       ∧ io_step (H := ops) (TimesupFired 150) s = None.
Proof.
  eexists. split; [vm_compute; reflexivity|].
  split; [|by vm_compute].
  vm_compute. repeat first [apply list_elem_of_here | apply list_elem_of_further].
Qed.

Example data_then_mime_field_throws :
  ∃ r, Request.Data plain "x" = Ok r
       ∧ Request.MimeField r form_field = Throw Request.mime_after_data.
Proof. eexists. split; reflexivity. Qed.

Example mime_field_then_data_throws :
  ∃ r, Request.MimeField plain form_field = Ok r
       ∧ Request.Data r "x" = Throw Request.data_after_mime.
Proof. eexists. split; reflexivity. Qed.

End Witnesses.

(** * The further statements on concrete runs *)

Section MoreWitnesses.
Import EventLoop Delivery Footprint TimerIndex Scenario Runs.
Import RequestCalls HeaderCalls Closing Liveness Expiry.

Lemma method_last_writer_witness :
  Forall (λ c', names_method c' = false) [Request.CallHeader "a" "b"]
  ∧ m_method
      (Request.calls plain
         ([Request.CallMethod PUT]
          ++ Request.CallData "x" :: [Request.CallHeader "a" "b"]))
    = POST.
Proof.
  assert (Forall (λ c', names_method c' = false)
            [Request.CallHeader "a" "b"]) as Hpost
    by (repeat constructor).
  split; [exact Hpost|].
  exact (method_last_writer plain [Request.CallMethod PUT]
           (Request.CallData "x") [Request.CallHeader "a" "b"] Hpost).
Defined.

Lemma socket_contexts_stay_placed_witness :
  SocketContexts.run socket_run SocketContexts.new = Some after_socket_run
  ∧ SocketContexts.socketp after_socket_run !! 6 = Some 0%nat
  ∧ SocketContexts.sockets_ok after_socket_run
  ∧ (∀ socket socket' c,
       SocketContexts.socketp after_socket_run !! socket = Some c →
       SocketContexts.socketp after_socket_run !! socket' = Some c →
       socket = socket')
  ∧ (∀ socket c,
       SocketContexts.socketp after_socket_run !! socket = Some c →
       c ∉ SocketContexts.m_curl_context_ready after_socket_run)
  ∧ ∀ socket action,
      is_Some (SocketContexts.step
                 (SocketContexts.SocketAction socket action)
                 after_socket_run).
Proof.
  assert (SocketContexts.run socket_run SocketContexts.new
          = Some after_socket_run) as Hrun by (vm_compute; reflexivity).
  split; [exact Hrun|]. split; [vm_compute; reflexivity|].
  exact (socket_contexts_stay_placed socket_run after_socket_run Hrun).
Defined.

Lemma poll_reports_socket_and_directions_witness :
  SocketContexts.run socket_run SocketContexts.new = Some after_socket_run
  ∧ ∃ s' c ctx,
      SocketContexts.step (SocketContexts.SocketAction 7 CURL_POLL_INOUT)
        after_socket_run = Some s'
      ∧ SocketContexts.socketp s' !! 7 = Some c
      ∧ SocketContexts.contexts s' !! c = Some ctx
      ∧ m_poll_handle ctx = poll_started 7 3
      ∧ SocketContexts.on_uv_curl_perform_callback c 0 3 s' = Some (7, 3)
      ∧ ∀ status events,
          ∃ bits, SocketContexts.on_uv_curl_perform_callback c status
                    events s' = Some (7, bits).
Proof.
  assert (SocketContexts.run socket_run SocketContexts.new
          = Some after_socket_run) as Hrun by (vm_compute; reflexivity).
  split; [exact Hrun|].
  exact (poll_reports_socket_and_directions socket_run after_socket_run 7
           CURL_POLL_INOUT Hrun (or_intror (or_intror eq_refl))).
Defined.

Lemma context_reused_only_after_close_witness :
  SocketContexts.run poll_run SocketContexts.new = Some after_poll
  ∧ SocketContexts.socketp after_poll !! 5 = Some 0%nat
  ∧ ∃ s1,
      SocketContexts.step (SocketContexts.SocketAction 5 CURL_POLL_REMOVE)
        after_poll = Some s1
      ∧ SocketContexts.socketp s1 !! 5 = None
      ∧ (0%nat ∉ SocketContexts.m_curl_context_ready s1)
      ∧ (∀ socket' action s2 c',
           action = CURL_POLL_IN ∨ action = CURL_POLL_OUT
           ∨ action = CURL_POLL_INOUT →
           SocketContexts.step (SocketContexts.SocketAction socket' action)
             s1 = Some s2 →
           SocketContexts.socketp s2 !! socket' = Some c' →
           c' ≠ 0%nat
           ∧ (SocketContexts.socketp s1 !! socket' = Some c'
              ∨ head (SocketContexts.m_curl_context_ready s1) = Some c'
              ∨ (SocketContexts.m_curl_context_ready s1 = []
                 ∧ c' = SocketContexts.next_context s1)))
      ∧ ∃ s2,
          SocketContexts.step (SocketContexts.CloseDone 0) s1 = Some s2
          ∧ SocketContexts.m_curl_context_ready s2 = [0%nat].
Proof.
  assert (SocketContexts.run poll_run SocketContexts.new = Some after_poll)
    as Hrun by (vm_compute; reflexivity).
  assert (SocketContexts.socketp after_poll !! 5 = Some 0%nat) as Hsp
    by (vm_compute; reflexivity).
  split; [exact Hrun|]. split; [exact Hsp|].
  exact (context_reused_only_after_close poll_run after_poll 5 0%nat Hrun
           Hsp).
Defined.

Lemma close_wait_ends_at_first_close_witness :
  (∀ h', closed h' all_open = false)
  ∧ wait_closed [[]; []; [h_async]; [h_timeout_timer]] all_open
    = Some (mkCloseFlags true false false)
  ∧ (∀ h', closed h' (mkCloseFlags true false false)
           = bool_decide (h' ∈ [h_async]))
  ∧ wait_closed [[]; []] all_open = None.
Proof.
  assert (∀ h', closed h' all_open = false) as Hopen by (by intros []).
  split; [exact Hopen|].
  exact (close_wait_ends_at_first_close all_open 2 h_async []
           [[h_timeout_timer]] Hopen).
Defined.

Lemma handler_gets_its_request_back_witness :
  run (H := ops) timesup_run new = Some after_timesup
  ∧ trace after_timesup
    = [EvAccepted 0 with_budget; EvAsyncSend; EvTimesupEmplace 0 150;
       EvMultiAddHandle 0 0]
      ++ EvOnComplete 0 7%nat with_budget timesup_response
         :: [EvTimesupErase 0]
  ∧ EvAccepted 0 with_budget
    ∈ [EvAccepted 0 with_budget; EvAsyncSend; EvTimesupEmplace 0 150;
       EvMultiAddHandle 0 0]
  ∧ m_on_complete_handler with_budget = Some 7%nat.
Proof.
  assert (run (H := ops) timesup_run new = Some after_timesup) as Hrun
    by (vm_compute; reflexivity).
  assert (trace after_timesup
          = [EvAccepted 0 with_budget; EvAsyncSend; EvTimesupEmplace 0 150;
             EvMultiAddHandle 0 0]
            ++ EvOnComplete 0 7%nat with_budget timesup_response
               :: [EvTimesupErase 0]) as Htr by (vm_compute; reflexivity).
  split; [exact Hrun|]. split; [exact Htr|].
  exact (handler_gets_its_request_back (H := ops) timesup_run after_timesup
           _ 0%nat 7%nat with_budget timesup_response _ Hrun Htr).
Defined.

Lemma stopping_is_final_witness :
  run (H := ops) stop_run new = Some after_stop
  ∧ m_is_stopping after_stop = true
  ∧ run (H := ops) late_run after_stop = Some after_late
  ∧ Z.of_nat (next_executor after_stop) < 2 ^ 64
  ∧ ActiveRequestCount after_stop = 1
  ∧ ActiveRequestCount after_late = 0
  ∧ m_is_stopping after_late = true
  ∧ (∀ request_ptr, StartRequest request_ptr after_late = (false, after_late))
  ∧ (∀ id r, EvAccepted id r ∈ trace after_late →
             EvAccepted id r ∈ trace after_stop)
  ∧ (∀ id, is_Some (heap after_late !! id) → is_Some (heap after_stop !! id))
  ∧ ActiveRequestCount after_late ≤ ActiveRequestCount after_stop.
Proof.
  assert (run (H := ops) stop_run new = Some after_stop) as Hrun
    by (vm_compute; reflexivity).
  assert (run (H := ops) late_run after_stop = Some after_late) as Hlate
    by (vm_compute; reflexivity).
  assert (Z.of_nat (next_executor after_stop) < 2 ^ 64) as Hbound
    by (vm_compute; reflexivity).
  split; [exact Hrun|]. split; [vm_compute; reflexivity|].
  split; [exact Hlate|]. split; [exact Hbound|].
  split; [vm_compute; reflexivity|]. split; [vm_compute; reflexivity|].
  exact (stopping_is_final (H := ops) stop_run late_run after_stop
           after_late Hrun eq_refl Hlate Hbound).
Defined.

Lemma addTimesup_removeTimesup_round_trip_witness :
  heap after_submits !! 0%nat = Some (Executor_make with_budget 0)
  ∧ (0%nat ∉ (m_timesup after_submits).*2)
  ∧ ∃ s1 s2 pos,
      addTimesup 100 0 after_submits = Some s1
      ∧ m_timesup s1 !! pos = Some (150, 0%nat)
      ∧ (∃ e1, heap s1 !! 0%nat = Some e1
               ∧ m_timesup_iterator e1 = Some 150)
      ∧ removeTimesup 110 0 s1 = Some (s2, pos)
      ∧ m_timesup s2 = m_timesup after_submits
      ∧ heap s2 = heap after_submits
      ∧ m_timesup_timer s2 = None
      ∧ trace s2 = trace after_submits
                   ++ [EvTimesupEmplace 0 150; EvTimesupErase 0]
      ∧ m_cmh s2 = m_cmh after_submits
      ∧ m_active_request_count s2 = m_active_request_count after_submits
      ∧ m_pending_requests s2 = m_pending_requests after_submits
      ∧ m_grabbed_requests s2 = m_grabbed_requests after_submits.
Proof.
  assert (heap after_submits !! 0%nat = Some (Executor_make with_budget 0))
    as He by (vm_compute; reflexivity).
  assert (0%nat ∉ (m_timesup after_submits).*2) as Hid.
  { intros Hin. vm_compute in Hin. by apply elem_of_nil in Hin. }
  split; [exact He|]. split; [exact Hid|].
  exact (addTimesup_removeTimesup_round_trip 100 110 0%nat after_submits
           (Executor_make with_budget 0) with_budget 50 He eq_refl eq_refl
           eq_refl Hid).
Defined.

Lemma refused_add_is_reported_at_once_witness :
  heap after_submits !! 0%nat = Some (Executor_make with_budget 0)
  ∧ m_on_complete_handler with_budget = Some 7%nat
  ∧ (0%nat ∉ (m_timesup after_submits).*2)
  ∧ ∃ s3,
      accept_loop (H := ops) 100 [1] [] [0%nat; 1%nat] after_submits
      = accept_loop (H := ops) 100 [] [] [1%nat] s3
      ∧ trace s3
        = trace after_submits
          ++ [EvTimesupEmplace 0 150; EvMultiAddHandle 0 1]
          ++ [EvTimesupErase 0]
          ++ [EvOnComplete 0 7%nat with_budget
                {| m_lift_status := ERROR; m_status_code := 0;
                   m_total_time := 0; m_num_redirects := 0;
                   m_response_data := "" |};
              EvExecutorDestroyed 0]
      ∧ heap s3 = delete 0%nat (heap after_submits)
      ∧ m_cmh s3 = m_cmh after_submits
      ∧ m_timesup s3 = m_timesup after_submits
      ∧ m_active_request_count s3 = 1
      ∧ m_pending_requests s3 = m_pending_requests after_submits
      ∧ m_grabbed_requests s3 = m_grabbed_requests after_submits.
Proof.
  assert (heap after_submits !! 0%nat = Some (Executor_make with_budget 0))
    as He by (vm_compute; reflexivity).
  assert (0%nat ∉ (m_timesup after_submits).*2) as Hid.
  { intros Hin. vm_compute in Hin. by apply elem_of_nil in Hin. }
  split; [exact He|]. split; [reflexivity|]. split; [exact Hid|].
  exact (refused_add_is_reported_at_once (H := ops) 100 1 [] [] 0%nat
           [1%nat] after_submits with_budget 7%nat He eq_refl Hid
           ltac:(done) ltac:(done)).
Defined.

Lemma active_count_is_pending_plus_transport_witness :
  run (H := ops) accept_run new = Some after_accept
  ∧ Z.of_nat (next_executor after_accept) < 2 ^ 64
  ∧ m_pending_requests after_accept = []
  ∧ ActiveRequestCount after_accept
    = Z.of_nat (length (m_pending_requests after_accept)
                + size (m_cmh after_accept))
  ∧ NoDup (m_pending_requests after_accept)
  ∧ (∀ id, id ∈ m_pending_requests after_accept → id ∉ m_cmh after_accept)
  ∧ ∀ id, is_Some (heap after_accept !! id)
          ↔ id ∈ m_pending_requests after_accept ∨ id ∈ m_cmh after_accept.
Proof.
  assert (run (H := ops) accept_run new = Some after_accept) as Hrun
    by (vm_compute; reflexivity).
  assert (Z.of_nat (next_executor after_accept) < 2 ^ 64) as Hbound
    by (vm_compute; reflexivity).
  split; [exact Hrun|]. split; [exact Hbound|].
  split; [vm_compute; reflexivity|].
  exact (active_count_is_pending_plus_transport (H := ops) accept_run
           after_accept Hrun Hbound).
Defined.

Lemma completions_find_live_executors_witness :
  run (H := ops) accept_run new = Some after_accept
  ∧ done_messages [(0%nat, 0)] after_accept
  ∧ (∃ s', io_step (H := ops) (CurlPerform 120 [(0%nat, 0)]) after_accept
           = Some s'
       ∧ m_cmh s' = m_cmh after_accept ∖ list_to_set [(0%nat, 0)].*1
       ∧ (∀ id, heap s' !! id
                = if bool_decide (id ∈ [(0%nat, 0)].*1) then None
                  else heap after_accept !! id)
       ∧ ActiveRequestCount s'
         = wrap64 (ActiveRequestCount after_accept
                   - Z.of_nat (length [(0%nat, 0)])))
  ∧ ∀ now' codes,
      is_Some (io_step (H := ops) (RequestsAccept now' codes [])
                 after_accept).
Proof.
  assert (run (H := ops) accept_run new = Some after_accept) as Hrun
    by (vm_compute; reflexivity).
  assert (done_messages [(0%nat, 0)] after_accept) as Hmsgs.
  { split; [apply NoDup_singleton|].
    intros id Hin. apply list_elem_of_singleton in Hin as ->.
    apply (bool_decide_unpack _). vm_compute. exact I. }
  split; [exact Hrun|]. split; [exact Hmsgs|].
  exact (completions_find_live_executors (H := ops) accept_run after_accept
           120 [(0%nat, 0)] Hrun Hmsgs).
Defined.

Lemma timer_index_is_exact_witness :
  run (H := ops) accept_run new = Some after_accept
  ∧ forallb budget_has_handler accept_run = true
  ∧ m_timesup after_accept = [(150, 0%nat)]
  ∧ StronglySorted (λ x y : Z * nat, x.1 ≤ y.1) (m_timesup after_accept)
  ∧ NoDup (m_timesup after_accept).*2
  ∧ (∀ id,
       id ∈ (m_timesup after_accept).*2
       ↔ id ∈ m_cmh after_accept
         ∧ ∃ e request budget,
             heap after_accept !! id = Some e
             ∧ m_on_complete_callback_called e = false
             ∧ m_request_async e = Some request
             ∧ Request.Timesup request = Some budget)
  ∧ ∀ k id, (k, id) ∈ m_timesup after_accept ↔
            ∃ e, heap after_accept !! id = Some e
                 ∧ m_timesup_iterator e = Some k.
Proof.
  assert (run (H := ops) accept_run new = Some after_accept) as Hrun
    by (vm_compute; reflexivity).
  split; [exact Hrun|]. split; [reflexivity|].
  split; [vm_compute; reflexivity|].
  exact (timer_index_is_exact (H := ops) accept_run after_accept Hrun
           eq_refl).
Defined.

Lemma timer_index_ties_in_acceptance_order_witness :
  run (H := ops) tie_run new = Some after_tie
  ∧ m_timesup after_tie !! 0%nat = Some (150, 0%nat)
  ∧ m_timesup after_tie !! 1%nat = Some (150, 1%nat)
  ∧ (0 < 1)%nat
  ∧ ((150, 0%nat).1 < (150, 1%nat).1
     ∨ ((150, 0%nat).1 = (150, 1%nat).1
        ∧ ((150, 0%nat).2 < (150, 1%nat).2)%nat)).
Proof.
  assert (run (H := ops) tie_run new = Some after_tie) as Hrun
    by (vm_compute; reflexivity).
  assert (m_timesup after_tie !! 0%nat = Some (150, 0%nat)) as H0
    by (vm_compute; reflexivity).
  assert (m_timesup after_tie !! 1%nat = Some (150, 1%nat)) as H1
    by (vm_compute; reflexivity).
  split; [exact Hrun|]. split; [exact H0|]. split; [exact H1|].
  split; [lia|].
  exact (timer_index_ties_in_acceptance_order (H := ops) tie_run after_tie
           0%nat 1%nat (150, 0%nat) (150, 1%nat) Hrun H0 H1 ltac:(lia)).
Defined.

Lemma headers_since_last_clear_witness :
  Forall (λ c, is_clear c = false)
    [Setter (Request.CallHeader "c" "d"); Setter (Request.CallData "x");
     CallRemoveHeader "Expect"]
  ∧ Headers
      (header_calls plain
         [Setter (Request.CallHeader "c" "d"); Setter (Request.CallData "x");
          CallRemoveHeader "Expect"])
    = [("c", "d"); ("Expect", "")]
  ∧ Headers
      (header_calls plain
         ([Setter (Request.CallHeader "a" "b")]
          ++ CallClearHeaders
             :: [Setter (Request.CallHeader "c" "d");
                 Setter (Request.CallData "x"); CallRemoveHeader "Expect"]))
    = [("c", "d"); ("Expect", "")].
Proof.
  assert (Forall (λ c, is_clear c = false)
            [Setter (Request.CallHeader "c" "d");
             Setter (Request.CallData "x"); CallRemoveHeader "Expect"])
    as Hpost by (repeat constructor).
  split; [exact Hpost|].
  exact (headers_since_last_clear plain
           [Setter (Request.CallHeader "a" "b")]
           [Setter (Request.CallHeader "c" "d");
            Setter (Request.CallData "x"); CallRemoveHeader "Expect"]
           Hpost).
Defined.

Lemma timesup_callback_prunes_live_witness :
  run (H := ops) mixed_run new = Some after_mixed
  ∧ m_timesup after_mixed = [(150, 0%nat); (150, 1%nat); (300, 2%nat)]
  ∧ m_timesup_timer after_mixed = Some (100, 50)
  ∧ (∀ entry, entry ∈ m_timesup after_mixed → entry.1 ≤ 160 →
              is_Some (heap after_mixed !! entry.2))
  ∧ io_step (H := ops) (TimesupFired 160) after_mixed
    = Some after_mixed_fired
  ∧ m_timesup after_mixed_fired = [(300, 2%nat)]
  ∧ m_timesup_timer after_mixed_fired = Some (160, 140)
  ∧ trace after_mixed_fired
    = trace after_mixed
      ++ [EvOnComplete 0 7%nat with_budget timesup_response;
          EvTimesupErase 0; EvTimesupErase 1]
  ∧ ∃ s' expired evss,
      io_step (H := ops) (TimesupFired 160) after_mixed = Some s'
      ∧ StronglySorted (λ x y : Z * nat, x.1 ≤ y.1) (m_timesup after_mixed)
      ∧ expired ≠ []
      ∧ m_timesup after_mixed = expired ++ m_timesup s'
      ∧ Forall (λ entry, entry.1 ≤ 160) expired
      ∧ Forall (λ entry, 160 < entry.1) (m_timesup s')
      ∧ trace s' = trace after_mixed ++ concat evss
      ∧ Forall2 (timesup_outcome after_mixed) expired evss
      ∧ m_timesup_timer s'
        = match m_timesup s' with
          | [] => None
          | (first, _) :: _ => Some (160, first - 160)
          end.
Proof.
  assert (run (H := ops) mixed_run new = Some after_mixed) as Hrun
    by (vm_compute; reflexivity).
  assert (m_timesup after_mixed
          = [(150, 0%nat); (150, 1%nat); (300, 2%nat)]) as Hidx
    by (vm_compute; reflexivity).
  assert (m_timesup_timer after_mixed = Some (100, 50)) as Htimer
    by (vm_compute; reflexivity).
  assert (∀ entry, entry ∈ m_timesup after_mixed → entry.1 ≤ 160 →
                   is_Some (heap after_mixed !! entry.2)) as Hlive.
  { intros entry Hin _. rewrite Hidx in Hin.
    repeat (apply elem_of_cons in Hin as [->|Hin]);
      [vm_compute; by eexists..|].
    by apply elem_of_nil in Hin. }
  split; [exact Hrun|]. split; [exact Hidx|]. split; [exact Htimer|].
  split; [exact Hlive|]. split; [vm_compute; reflexivity|].
  split; [vm_compute; reflexivity|]. split; [vm_compute; reflexivity|].
  split; [vm_compute; reflexivity|].
  exact (timesup_callback_prunes_live (H := ops) mixed_run after_mixed 160
           100 50 Hrun Htimer ltac:(lia) Hlive).
Defined.

(** C3 as the claim has it does not hold of a request without a handler:
    the callback erases its expired entry and delivers nothing. *)
Lemma timesup_callback_delivers_nothing_without_handler :
  run (H := ops) no_handler_accept_run new = Some after_no_handler_accept
  ∧ m_timesup after_no_handler_accept = [(150, 0%nat)]
  ∧ m_timesup_timer after_no_handler_accept = Some (100, 50)
  ∧ (∃ s', io_step (H := ops) (TimesupFired 150) after_no_handler_accept
           = Some s'
           ∧ m_timesup s' = []
           ∧ m_timesup_timer s' = None
           ∧ trace s' = trace after_no_handler_accept ++ [EvTimesupErase 0])
  ∧ ¬ ∃ evs, timesup_delivery after_no_handler_accept (150, 0%nat) evs.
Proof.
  split; [vm_compute; reflexivity|]. split; [vm_compute; reflexivity|].
  split; [vm_compute; reflexivity|]. split.
  - eexists. split; [vm_compute; reflexivity|]. by vm_compute.
  - intros (evs & e & r & h & b & resp & He & Hr & Hh & _).
    vm_compute in He. injection He as <-.
    vm_compute in Hr. injection Hr as <-. by vm_compute in Hh.
Qed.

(** C8 as the claim has it does not hold: a disabled call does not clear
    what an enabled call recorded.  After [FollowRedirects(true, 3)] and
    [FollowRedirects(false, 0)] the recorded count is 3, neither the
    constructor's -1 nor the argument. *)
Lemma FollowRedirects_disabled_keeps_count :
  m_max_redirects plain = -1
  ∧ m_follow_redirects
      (Request.FollowRedirects (Request.FollowRedirects plain true 3) false 0)
    = false
  ∧ m_max_redirects
      (Request.FollowRedirects (Request.FollowRedirects plain true 3) false 0)
    = 3
  ∧ Request.FollowRedirects (Request.FollowRedirects plain true 3) false 0
    ≠ Request.FollowRedirects plain false 0.
Proof. split_and!; try reflexivity. discriminate. Qed.

End MoreWitnesses.
